(** * Secret masking: rule-driven masking engine and stream processor

    A shallow embedding of the two Go programs of the repository:

    - [yaml_regex.go]: [Pattern], [readPatterns], [maskSecretKeys]
      (length-preserving policy, patterns compiled on every call);
    - the built-in catalogue program: [Rule], [BuiltinRules],
      [MaskSecretsOnString] (fixed-token policy) and [MaskSecretsStream].

    Go strings are byte strings: they are modelled by [string], one [ascii]
    per byte.  The Go standard library packages the programs call
    ([unicode/utf8], [regexp/syntax], [regexp], [bytes], [bufio]) are
    modelled in the modules of the same names below, following the
    library's documented behaviour. *)

From Stdlib Require Import String Ascii List NArith ZArith Arith Bool Lia.
Import ListNotations.

Local Open Scope string_scope.
Local Open Scope nat_scope.

(* ================================================================== *)
(** ** Go string primitives *)

Module gostr.

(** [s[n:]] for [n <= len(s)]. *)
Fixpoint drop (n : nat) (s : string) : string :=
  match n, s with
  | O, _ => s
  | S n', String _ s' => drop n' s'
  | S _, EmptyString => EmptyString
  end.

(** [s[:n]] for [n <= len(s)]. *)
Fixpoint take (n : nat) (s : string) : string :=
  match n, s with
  | O, _ => EmptyString
  | S n', String c s' => String c (take n' s')
  | S _, EmptyString => EmptyString
  end.

(** [strings.Repeat(String c EmptyString, n)]. *)
Fixpoint repeat (c : ascii) (n : nat) : string :=
  match n with
  | O => EmptyString
  | S n' => String c (repeat c n')
  end.

(** [s[i]] as a byte value, when [i < len(s)]. *)
Definition byteAt (s : string) (i : nat) : option N :=
  option_map N_of_ascii (String.get i s).

(** [bytes.IndexByte(s, c)]. *)
Fixpoint indexByte (s : string) (c : ascii) : option nat :=
  match s with
  | EmptyString => None
  | String a s' =>
      if Ascii.eqb a c then Some O else option_map S (indexByte s' c)
  end.

(** Last byte of a string. *)
Fixpoint last (s : string) : option ascii :=
  match s with
  | EmptyString => None
  | String c EmptyString => Some c
  | String _ s' => last s'
  end.

Definition concatAll (l : list string) : string :=
  fold_right String.append EmptyString l.

End gostr.

(** The line terminator, ["\n"], and carriage return. *)
Definition LF : ascii := ascii_of_nat 10.
Definition CR : ascii := ascii_of_nat 13.
Definition nl : string := String LF EmptyString.
(** The double quote character, as a one-byte string. *)
Definition dq : string := String (ascii_of_nat 34) EmptyString.

(* ================================================================== *)
(** ** unicode/utf8 *)

Module utf8.

Definition rune := N.
Definition RuneError : rune := 65533%N.

Local Open Scope N_scope.

Definition inb (lo hi x : N) : bool := (lo <=? x) && (x <=? hi).

(** The continuation-byte payload, [b & 0x3F]. *)
Definition cont (b : N) : N := N.land b 63.

(** [utf8.DecodeRuneInString]: the first rune of [s] and its width in bytes.
    Invalid or short encodings decode to [(RuneError, 1)], the empty string to
    [(RuneError, 0)]. *)
Definition DecodeRuneInString (s : string) : rune * nat :=
  match s with
  | EmptyString => (RuneError, 0%nat)
  | String c0 t =>
      let s0 := N_of_ascii c0 in
      if s0 <? 128 then (s0, 1%nat)
      else
        (* size and accepted range of the second byte, from the [first] table *)
        let info : option (nat * N * N) :=
          if inb 194 223 s0 then Some (2%nat, 128, 191)
          else if s0 =? 224 then Some (3%nat, 160, 191)
          else if inb 225 236 s0 then Some (3%nat, 128, 191)
          else if s0 =? 237 then Some (3%nat, 128, 159)
          else if inb 238 239 s0 then Some (3%nat, 128, 191)
          else if s0 =? 240 then Some (4%nat, 144, 191)
          else if inb 241 243 s0 then Some (4%nat, 128, 191)
          else if s0 =? 244 then Some (4%nat, 128, 143)
          else None in
        match info with
        | None => (RuneError, 1%nat)
        | Some (sz, lo, hi) =>
            if (String.length s <? sz)%nat then (RuneError, 1%nat)
            else
              match t with
              | EmptyString => (RuneError, 1%nat)
              | String c1 t1 =>
                  let s1 := N_of_ascii c1 in
                  if negb (inb lo hi s1) then (RuneError, 1%nat)
                  else if (sz <=? 2)%nat
                  then (N.lor (N.shiftl (N.land s0 31) 6) (cont s1), 2%nat)
                  else
                    match t1 with
                    | EmptyString => (RuneError, 1%nat)
                    | String c2 t2 =>
                        let s2 := N_of_ascii c2 in
                        if negb (inb 128 191 s2) then (RuneError, 1%nat)
                        else if (sz <=? 3)%nat
                        then (N.lor (N.shiftl (N.land s0 15) 12)
                                (N.lor (N.shiftl (cont s1) 6) (cont s2)), 3%nat)
                        else
                          match t2 with
                          | EmptyString => (RuneError, 1%nat)
                          | String c3 _ =>
                              let s3 := N_of_ascii c3 in
                              if negb (inb 128 191 s3) then (RuneError, 1%nat)
                              else (N.lor (N.shiftl (N.land s0 7) 18)
                                      (N.lor (N.shiftl (cont s1) 12)
                                         (N.lor (N.shiftl (cont s2) 6) (cont s3))),
                                    4%nat)
                          end
                    end
              end
        end
  end.

End utf8.

(* ================================================================== *)
(** ** regexp/syntax: abstract syntax and parser (Perl flags) *)

Module syntax.
Import utf8.

Inductive ErrorCode : Type :=
| ErrInvalidCharClass
| ErrInvalidCharRange
| ErrInvalidEscape
| ErrInvalidNamedCapture
| ErrInvalidPerlOp
| ErrInvalidRepeatOp
| ErrInvalidRepeatSize
| ErrInvalidUTF8
| ErrMissingBracket
| ErrMissingParen
| ErrMissingRepeatArgument
| ErrTrailingBackslash
| ErrUnexpectedParen
(** Unicode property classes ([\p{..}]) need the Unicode tables, which are
    not part of this model; such a pattern is reported with this code. *)
| ErrUnicodeTables.

Inductive result (A : Type) : Type :=
| Ok (a : A)
| Err (e : ErrorCode).
Arguments Ok {A} a.
Arguments Err {A} e.

Definition bind {A B : Type} (x : result A) (f : A -> result B) : result B :=
  match x with
  | Ok a => f a
  | Err e => Err e
  end.

Notation "x <- c1 ;; c2" := (bind c1 (fun x => c2))
  (at level 61, c1 at next level, right associativity).
Notation "' pat <- c1 ;; c2" := (bind c1 (fun x => match x with pat => c2 end))
  (at level 61, pat pattern, c1 at next level, right associativity).

(** A member of a bracket expression: a range, or a Perl/POSIX group. *)
Inductive ClassItem : Type :=
| ClassRange (lo hi : rune)
| ClassGroup (negated : bool) (ranges : list (rune * rune)).

Record Class : Type := mkClass {
  cls_fold : bool;     (* parsed under the FoldCase flag *)
  cls_neg : bool;      (* [^...] *)
  cls_items : list ClassItem
}.

Inductive Regexp : Type :=
| OpNoMatch
| OpEmptyMatch
| OpLiteral (fold : bool) (r : rune)
| OpCharClass (c : Class)
| OpAnyCharNotNL
| OpAnyChar
| OpBeginLine
| OpEndLine
| OpBeginText
| OpEndText
| OpWordBoundary
| OpNoWordBoundary
| OpCapture (cap : nat) (name : string) (sub : Regexp)
| OpStar (nongreedy : bool) (sub : Regexp)
| OpPlus (nongreedy : bool) (sub : Regexp)
| OpQuest (nongreedy : bool) (sub : Regexp)
| OpRepeat (nongreedy : bool) (min : nat) (max : option nat) (sub : Regexp)
| OpConcat (a b : Regexp)
| OpAlternate (a b : Regexp).

Record Flags : Type := mkFlags {
  FoldCase : bool;
  OneLine : bool;
  DotNL : bool;
  NonGreedy : bool
}.

(** [syntax.Perl], the flags [regexp.Compile] parses with (ClassNL, PerlX and
    UnicodeGroups are constant and built into the parser below). *)
Definition Perl : Flags :=
  {| FoldCase := false; OneLine := true; DotNL := false; NonGreedy := false |}.

Local Open Scope N_scope.

Definition perl_d : list (rune * rune) := [(48, 57)].
Definition perl_s : list (rune * rune) := [(9, 10); (12, 13); (32, 32)].
Definition perl_w : list (rune * rune) := [(48, 57); (65, 90); (95, 95); (97, 122)].

(** The POSIX groups, [[:name:]] and [[:^name:]]. *)
Definition posixGroup (name : string) : option ClassItem :=
  let pos := fun r => Some (ClassGroup false r) in
  let neg := fun r => Some (ClassGroup true r) in
  let tbl : list (string * list (rune * rune)) :=
    [ ("alnum", [(48, 57); (65, 90); (97, 122)]);
      ("alpha", [(65, 90); (97, 122)]);
      ("ascii", [(0, 127)]);
      ("blank", [(9, 9); (32, 32)]);
      ("cntrl", [(0, 31); (127, 127)]);
      ("digit", [(48, 57)]);
      ("graph", [(33, 126)]);
      ("lower", [(97, 122)]);
      ("print", [(32, 126)]);
      ("punct", [(33, 47); (58, 64); (91, 96); (123, 126)]);
      ("space", [(9, 13); (32, 32)]);
      ("upper", [(65, 90)]);
      ("word", [(48, 57); (65, 90); (97, 122); (95, 95)]);
      ("xdigit", [(48, 57); (65, 70); (97, 102)]) ]%string in
  let fix look (l : list (string * list (rune * rune))) : option ClassItem :=
    match l with
    | [] => None
    | (n, r) :: l' =>
        if String.eqb name ("[:" ++ n ++ ":]")%string then pos r
        else if String.eqb name ("[:^" ++ n ++ ":]")%string then neg r
        else look l'
    end in
  look tbl.

Definition isalnum (c : rune) : bool :=
  inb 48 57 c || inb 65 90 c || inb 97 122 c.

Definition unhex (c : rune) : option N :=
  if inb 48 57 c then Some (c - 48)
  else if inb 97 102 c then Some (c - 97 + 10)
  else if inb 65 70 c then Some (c - 65 + 10)
  else None.

Definition MaxRune : rune := 1114111.

(** [nextRune]: the first rune of the pattern text, rejecting invalid UTF-8. *)
Definition nextRune (s : string) : result (rune * string) :=
  let '(c, size) := DecodeRuneInString s in
  if (c =? RuneError) && (size =? 1)%nat then Err ErrInvalidUTF8
  else Ok (c, gostr.drop size s).

Definition headIs (s : string) (c : ascii) : bool :=
  match s with
  | String a _ => Ascii.eqb a c
  | EmptyString => false
  end.

Definition isOctal (s : string) : bool :=
  match s with
  | String a _ => inb 48 55 (N_of_ascii a)
  | EmptyString => false
  end.

(** Up to [n] further octal digits of an octal escape. *)
Fixpoint octalDigits (n : nat) (r : rune) (t : string) : rune * string :=
  match n with
  | O => (r, t)
  | S n' =>
      match t with
      | String a t' =>
          if isOctal t then octalDigits n' (r * 8 + (N_of_ascii a - 48)) t'
          else (r, t)
      | EmptyString => (r, t)
      end
  end.

(** The digits of [\x{...}], up to the closing brace. *)
Fixpoint hexBraces (fuel : nat) (nhex : nat) (r : rune) (t : string)
  : result (rune * string) :=
  match fuel with
  | O => Err ErrInvalidEscape
  | S fuel' =>
      match t with
      | EmptyString => Err ErrInvalidEscape
      | _ =>
          '(c, t') <- nextRune t ;;
          if c =? 125 then
            if (nhex =? 0)%nat then Err ErrInvalidEscape else Ok (r, t')
          else
            match unhex c with
            | None => Err ErrInvalidEscape
            | Some v =>
                let r' := r * 16 + v in
                if MaxRune <? r' then Err ErrInvalidEscape
                else hexBraces fuel' (S nhex) r' t'
            end
      end
  end.

(** [parseEscape]: [s] begins with a backslash. *)
Definition parseEscape (s : string) : result (rune * string) :=
  let t := gostr.drop 1 s in
  match t with
  | EmptyString => Err ErrTrailingBackslash
  | _ =>
      '(c, t) <- nextRune t ;;
      if inb 49 55 c then
        (* a single non-zero digit is a backreference: not supported *)
        if isOctal t then Ok (octalDigits 2 (c - 48) t) else Err ErrInvalidEscape
      else if c =? 48 then Ok (octalDigits 2 0 t)
      else if c =? 120 then
        match t with
        | EmptyString => Err ErrInvalidEscape
        | _ =>
            '(c, t) <- nextRune t ;;
            if c =? 123 then hexBraces (S (String.length t)) 0 0 t
            else
              '(c2, t) <- nextRune t ;;
              match unhex c, unhex c2 with
              | Some x, Some y => Ok (x * 16 + y, t)
              | _, _ => Err ErrInvalidEscape
              end
        end
      else if c =? 97 then Ok (7, t)
      else if c =? 102 then Ok (12, t)
      else if c =? 110 then Ok (10, t)
      else if c =? 114 then Ok (13, t)
      else if c =? 116 then Ok (9, t)
      else if c =? 118 then Ok (11, t)
      else if (c <? 128) && negb (isalnum c) then Ok (c, t)
      else Err ErrInvalidEscape
  end.

(** [maybeParsePerlClassEscape]: [\d \D \s \S \w \W]. *)
Definition perlGroup (s : string) : option (ClassItem * string) :=
  match s with
  | String b (String c t) =>
      if Ascii.eqb b "\"%char then
        if Ascii.eqb c "d"%char then Some (ClassGroup false perl_d, t)
        else if Ascii.eqb c "D"%char then Some (ClassGroup true perl_d, t)
        else if Ascii.eqb c "s"%char then Some (ClassGroup false perl_s, t)
        else if Ascii.eqb c "S"%char then Some (ClassGroup true perl_s, t)
        else if Ascii.eqb c "w"%char then Some (ClassGroup false perl_w, t)
        else if Ascii.eqb c "W"%char then Some (ClassGroup true perl_w, t)
        else None
      else None
  | _ => None
  end.

Definition isUnicodeClass (s : string) : bool :=
  match s with
  | String b (String c _) =>
      Ascii.eqb b "\"%char && (Ascii.eqb c "p"%char || Ascii.eqb c "P"%char)
  | _ => false
  end.

Definition parseClassChar (s : string) : result (rune * string) :=
  match s with
  | EmptyString => Err ErrMissingBracket
  | String a _ => if Ascii.eqb a "\"%char then parseEscape s else nextRune s
  end.

Definition parseClassRange (s : string) : result (rune * rune * string) :=
  '(lo, t) <- parseClassChar s ;;
  match t with
  | String d (String e _) =>
      if Ascii.eqb d "-"%char && negb (Ascii.eqb e "]"%char) then
        '(hi, t') <- parseClassChar (gostr.drop 1 t) ;;
        if hi <? lo then Err ErrInvalidCharRange else Ok (lo, hi, t')
      else Ok (lo, lo, t)
  | _ => Ok (lo, lo, t)
  end.

(** Offset of the first occurrence of [":]"] in [s]. *)
Fixpoint indexColonBracket (s : string) : option nat :=
  match s with
  | String a ((String b _) as s') =>
      if Ascii.eqb a ":"%char && Ascii.eqb b "]"%char then Some O
      else option_map S (indexColonBracket s')
  | _ => None
  end.

(** [maybeParseNamedClass]: [None] when [s] is not of the form [[:...:]]. *)
Definition maybeParseNamedClass (s : string) : result (option (ClassItem * string)) :=
  match s with
  | String a (String b t) =>
      if Ascii.eqb a "["%char && Ascii.eqb b ":"%char then
        match indexColonBracket t with
        | None => Ok None
        | Some i =>
            let name := gostr.take (i + 4) s in
            match posixGroup name with
            | None => Err ErrInvalidCharRange
            | Some g => Ok (Some (g, gostr.drop (i + 4) s))
            end
        end
      else Ok None
  | _ => Ok None
  end.

(** The loop of [parseClass], after the opening bracket and the optional
    caret; [first] allows a closing bracket as the first member. *)
Fixpoint parseClassItems (fuel : nat) (first : bool) (acc : list ClassItem) (t : string)
  : result (list ClassItem * string) :=
  match fuel with
  | O => Err ErrMissingBracket
  | S fuel' =>
      if headIs t "]"%char && negb first then Ok (List.rev acc, gostr.drop 1 t)
      else
        named <- (if (2 <? String.length t)%nat then maybeParseNamedClass t else Ok None) ;;
        match named with
        | Some (g, t') => parseClassItems fuel' false (g :: acc) t'
        | None =>
            if isUnicodeClass t then Err ErrUnicodeTables
            else
              match perlGroup t with
              | Some (g, t') => parseClassItems fuel' false (g :: acc) t'
              | None =>
                  '(lo, hi, t') <- parseClassRange t ;;
                  parseClassItems fuel' false (ClassRange lo hi :: acc) t'
              end
        end
  end.

(** [parseClass]: [s] begins with an opening bracket. *)
Definition parseClass (fl : Flags) (s : string) : result (Regexp * string) :=
  let t := gostr.drop 1 s in
  let neg := headIs t "^"%char in
  let t := if neg then gostr.drop 1 t else t in
  '(items, t') <- parseClassItems (S (String.length t)) true [] t ;;
  Ok (OpCharClass (mkClass (FoldCase fl) neg items), t').


(** *** The operator stack

    The Go parser keeps one stack of finished operands and pseudo-operators
    (left parenthesis, vertical bar).  Here the stack is kept in layers: the
    operands of the concatenation being read ([items], latest first), the
    finished branches of the alternation being read ([alts], latest first), and
    one [group] per open parenthesis holding the layers it interrupted. *)

Record group : Type := mkGroup {
  g_cap : option (nat * string);  (* capture index and name; None: (?: *)
  g_flags : Flags;                (* flags restored by the closing parenthesis *)
  g_alts : list Regexp;
  g_items : list Regexp
}.

Record parser : Type := mkParser {
  flags : Flags;
  numCap : nat;
  alts : list Regexp;
  items : list Regexp;
  outer : list group
}.

Definition push (p : parser) (re : Regexp) : parser :=
  mkParser (flags p) (numCap p) (alts p) (re :: items p) (outer p).

Definition setFlags (p : parser) (fl : Flags) : parser :=
  mkParser fl (numCap p) (alts p) (items p) (outer p).

Definition literal (p : parser) (r : rune) : parser :=
  push p (OpLiteral (FoldCase (flags p)) r).

(** [concat]: the concatenation of the operands above the last bar or
    parenthesis; the empty concatenation matches the empty string. *)
Definition concat (its : list Regexp) : Regexp :=
  match its with
  | [] => OpEmptyMatch
  | lst :: rest => fold_left (fun acc x => OpConcat x acc) rest lst
  end.

(** [alternate]: the alternation of the branches, in source order. *)
Definition alternate (branches : list Regexp) : Regexp :=
  match branches with
  | [] => OpNoMatch
  | lst :: rest => fold_left (fun acc x => OpAlternate x acc) rest lst
  end.

Definition opLeftParen (p : parser) (cap : option (nat * string)) (n : nat) : parser :=
  mkParser (flags p) n [] [] (mkGroup cap (flags p) (alts p) (items p) :: outer p).

Definition parseVerticalBar (p : parser) : parser :=
  mkParser (flags p) (numCap p) (concat (items p) :: alts p) [] (outer p).

Definition parseRightParen (p : parser) : result parser :=
  let re := alternate (concat (items p) :: alts p) in
  match outer p with
  | [] => Err ErrUnexpectedParen
  | g :: gs =>
      let re' := match g_cap g with
                 | None => re
                 | Some (i, name) => OpCapture i name re
                 end in
      Ok (mkParser (g_flags g) (numCap p) (g_alts g) (re' :: g_items g) gs)
  end.

Fixpoint repeatIsValid (re : Regexp) (n : nat) : bool :=
  match re with
  | OpRepeat _ mn mx sub =>
      match mx with
      | Some O => true
      | _ =>
          let m := match mx with Some x => x | None => mn end in
          if (n <? m)%nat then false
          else repeatIsValid sub (if (0 <? m)%nat then Nat.div n m else n)
      end
  | OpCapture _ _ sub | OpStar _ sub | OpPlus _ sub | OpQuest _ sub =>
      repeatIsValid sub n
  | OpConcat a b | OpAlternate a b => repeatIsValid a n && repeatIsValid b n
  | _ => true
  end.

Inductive RepeatOp : Type := RStar | RPlus | RQuest | RRepeat (mn : nat) (mx : option nat).

(** [p.repeat]: apply a repetition operator to the operand on top of the stack;
    [after] is the text after the operator. *)
Definition repeatOp (p : parser) (op : RepeatOp) (after : string) (lastRepeat : bool)
  : result (parser * string) :=
  let lazy := headIs after "?"%char in
  let after := if lazy then gostr.drop 1 after else after in
  let ng := xorb (NonGreedy (flags p)) lazy in
  if lastRepeat then Err ErrInvalidRepeatOp
  else
    match items p with
    | [] => Err ErrMissingRepeatArgument
    | sub :: rest =>
        let re := match op with
                  | RStar => OpStar ng sub
                  | RPlus => OpPlus ng sub
                  | RQuest => OpQuest ng sub
                  | RRepeat mn mx => OpRepeat ng mn mx sub
                  end in
        let big := match op with
                   | RRepeat mn mx =>
                       (2 <=? mn)%nat || match mx with Some x => (2 <=? x)%nat | None => false end
                   | _ => false
                   end in
        if big && negb (repeatIsValid re 1000) then Err ErrInvalidRepeatOp
        else Ok (mkParser (flags p) (numCap p) (alts p) (re :: rest) (outer p), after)
    end.

Definition isDigit (a : ascii) : bool := inb 48 57 (N_of_ascii a).

Fixpoint digits (s : string) : string * string :=
  match s with
  | String a s' =>
      if isDigit a then let '(d, r) := digits s' in (String a d, r)
      else (EmptyString, s)
  | EmptyString => (EmptyString, EmptyString)
  end.

(** The value of a digit string; [None] stands for Go's -1 (too big). *)
Fixpoint intValue (n : N) (t : string) : option N :=
  match t with
  | EmptyString => Some n
  | String a t' =>
      if 100000000 <=? n then None
      else intValue (n * 10 + (N_of_ascii a - 48)) t'
  end.

Definition parseInt (s : string) : option (option N * string) :=
  match s with
  | String a s' =>
      if negb (isDigit a) then None
      else if Ascii.eqb a "0"%char
              && match s' with String b _ => isDigit b | EmptyString => false end
      then None
      else let '(d, r) := digits s in Some (intValue 0 d, r)
  | EmptyString => None
  end.

(** [parseRepeat]: [{n}], [{n,}] or [{n,m}]; [None] when the text is not a
    repetition, in which case the brace is a literal.  The minimum is [None]
    when a number was too big; the maximum is [None] when it is absent. *)
Definition parseRepeat (s : string) : option (option N * option N * string) :=
  match s with
  | String a s1 =>
      if negb (Ascii.eqb a "{"%char) then None
      else
        match parseInt s1 with
        | None => None
        | Some (mn, s2) =>
            let close := fun (mn : option N) (mx : option N) (s : string) =>
              if headIs s "}"%char then Some (mn, mx, gostr.drop 1 s) else None in
            match s2 with
            | EmptyString => None
            | String b s3 =>
                if negb (Ascii.eqb b ","%char) then close mn mn s2
                else
                  match s3 with
                  | EmptyString => None
                  | String c _ =>
                      if Ascii.eqb c "}"%char then close mn None s3
                      else
                        match parseInt s3 with
                        | None => None
                        | Some (Some mx, s4) => close mn (Some mx) s4
                        | Some (None, s4) => close None (Some 0) s4
                        end
                  end
            end
        end
  | EmptyString => None
  end.

Definition isValidCaptureName (name : string) : bool :=
  negb (String.eqb name EmptyString)
  && forallb (fun a => Ascii.eqb a "_"%char || isalnum (N_of_ascii a))
       (list_ascii_of_string name).

(** The flag letters of [(?flags)] and [(?flags:]; [sign] is false after a
    minus.  Go inverts the whole flag word at the minus and again at the end,
    which clears the flags named after the minus (and sets OneLine for [m]). *)
Fixpoint perlFlagLetters (fuel : nat) (t : string) (fl : Flags) (sign sawFlag : bool)
  : result (bool * Flags * string) :=
  match fuel with
  | O => Err ErrInvalidPerlOp
  | S fuel' =>
      match t with
      | EmptyString => Err ErrInvalidPerlOp
      | String a t' =>
          let set := fun (f : Flags) => perlFlagLetters fuel' t' f sign true in
          if Ascii.eqb a "i"%char then
            set (mkFlags sign (OneLine fl) (DotNL fl) (NonGreedy fl))
          else if Ascii.eqb a "m"%char then
            set (mkFlags (FoldCase fl) (negb sign) (DotNL fl) (NonGreedy fl))
          else if Ascii.eqb a "s"%char then
            set (mkFlags (FoldCase fl) (OneLine fl) sign (NonGreedy fl))
          else if Ascii.eqb a "U"%char then
            set (mkFlags (FoldCase fl) (OneLine fl) (DotNL fl) sign)
          else if Ascii.eqb a "-"%char then
            if sign then perlFlagLetters fuel' t' fl false false
            else Err ErrInvalidPerlOp
          else if Ascii.eqb a ":"%char || Ascii.eqb a ")"%char then
            if negb sign && negb sawFlag then Err ErrInvalidPerlOp
            else Ok (Ascii.eqb a ":"%char, fl, t')
          else
            '(_, _) <- nextRune t ;; Err ErrInvalidPerlOp
      end
  end.

(** [parsePerlFlags]: [s] begins with ["(?"]. *)
Definition parsePerlFlags (p : parser) (s : string) : result (parser * string) :=
  let startsWithP :=
    (4 <? String.length s)%nat && String.eqb (gostr.take 4 s) "(?P<" in
  let startsWithName :=
    (3 <? String.length s)%nat && String.eqb (gostr.take 3 s) "(?<" in
  if startsWithP || startsWithName then
    let exprStartPos := if startsWithName then 3%nat else 4%nat in
    match gostr.indexByte s ">"%char with
    | None => Err ErrInvalidNamedCapture
    | Some e =>
        let name := gostr.take (e - exprStartPos) (gostr.drop exprStartPos s) in
        if negb (isValidCaptureName name) then Err ErrInvalidNamedCapture
        else
          let n := S (numCap p) in
          Ok (opLeftParen p (Some (n, name)) n, gostr.drop (S e) s)
    end
  else
    '(grp, fl, t) <- perlFlagLetters (S (String.length s)) (gostr.drop 2 s) (flags p) true false ;;
    let p' := if grp then opLeftParen p None (numCap p) else p in
    Ok (setFlags p' fl, t).

(** [strings.Cut(s, "\E")]. *)
Fixpoint cutE (s : string) : string * string :=
  match s with
  | String a ((String b s'') as s') =>
      if Ascii.eqb a "\"%char && Ascii.eqb b "E"%char then (EmptyString, s'')
      else let '(l, r) := cutE s' in (String a l, r)
  | _ => (s, EmptyString)
  end.

Fixpoint literals (fuel : nat) (p : parser) (lit : string) : result parser :=
  match fuel with
  | O => Ok p
  | S fuel' =>
      match lit with
      | EmptyString => Ok p
      | _ => '(c, rest) <- nextRune lit ;; literals fuel' (literal p c) rest
      end
  end.

(** One turn of the parser's main loop on the non-empty text [t]: the new
    stack, whether the turn read a repetition operator, and the text left. *)
Definition parseStep (p : parser) (lastRepeat : bool) (t : string)
  : result (parser * bool * string) :=
  match t with
  | EmptyString => Ok (p, false, t)
  | String c t1 =>
      let plain := fun (p' : parser) (t' : string) => Ok (p', false, t') in
      if Ascii.eqb c "("%char then
        if headIs t1 "?"%char then
          '(p', t') <- parsePerlFlags p t ;; plain p' t'
        else
          let n := S (numCap p) in plain (opLeftParen p (Some (n, EmptyString)) n) t1
      else if Ascii.eqb c "|"%char then plain (parseVerticalBar p) t1
      else if Ascii.eqb c ")"%char then
        p' <- parseRightParen p ;; plain p' t1
      else if Ascii.eqb c "^"%char then
        plain (push p (if OneLine (flags p) then OpBeginText else OpBeginLine)) t1
      else if Ascii.eqb c "$"%char then
        plain (push p (if OneLine (flags p) then OpEndText else OpEndLine)) t1
      else if Ascii.eqb c "."%char then
        plain (push p (if DotNL (flags p) then OpAnyChar else OpAnyCharNotNL)) t1
      else if Ascii.eqb c "["%char then
        '(re, t') <- parseClass (flags p) t ;; plain (push p re) t'
      else if Ascii.eqb c "*"%char then
        '(p', t') <- repeatOp p RStar t1 lastRepeat ;; Ok (p', true, t')
      else if Ascii.eqb c "+"%char then
        '(p', t') <- repeatOp p RPlus t1 lastRepeat ;; Ok (p', true, t')
      else if Ascii.eqb c "?"%char then
        '(p', t') <- repeatOp p RQuest t1 lastRepeat ;; Ok (p', true, t')
      else if Ascii.eqb c "{"%char then
        match parseRepeat t with
        | None => plain (literal p 123) t1
        | Some (mn, mx, after) =>
            match mn with
            | None => Err ErrInvalidRepeatSize
            | Some mn =>
                if (1000 <? mn)
                   || match mx with Some x => (1000 <? x) || (x <? mn) | None => false end
                then Err ErrInvalidRepeatSize
                else
                  '(p', t') <- repeatOp p (RRepeat (N.to_nat mn) (option_map N.to_nat mx))
                                 after lastRepeat ;;
                  Ok (p', true, t')
            end
        end
      else if Ascii.eqb c "\"%char then
        match t1 with
        | String e t2 =>
            if Ascii.eqb e "A"%char then plain (push p OpBeginText) t2
            else if Ascii.eqb e "b"%char then plain (push p OpWordBoundary) t2
            else if Ascii.eqb e "B"%char then plain (push p OpNoWordBoundary) t2
            else if Ascii.eqb e "C"%char then Err ErrInvalidEscape
            else if Ascii.eqb e "Q"%char then
              let '(lit, t') := cutE t2 in
              p' <- literals (String.length lit) p lit ;; plain p' t'
            else if Ascii.eqb e "z"%char then plain (push p OpEndText) t2
            else if isUnicodeClass t then Err ErrUnicodeTables
            else
              match perlGroup t with
              | Some (g, t') =>
                  plain (push p (OpCharClass (mkClass (FoldCase (flags p)) false [g]))) t'
              | None => '(r, t') <- parseEscape t ;; plain (literal p r) t'
              end
        | EmptyString => Err ErrTrailingBackslash
        end
      else
        '(r, t') <- nextRune t ;; plain (literal p r) t'
  end.

Fixpoint parseLoop (fuel : nat) (p : parser) (lastRepeat : bool) (t : string)
  : result parser :=
  match t with
  | EmptyString => Ok p
  | _ =>
      match fuel with
      | O => Err ErrMissingParen
      | S fuel' =>
          '(p', rep, t') <- parseStep p lastRepeat t ;;
          parseLoop fuel' p' rep t'
      end
  end.

(** [syntax.Parse(s, syntax.Perl)].  Every turn of the parser's loop consumes
    a byte of the pattern at least, so the length of the pattern bounds the
    number of turns.  Of Go's parser two things are left out: the Unicode
    property classes (reported with [ErrUnicodeTables]) and the limits on the
    size and nesting depth of the parsed expression. *)
Definition Parse (s : string) : result Regexp :=
  p <- parseLoop (String.length s) (mkParser Perl 0 [] [] []) false s ;;
  match outer p with
  | [] => Ok (alternate (concat (items p) :: alts p))
  | _ => Err ErrMissingParen
  end.

End syntax.

(* ================================================================== *)
(** ** regexp: leftmost-first matching, FindAllStringIndex, ReplaceAllString *)

Module regexp.
Import utf8.
Export syntax.

(** A compiled expression: its source text and its parsed form. *)
Record Regexp : Type := mkRegexp {
  expr : string;
  prog : syntax.Regexp
}.

(** [regexp.Compile]. *)
Definition Compile (e : string) : result Regexp :=
  re <- Parse e ;; Ok (mkRegexp e re).

(** A position in the text being searched: the byte offset, the byte before
    it (none at offset 0) and the text from there on. *)
Record Input : Type := mkInput {
  pos : nat;
  prev : option ascii;
  rest : string
}.

Definition start (s : string) : Input := mkInput 0 None s.

(** [step]: the rune at the position and the position after it. *)
Definition step (i : Input) : option (rune * Input) :=
  match rest i with
  | EmptyString => None
  | _ =>
      let '(r, w) := DecodeRuneInString (rest i) in
      Some (r, mkInput (pos i + w) (String.get (w - 1) (rest i)) (gostr.drop w (rest i)))
  end.

Local Open Scope N_scope.

(** The runes equal to [r] under simple case folding.  Only the orbits that
    meet ASCII are tabulated (they include the Kelvin sign and the long s);
    any other rune folds to itself alone. *)
Definition orbit (r : rune) : list rune :=
  if inb 65 90 r then
    r :: (r + 32) :: (if r =? 75 then [8490] else if r =? 83 then [383] else [])
  else if inb 97 122 r then
    r :: (r - 32) :: (if r =? 107 then [8490] else if r =? 115 then [383] else [])
  else if r =? 8490 then [8490; 75; 107]
  else if r =? 383 then [383; 83; 115]
  else [r].

Definition variants (fold : bool) (r : rune) : list rune :=
  if fold then orbit r else [r].

Definition inRanges (rs : list (rune * rune)) (c : rune) : bool :=
  existsb (fun '(lo, hi) => inb lo hi c) rs.

Definition itemMatch (fold : bool) (c : rune) (it : ClassItem) : bool :=
  match it with
  | ClassRange lo hi => existsb (inb lo hi) (variants fold c)
  | ClassGroup negated rs => xorb negated (existsb (inRanges rs) (variants fold c))
  end.

Definition classMatch (cl : Class) (c : rune) : bool :=
  xorb (cls_neg cl) (existsb (itemMatch (cls_fold cl) c) (cls_items cl)).

Definition literalMatch (fold : bool) (r c : rune) : bool :=
  existsb (N.eqb c) (variants fold r).

Definition isWordByte (a : option ascii) : bool :=
  match a with
  | Some a => let c := N_of_ascii a in isalnum c || (c =? 95)
  | None => false
  end.

Definition next (i : Input) : option ascii := String.get 0 (rest i).

Definition isLF (a : option ascii) : bool :=
  match a with
  | Some a => Ascii.eqb a LF
  | None => false
  end.

Definition isNone {A : Type} (a : option A) : bool :=
  match a with
  | Some _ => false
  | None => true
  end.

Local Close Scope N_scope.

(** First success of two alternatives; the second is only run if needed. *)
Notation "a <|> b" := (match a with Some x => Some x | None => b end)
  (at level 60, right associativity, only parsing).

Notation "'choose' ng 'between' a 'and' b" :=
  (if ng then (b <|> a) else (a <|> b))
  (at level 10, ng at level 0, a at level 0, b at level 0, only parsing).

(** One rune satisfying [ok]. *)
Definition one (ok : rune -> bool) (i : Input) (k : Input -> option Input)
  : option Input :=
  match step i with
  | Some (c, i') => if ok c then k i' else None
  | None => None
  end.

Definition matcher : Type := Input -> (Input -> option Input) -> option Input.

(** [x*] for a sub-matcher [ms]: iterate as long as each iteration consumes
    input (an iteration that consumes nothing is cut), then continue with
    [k].  Each iteration moves on by a byte at least, so the bytes left bound
    the number of iterations: that is the [fuel]. *)
Fixpoint star (ms : matcher) (ng : bool) (k : Input -> option Input)
  (fuel : nat) (i : Input) {struct fuel} : option Input :=
  match fuel with
  | O => k i
  | S fuel' =>
      choose ng between
        (ms i (fun i' => if pos i <? pos i' then star ms ng k fuel' i' else None))
      and (k i)
  end.

(** [(x(x(x)?)?)?], [n] deep: the optional tail of [x{min,max}]. *)
Fixpoint upto (ms : matcher) (ng : bool) (k : Input -> option Input)
  (n : nat) (i : Input) {struct n} : option Input :=
  match n with
  | O => k i
  | S n' => choose ng between (ms i (upto ms ng k n')) and (k i)
  end.

(** [n] copies of [x]. *)
Fixpoint times (ms : matcher) (k : Input -> option Input)
  (n : nat) (i : Input) {struct n} : option Input :=
  match n with
  | O => k i
  | S n' => ms i (times ms k n')
  end.

(** The backtracking matcher: [m re i k] tries [re] at [i], preferring the
    alternatives in the order a backtracking search tries them (leftmost
    branch first, greedy operators the longer iteration first), and passes the
    position after each candidate to the continuation [k]; the first candidate
    [k] accepts wins.  [x{n,m}] is [n] copies of [x] and [m - n] nested
    optional ones, [x{n,}] is [n] copies of [x] and [x*], as Go's
    simplification has them. *)
Fixpoint m (re : syntax.Regexp) (i : Input) (k : Input -> option Input) {struct re}
  : option Input :=
  match re with
  | OpNoMatch => None
  | OpEmptyMatch => k i
  | OpLiteral fold r => one (literalMatch fold r) i k
  | OpCharClass cl => one (classMatch cl) i k
  | OpAnyCharNotNL => one (fun c => negb (N.eqb c 10)) i k
  | OpAnyChar => one (fun _ => true) i k
  | OpBeginLine => if isNone (prev i) || isLF (prev i) then k i else None
  | OpEndLine => if isNone (next i) || isLF (next i) then k i else None
  | OpBeginText => if isNone (prev i) then k i else None
  | OpEndText => if isNone (next i) then k i else None
  | OpWordBoundary =>
      if xorb (isWordByte (prev i)) (isWordByte (next i)) then k i else None
  | OpNoWordBoundary =>
      if xorb (isWordByte (prev i)) (isWordByte (next i)) then None else k i
  | OpCapture _ _ sub => m sub i k
  | OpConcat a b => m a i (fun i' => m b i' k)
  | OpAlternate a b => m a i k <|> m b i k
  | OpQuest ng sub => choose ng between (m sub i k) and (k i)
  | OpStar ng sub => star (m sub) ng k (S (String.length (rest i))) i
  | OpPlus ng sub =>
      m sub i (fun i1 => star (m sub) ng k (S (String.length (rest i1))) i1)
  | OpRepeat ng mn mx sub =>
      let tail :=
        match mx with
        | None => fun i0 => star (m sub) ng k (S (String.length (rest i0))) i0
        | Some mx => upto (m sub) ng k (mx - mn)
        end in
      times (m sub) tail mn i
  end.

(** [doExecute]: the leftmost match at or after the position, as the pair of
    its start and end positions. *)
Fixpoint doExecute (fuel : nat) (re : syntax.Regexp) (i : Input) : option (Input * Input) :=
  match m re i Some with
  | Some e => Some (i, e)
  | None =>
      match fuel with
      | O => None
      | S fuel' =>
          match step i with
          | Some (_, i') => doExecute fuel' re i'
          | None => None
          end
      end
  end.

Definition execute (re : Regexp) (i : Input) : option (Input * Input) :=
  doExecute (String.length (rest i)) (prog re) i.

(** [s[lo:hi]], for [lo <= hi <= len(s)]. *)
Definition slice (s : string) (lo hi : nat) : string :=
  gostr.take (hi - lo) (gostr.drop lo s).

Definition eqOpt (a : option nat) (b : nat) : bool :=
  match a with
  | Some x => x =? b
  | None => false
  end.

(** The loop of [allMatches]: [i] is the search position [pos], [cnt] the
    number of matches delivered, [prevMatchEnd] the end of the previous match
    ([None] for Go's -1).  An empty match right after the previous match is
    not delivered; after an empty match the search moves on by one rune, and
    the loop ends when that leaves the text. *)
Fixpoint allMatches (fuel : nat) (re : Regexp) (i : Input) (cnt n : Z)
  (prevMatchEnd : option nat) : list (nat * nat) :=
  match fuel with
  | O => []
  | S fuel' =>
      if (cnt <? n)%Z then
        match execute re i with
        | None => []
        | Some (a, b) =>
            if pos b =? pos i then
              let accept := negb (eqOpt prevMatchEnd (pos a)) in
              let deliver := if accept then [(pos a, pos b)] else [] in
              match step i with
              | Some (_, i') =>
                  deliver ++ allMatches fuel' re i'
                               (if accept then cnt + 1 else cnt)%Z n (Some (pos b))
              | None => deliver
              end
            else
              (pos a, pos b) :: allMatches fuel' re b (cnt + 1)%Z n (Some (pos b))
        end
      else []
  end.

(** [re.FindAllStringIndex(s, n)]: the [[start, end]] byte offsets of the
    successive non-overlapping matches; [n < 0] asks for all of them. *)
Definition FindAllStringIndex (re : Regexp) (s : string) (n : Z) : list (nat * nat) :=
  let n := if (n <? 0)%Z then (Z.of_nat (String.length s) + 1)%Z else n in
  allMatches (S (String.length s)) re (start s) 0%Z n None.

(** The loop of [replaceAll]: the text appended to the output buffer from the
    search position [i] on, [lastMatchEnd] being the end of the latest match.
    The replacement is not inserted for an empty match right after another
    match. *)
Fixpoint replaceAll (fuel : nat) (re : Regexp) (src repl : string)
  (lastMatchEnd : nat) (i : Input) : string :=
  match fuel with
  | O => gostr.drop lastMatchEnd src
  | S fuel' =>
      match execute re i with
      | None => gostr.drop lastMatchEnd src
      | Some (a, b) =>
          let copied := slice src lastMatchEnd (pos a) in
          let put := if (lastMatchEnd <? pos b) || (pos a =? 0) then repl else EmptyString in
          let width := snd (DecodeRuneInString (rest i)) in
          let after :=
            if pos b <? pos i + width then
              match step i with
              | Some (_, i') => replaceAll fuel' re src repl (pos b) i'
              | None => gostr.drop (pos b) src
              end
            else if pos b <? pos i + 1 then gostr.drop (pos b) src
            else replaceAll fuel' re src repl (pos b) b in
          String.append copied (String.append put after)
      end
  end.

(** [re.ReplaceAllString(src, repl)] for a replacement text without a dollar
    sign, which Go inserts literally (the only use the programs make of it). *)
Definition ReplaceAllString (re : Regexp) (src repl : string) : string :=
  replaceAll (S (String.length src)) re src repl 0 (start src).

End regexp.

(* ================================================================== *)
(** ** io, bytes, bufio *)

Module io.

Inductive error : Type :=
| EOF
| ErrNoProgress
| ErrTooLong          (* bufio.ErrTooLong *)
| ErrAdvanceTooFar.   (* bufio.ErrAdvanceTooFar *)

Definition eqb (a b : error) : bool :=
  match a, b with
  | EOF, EOF | ErrNoProgress, ErrNoProgress
  | ErrTooLong, ErrTooLong | ErrAdvanceTooFar, ErrAdvanceTooFar => true
  | _, _ => false
  end.

End io.

Module bytes.

(** A [bytes.Buffer] seen from its reader: the unread bytes, [buf[off:]]. *)
Definition Buffer : Type := string.

(** [b.Read(p)] with [len(p) = n]: the buffer afterwards, the bytes copied
    into [p] and the error.  An empty buffer yields [io.EOF] (no error when
    [p] is empty too); otherwise [min(n, b.Len())] bytes are copied. *)
Definition Read (b : Buffer) (n : nat) : Buffer * string * option io.error :=
  match b with
  | EmptyString =>
      if n =? 0 then (b, EmptyString, None) else (b, EmptyString, Some io.EOF)
  | _ => (gostr.drop n b, gostr.take n b, None)
  end.

End bytes.

Module bufio.

Definition startBufSize : nat := 4096.
Definition maxConsecutiveEmptyReads : nat := 100.

(** A [bufio.Scanner] over a [*bytes.Buffer] with the default split function
    [ScanLines].  The reader is the program's own buffer, so its state is part
    of the scanner's and is handed back to the caller.  Of the byte slice
    [buf] only the window [buf[start:end]] matters: it is [data], and
    [end = start + len(data)]. *)
Record Scanner : Type := mkScanner {
  r : bytes.Buffer;
  maxTokenSize : nat;
  token : option string;
  bufLen : nat;          (* len(s.buf) *)
  start : nat;
  data : string;         (* s.buf[s.start:s.end] *)
  err : option io.error;
  empties : nat
}.

Definition end_ (s : Scanner) : nat := start s + String.length (data s).

(** [bufio.NewScanner(r)] followed by [scanner.Buffer(buf, max)] with
    [len(buf) = cap(buf) = n]. *)
Definition NewScanner (rd : bytes.Buffer) (n max : nat) : Scanner :=
  mkScanner rd max None n 0 EmptyString None 0.

Definition dropCR (d : string) : string :=
  match gostr.last d with
  | Some c => if Ascii.eqb c CR then gostr.take (String.length d - 1) d else d
  | None => d
  end.

(** [bufio.ScanLines]: the advance and the token ([None] for [nil]: more
    data is needed, or the input is exhausted). *)
Definition ScanLines (d : string) (atEOF : bool) : nat * option string :=
  if atEOF && (String.length d =? 0) then (0, None)
  else
    match gostr.indexByte d LF with
    | Some i => (i + 1, Some (dropCR (gostr.take i d)))
    | None => if atEOF then (String.length d, Some (dropCR d)) else (0, None)
    end.

Definition isSome {A : Type} (a : option A) : bool :=
  match a with
  | Some _ => true
  | None => false
  end.

(** [s.setErr]: the first error other than EOF is kept. *)
Definition setErr (s : Scanner) (e : io.error) : Scanner :=
  match err s with
  | None | Some io.EOF =>
      mkScanner (r s) (maxTokenSize s) (token s) (bufLen s) (start s) (data s)
        (Some e) (empties s)
  | Some _ => s
  end.

(** The read loop at the end of a turn of [Scan]: read into
    [buf[end:len(buf)]] until data or an error arrives, giving up after too
    many empty reads. *)
Fixpoint readMore (budget : nat) (s : Scanner) : Scanner :=
  let '(rd, got, e) := bytes.Read (r s) (bufLen s - end_ s) in
  let s1 := mkScanner rd (maxTokenSize s) (token s) (bufLen s) (start s)
              (data s ++ got) (err s) (empties s) in
  match e with
  | Some er => setErr s1 er
  | None =>
      if 0 <? String.length got then
        mkScanner (r s1) (maxTokenSize s1) (token s1) (bufLen s1) (start s1)
          (data s1) (err s1) 0
      else
        match budget with
        | O => setErr s1 io.ErrNoProgress
        | S budget' => readMore budget' s1
        end
  end.

Inductive scanned : Type :=
| Scanned (more : bool) (s : Scanner)   (* Scan returned [more] *)
| ScanPanics                            (* too many empty tokens *)
| ScanRunsOn.                           (* the loop did not end within the fuel *)

(** [maxInt / 2] on a 64-bit platform. *)
Definition maxIntHalf : N := 4611686018427387903%N.

(** First part of a turn of [Scan]'s loop: see if a token can be had from the
    window.  [inl] is a return of [Scan], [inr] the scanner to go on with. *)
Definition trySplit (s : Scanner) : scanned + Scanner :=
  if (start s <? end_ s) || isSome (err s) then
    let '(advance, tok) := ScanLines (data s) (isSome (err s)) in
    if String.length (data s) <? advance
    then inl (Scanned false (setErr s io.ErrAdvanceTooFar))
    else
      let s1 := mkScanner (r s) (maxTokenSize s) tok (bufLen s)
                  (start s + advance) (gostr.drop advance (data s))
                  (err s) (empties s) in
      match tok with
      | Some _ =>
          if negb (isSome (err s1)) || (0 <? advance) then
            inl (Scanned true
                   (mkScanner (r s1) (maxTokenSize s1) tok (bufLen s1)
                      (start s1) (data s1) (err s1) 0))
          else if maxConsecutiveEmptyReads <? S (empties s1) then inl ScanPanics
          else
            inl (Scanned true
                   (mkScanner (r s1) (maxTokenSize s1) tok (bufLen s1)
                      (start s1) (data s1) (err s1) (S (empties s1))))
      | None => inr s1
      end
  else inr s.

(** The scanner shut down at the end of the input or after an I/O error. *)
Definition shutDown (s : Scanner) : Scanner :=
  mkScanner (r s) (maxTokenSize s) (token s) (bufLen s) 0 EmptyString
    (err s) (empties s).

(** Shift the data to the beginning of the buffer if there is lots of empty
    space or space is needed. *)
Definition shift (s : Scanner) : Scanner :=
  if (0 <? start s)
     && ((end_ s =? bufLen s) || (Nat.div (bufLen s) 2 <? start s))
  then mkScanner (r s) (maxTokenSize s) (token s) (bufLen s) 0 (data s)
         (err s) (empties s)
  else s.

(** Is the buffer full?  If so, resize, or give up at the maximum size. *)
Definition makeRoom (s : Scanner) : scanned + Scanner :=
  if end_ s =? bufLen s then
    if (maxTokenSize s <=? bufLen s)
       || (maxIntHalf <? N.of_nat (bufLen s))%N
    then inl (Scanned false (setErr s io.ErrTooLong))
    else
      let newSize := if bufLen s =? 0 then startBufSize else bufLen s * 2 in
      let newSize := Nat.min newSize (maxTokenSize s) in
      inr (mkScanner (r s) (maxTokenSize s) (token s) newSize 0 (data s)
             (err s) (empties s))
  else inr s.

(** The loop of [Scan]. *)
Fixpoint scanLoop (fuel : nat) (s : Scanner) : scanned :=
  match fuel with
  | O => ScanRunsOn
  | S fuel' =>
      match trySplit s with
      | inl res => res
      | inr s =>
          (* We cannot generate a token with what we are holding. *)
          if isSome (err s) then Scanned false (shutDown s)
          else
            match makeRoom (shift s) with
            | inl res => res
            | inr s => scanLoop fuel' (readMore maxConsecutiveEmptyReads s)
            end
      end
  end.

(** [scanner.Scan()].  Every turn of the loop that does not return reads from
    the buffer, so the unread length bounds the number of turns. *)
Definition Scan (s : Scanner) : scanned :=
  scanLoop (String.length (r s) + 2) s.

(** [scanner.Text()]. *)
Definition Text (s : Scanner) : string :=
  match token s with
  | Some t => t
  | None => EmptyString
  end.

(** [scanner.Err()]. *)
Definition Err (s : Scanner) : option io.error :=
  match err s with
  | Some io.EOF => None
  | e => e
  end.

End bufio.

(* ================================================================== *)
(** ** yaml_regex.go: patterns loaded from a YAML document,
       length-preserving masking *)

Module yaml_regex.
Import regexp.

Record PatternFields : Type := mkFields {
  Name : string;        (* yaml:"name" *)
  Regex : string;       (* yaml:"regex" *)
  Confidence : string   (* yaml:"confidence" *)
}.

(** [type Pattern struct { Pattern struct {...} `yaml:"pattern"` }]. *)
Record Pattern : Type := mkPattern {
  Pattern_ : PatternFields
}.

Section ReadPatterns.
(** The file system and the YAML decoder are outside the program. *)
Variable error : Type.
Variable ReadFile : string -> string + error.
Variable Unmarshal : string -> list Pattern + error.

(** [readPatterns]: read the file and decode it.  Nothing is compiled. *)
Definition readPatterns (filename : string) : list Pattern + error :=
  match ReadFile filename with
  | inr err => inr err
  | inl data =>
      match Unmarshal data with
      | inr err => inr err
      | inl patterns => inl patterns
      end
  end.
End ReadPatterns.

(** A line printed on standard output by
    [fmt.Printf("Error compiling regex '%s': %v\n", regex, err)]. *)
Inductive Printed : Type :=
| ErrorCompilingRegex (regex : string) (err : ErrorCode).

(** The outcome of a call: the value returned and what was printed, or a
    run-time panic (slice bounds out of range, negative Repeat count). *)
Inductive outcome : Type :=
| Returns (masked : string) (stdout : list Printed)
| Panics.

(** [input = input[:match[0]] + strings.Repeat("*", match[1]-match[0]) + input[match[1]:]] *)
Definition maskMatch (input : string) (mtch : nat * nat) : option string :=
  let '(m0, m1) := mtch in
  if m1 <? m0 then None
  else if String.length input <? m0 then None
  else if String.length input <? m1 then None
  else Some (gostr.take m0 input ++ gostr.repeat "*" (m1 - m0) ++ gostr.drop m1 input).

(** [for _, match := range matches { ... }] *)
Fixpoint rangeMatches (matches : list (nat * nat)) (input : string) : option string :=
  match matches with
  | [] => Some input
  | mtch :: matches' =>
      match maskMatch input mtch with
      | None => None
      | Some input' => rangeMatches matches' input'
      end
  end.

(** [for _, pattern := range patterns { ... }]: a pattern that does not
    compile prints a line and is skipped ([continue]). *)
Fixpoint rangePatterns (patterns : list Pattern) (input : string) (stdout : list Printed)
  : outcome :=
  match patterns with
  | [] => Returns input stdout
  | pattern :: patterns' =>
      match Compile (Regex (Pattern_ pattern)) with
      | Err err =>
          rangePatterns patterns' input
            (stdout ++ [ErrorCompilingRegex (Regex (Pattern_ pattern)) err])
      | Ok regex =>
          let matches := FindAllStringIndex regex input (-1) in
          match rangeMatches matches input with
          | None => Panics
          | Some input' => rangePatterns patterns' input' stdout
          end
      end
  end.

Definition maskSecretKeys (input : string) (patterns : list Pattern) : outcome :=
  rangePatterns patterns input [].

End yaml_regex.

(* ================================================================== *)
(** ** The built-in catalogue: rules compiled at start-up,
       fixed-token masking *)

Module masking.
Import regexp.

(** Reusable regex patterns *)
Definition quote : string := "[" ++ dq ++ "']?".
Definition connect : string := "\s*(:|=>|=)?\s*".
Definition startSecret : string := "(^|\s+)".
Definition endSecret : string := "[.,]?(\s+|$)".
Definition aws : string := "aws_?".

Record Rule : Type := mkRule {
  ID : string;
  Severity : string;
  Title : string;
  Regex : Regexp;
  SecretGroupName : string;
  Keywords : list string
}.

(** [regexp.MustCompile]: [Err] stands for the panic raised when the
    expression cannot be parsed. *)
Definition MustCompile (str : string) : result Regexp := Compile str.

(** One element of the [BuiltinRules] literal. *)
Definition rule (id severity title pattern group : string) (keywords : list string)
  : result Rule :=
  re <- MustCompile pattern ;;
  Ok (mkRule id severity title re group keywords).

Fixpoint sequence {A : Type} (l : list (result A)) : result (list A) :=
  match l with
  | [] => Ok []
  | x :: l' => a <- x ;; r <- sequence l' ;; Ok (a :: r)
  end.

(** The initialisation of the package variable [BuiltinRules]: every pattern
    goes through [MustCompile], in order. *)
Definition BuiltinRules_init : result (list Rule) :=
  sequence [
    rule "aws-access-key-id" "CRITICAL" "AWS Access Key ID"
      (quote ++ "(?P<secret>(A3T[A-Z0-9]|AKIA|AGPA|AIDA|AROA|AIPA|ANPA|ANVA|ASIA)[A-Z0-9]{16})" ++ quote ++ endSecret)
      "secret" ["AKIA"; "AGPA"; "AIDA"; "AROA"; "AIPA"; "ANPA"; "ANVA"; "ASIA"];
    rule "aws-secret-access-key" "CRITICAL" "AWS Secret Access Key"
      ("(?i)" ++ startSecret ++ quote ++ aws ++ "(sec(ret)?)?_?(access)?_?key" ++ quote ++ connect ++ quote ++ "(?P<secret>[A-Za-z0-9\/\+=]{40})" ++ quote ++ endSecret)
      "secret" ["key"];
    rule "github-pat" "CRITICAL" "GitHub Personal Access Token"
      "ghp_[0-9a-zA-Z]{36}"
      EmptyString ["ghp_"];
    rule "github-oauth" "CRITICAL" "GitHub OAuth Access Token"
      "gho_[0-9a-zA-Z]{36}"
      EmptyString ["gho_"];
    rule "github-app-token" "CRITICAL" "GitHub App Token"
      "(ghu|ghs)_[0-9a-zA-Z]{36}"
      EmptyString ["ghu_"; "ghs_"];
    rule "github-refresh-token" "CRITICAL" "GitHub Refresh Token"
      "ghr_[0-9a-zA-Z]{76}"
      EmptyString ["ghr_"];
    rule "github-fine-grained-pat" "CRITICAL" "GitHub Fine-grained personal access tokens"
      "github_pat_[a-zA-Z0-9]{22}_[a-zA-Z0-9]{59}"
      EmptyString ["github_pat_"];
    rule "gitlab-pat" "CRITICAL" "GitLab Personal Access Token"
      "glpat-[0-9a-zA-Z\-\_]{20}"
      EmptyString ["glpat-"];
    rule "hugging-face-access-token" "CRITICAL" "Hugging Face Access Token"
      "hf_[A-Za-z0-9]{39}"
      EmptyString ["hf_"];
    rule "private-key" "HIGH" "Asymmetric Private Key"
      "(?i)-----\s*?BEGIN[ A-Z0-9_-]*?PRIVATE KEY( BLOCK)?\s*?-----[\s]*?(?P<secret>[\sA-Za-z0-9=+/\\\r\n]+)[\s]*?-----\s*?END[ A-Z0-9_-]*? PRIVATE KEY( BLOCK)?\s*?-----"
      "secret" ["-----"];
    rule "shopify-token" "HIGH" "Shopify token"
      "shp(ss|at|ca|pa)_[a-fA-F0-9]{32}"
      EmptyString ["shpss_"; "shpat_"; "shpca_"; "shppa_"];
    rule "slack-access-token" "HIGH" "Slack token"
      "xox[baprs]-([0-9a-zA-Z]{10,48})"
      EmptyString ["xoxb-"; "xoxa-"; "xoxp-"; "xoxr-"; "xoxs-"];
    rule "stripe-publishable-token" "LOW" "Stripe Publishable Key"
      "(?i)pk_(test|live)_[0-9a-z]{10,32}"
      EmptyString ["pk_test_"; "pk_live_"];
    rule "stripe-secret-token" "CRITICAL" "Stripe Secret Key"
      "(?i)sk_(test|live)_[0-9a-z]{10,32}"
      EmptyString ["sk_test_"; "sk_live_"];
    rule "pypi-upload-token" "HIGH" "PyPI upload token"
      "pypi-AgEIcHlwaS5vcmc[A-Za-z0-9\-_]{50,1000}"
      EmptyString ["pypi-AgEIcHlwaS5vcmc"];
    rule "gcp-service-account" "CRITICAL" "Google (GCP) Service-account"
      ("\" ++ dq ++ "type\" ++ dq ++ ": \" ++ dq ++ "service_account\" ++ dq)
      EmptyString [(dq ++ "type" ++ dq ++ ": " ++ dq ++ "service_account" ++ dq)];
    rule "heroku-api-key" "HIGH" "Heroku API Key"
      (" (?i)(?P<key>heroku[a-z0-9_ .\-,]{0,25})(=|>|:=|\|\|:|<=|=>|:).{0,5}['\" ++ dq ++ "](?P<secret>[0-9A-F]{8}-[0-9A-F]{4}-[0-9A-F]{4}-[0-9A-F]{4}-[0-9A-F]{12})['\" ++ dq ++ "]")
      "secret" ["heroku"];
    rule "slack-web-hook" "MEDIUM" "Slack Webhook"
      "https:\/\/hooks.slack.com\/services\/[A-Za-z0-9+\/]{44,48}"
      EmptyString ["hooks.slack.com"];
    rule "twilio-api-key" "MEDIUM" "Twilio API Key"
      "SK[0-9a-fA-F]{32}"
      EmptyString ["SK"];
    rule "age-secret-key" "MEDIUM" "Age secret key"
      "AGE-SECRET-KEY-1[QPZRY9X8GF2TVDW0S3JN54KHCE6MUA7L]{58}"
      EmptyString ["AGE-SECRET-KEY-1"];
    rule "facebook-token" "LOW" "Facebook token"
      ("(?i)(?P<key>facebook[a-z0-9_ .\-,]{0,25})(=|>|:=|\|\|:|<=|=>|:).{0,5}['\" ++ dq ++ "](?P<secret>[a-f0-9]{32})['\" ++ dq ++ "]")
      "secret" ["facebook"];
    rule "twitter-token" "LOW" "Twitter token"
      ("(?i)(?P<key>twitter[a-z0-9_ .\-,]{0,25})(=|>|:=|\|\|:|<=|=>|:).{0,5}['\" ++ dq ++ "](?P<secret>[a-f0-9]{35,44})['\" ++ dq ++ "]")
      "secret" ["twitter"];
    rule "adobe-client-id" "LOW" "Adobe Client ID (Oauth Web)"
      ("(?i)(?P<key>adobe[a-z0-9_ .\-,]{0,25})(=|>|:=|\|\|:|<=|=>|:).{0,5}['\" ++ dq ++ "](?P<secret>[a-f0-9]{32})['\" ++ dq ++ "]")
      "secret" ["adobe"];
    rule "adobe-client-secret" "LOW" "Adobe Client Secret"
      "(p8e-)(?i)[a-z0-9]{32}"
      EmptyString ["p8e-"];
    rule "alibaba-access-key-id" "HIGH" "Alibaba AccessKey ID"
      "([^0-9A-Za-z]|^)(?P<secret>(LTAI)(?i)[a-z0-9]{20})([^0-9A-Za-z]|$)"
      "secret" ["LTAI"];
    rule "alibaba-secret-key" "HIGH" "Alibaba Secret Key"
      ("(?i)(?P<key>alibaba[a-z0-9_ .\-,]{0,25})(=|>|:=|\|\|:|<=|=>|:).{0,5}['\" ++ dq ++ "](?P<secret>[a-z0-9]{30})['\" ++ dq ++ "]")
      "secret" ["alibaba"];
    rule "asana-client-id" "MEDIUM" "Asana Client ID"
      ("(?i)(?P<key>asana[a-z0-9_ .\-,]{0,25})(=|>|:=|\|\|:|<=|=>|:).{0,5}['\" ++ dq ++ "](?P<secret>[0-9]{16})['\" ++ dq ++ "]")
      "secret" ["asana"];
    rule "asana-client-secret" "MEDIUM" "Asana Client Secret"
      ("(?i)(?P<key>asana[a-z0-9_ .\-,]{0,25})(=|>|:=|\|\|:|<=|=>|:).{0,5}['\" ++ dq ++ "](?P<secret>[a-z0-9]{32})['\" ++ dq ++ "]")
      "secret" ["asana"];
    rule "atlassian-api-token" "HIGH" "Atlassian API token"
      ("(?i)(?P<key>atlassian[a-z0-9_ .\-,]{0,25})(=|>|:=|\|\|:|<=|=>|:).{0,5}['\" ++ dq ++ "](?P<secret>[a-z0-9]{24})['\" ++ dq ++ "]")
      "secret" ["atlassian"];
    rule "bitbucket-client-id" "HIGH" "Bitbucket client ID"
      ("(?i)(?P<key>bitbucket[a-z0-9_ .\-,]{0,25})(=|>|:=|\|\|:|<=|=>|:).{0,5}['\" ++ dq ++ "](?P<secret>[a-z0-9]{32})['\" ++ dq ++ "]")
      "secret" ["bitbucket"];
    rule "bitbucket-client-secret" "HIGH" "Bitbucket client secret"
      ("(?i)(?P<key>bitbucket[a-z0-9_ .\-,]{0,25})(=|>|:=|\|\|:|<=|=>|:).{0,5}['\" ++ dq ++ "](?P<secret>[a-z0-9_\-]{64})['\" ++ dq ++ "]")
      "secret" ["bitbucket"];
    rule "beamer-api-token" "LOW" "Beamer API token"
      ("(?i)(?P<key>beamer[a-z0-9_ .\-,]{0,25})(=|>|:=|\|\|:|<=|=>|:).{0,5}['\" ++ dq ++ "](?P<secret>b_[a-z0-9=_\-]{44})['\" ++ dq ++ "]")
      "secret" ["beamer"];
    rule "clojars-api-token" "MEDIUM" "Clojars API token"
      "(CLOJARS_)(?i)[a-z0-9]{60}"
      EmptyString ["CLOJARS_"];
    rule "contentful-delivery-api-token" "LOW" "Contentful delivery API token"
      ("(?i)(?P<key>contentful[a-z0-9_ .\-,]{0,25})(=|>|:=|\|\|:|<=|=>|:).{0,5}['\" ++ dq ++ "](?P<secret>[a-z0-9\-=_]{43})['\" ++ dq ++ "]")
      "secret" ["contentful"];
    rule "databricks-api-token" "MEDIUM" "Databricks API token"
      "dapi[a-h0-9]{32}"
      EmptyString ["dapi"];
    rule "discord-api-token" "MEDIUM" "Discord API key"
      ("(?i)(?P<key>discord[a-z0-9_ .\-,]{0,25})(=|>|:=|\|\|:|<=|=>|:).{0,5}['\" ++ dq ++ "](?P<secret>[a-h0-9]{64})['\" ++ dq ++ "]")
      "secret" ["discord"];
    rule "discord-client-id" "MEDIUM" "Discord client ID"
      ("(?i)(?P<key>discord[a-z0-9_ .\-,]{0,25})(=|>|:=|\|\|:|<=|=>|:).{0,5}['\" ++ dq ++ "](?P<secret>[0-9]{18})['\" ++ dq ++ "]")
      "secret" ["discord"];
    rule "discord-client-secret" "MEDIUM" "Discord client secret"
      ("(?i)(?P<key>discord[a-z0-9_ .\-,]{0,25})(=|>|:=|\|\|:|<=|=>|:).{0,5}['\" ++ dq ++ "](?P<secret>[a-z0-9=_\-]{32})['\" ++ dq ++ "]")
      "secret" ["discord"];
    rule "doppler-api-token" "MEDIUM" "Doppler API token"
      ("['\" ++ dq ++ "](dp\.pt\.)(?i)[a-z0-9]{43}['\" ++ dq ++ "]")
      EmptyString ["dp.pt."];
    rule "dropbox-api-secret" "HIGH" "Dropbox API secret/key"
      ("(?i)(dropbox[a-z0-9_ .\-,]{0,25})(=|>|:=|\|\|:|<=|=>|:).{0,5}['\" ++ dq ++ "]([a-z0-9]{15})['\" ++ dq ++ "]")
      EmptyString ["dropbox"];
    rule "dropbox-short-lived-api-token" "HIGH" "Dropbox short lived API token"
      ("(?i)(dropbox[a-z0-9_ .\-,]{0,25})(=|>|:=|\|\|:|<=|=>|:).{0,5}['\" ++ dq ++ "](sl\.[a-z0-9\-=_]{135})['\" ++ dq ++ "]")
      EmptyString ["dropbox"];
    rule "dropbox-long-lived-api-token" "HIGH" "Dropbox long lived API token"
      ("(?i)(dropbox[a-z0-9_ .\-,]{0,25})(=|>|:=|\|\|:|<=|=>|:).{0,5}['\" ++ dq ++ "][a-z0-9]{11}(AAAAAAAAAA)[a-z0-9\-_=]{43}['\" ++ dq ++ "]")
      EmptyString ["dropbox"];
    rule "duffel-api-token" "LOW" "Duffel API token"
      ("['\" ++ dq ++ "]duffel_(test|live)_(?i)[a-z0-9_-]{43}['\" ++ dq ++ "]")
      EmptyString ["duffel_test_"; "duffel_live_"];
    rule "dynatrace-api-token" "MEDIUM" "Dynatrace API token"
      ("['\" ++ dq ++ "]dt0c01\.(?i)[a-z0-9]{24}\.[a-z0-9]{64}['\" ++ dq ++ "]")
      EmptyString ["dt0c01."];
    rule "easypost-api-token" "LOW" "EasyPost API token"
      ("['\" ++ dq ++ "]EZ[AT]K(?i)[a-z0-9]{54}['\" ++ dq ++ "]")
      EmptyString ["EZAK"; "EZAT"];
    rule "fastly-api-token" "MEDIUM" "Fastly API token"
      ("(?i)(?P<key>fastly[a-z0-9_ .\-,]{0,25})(=|>|:=|\|\|:|<=|=>|:).{0,5}['\" ++ dq ++ "](?P<secret>[a-z0-9\-=_]{32})['\" ++ dq ++ "]")
      "secret" ["fastly"];
    rule "finicity-client-secret" "MEDIUM" "Finicity client secret"
      ("(?i)(?P<key>finicity[a-z0-9_ .\-,]{0,25})(=|>|:=|\|\|:|<=|=>|:).{0,5}['\" ++ dq ++ "](?P<secret>[a-z0-9]{20})['\" ++ dq ++ "]")
      "secret" ["finicity"];
    rule "finicity-api-token" "MEDIUM" "Finicity API token"
      ("(?i)(?P<key>finicity[a-z0-9_ .\-,]{0,25})(=|>|:=|\|\|:|<=|=>|:).{0,5}['\" ++ dq ++ "](?P<secret>[a-f0-9]{32})['\" ++ dq ++ "]")
      "secret" ["finicity"];
    rule "flutterwave-public-key" "MEDIUM" "Flutterwave public/secret key"
      "FLW(PUB|SEC)K_TEST-(?i)[a-h0-9]{32}-X"
      EmptyString ["FLWSECK_TEST-"; "FLWPUBK_TEST-"];
    rule "flutterwave-enc-key" "MEDIUM" "Flutterwave encrypted key"
      "FLWSECK_TEST[a-h0-9]{12}"
      EmptyString ["FLWSECK_TEST"];
    rule "frameio-api-token" "LOW" "Frame.io API token"
      "fio-u-(?i)[a-z0-9\-_=]{64}"
      EmptyString ["fio-u-"];
    rule "gocardless-api-token" "MEDIUM" "GoCardless API token"
      ("['\" ++ dq ++ "]live_(?i)[a-z0-9\-_=]{40}['\" ++ dq ++ "]")
      EmptyString ["live_"];
    rule "grafana-api-token" "MEDIUM" "Grafana API token"
      ("['\" ++ dq ++ "]eyJrIjoi(?i)[a-z0-9\-_=]{72,92}['\" ++ dq ++ "]")
      EmptyString ["eyJrIjoi"];
    rule "hashicorp-tf-api-token" "MEDIUM" "HashiCorp Terraform user/org API token"
      ("['\" ++ dq ++ "](?i)[a-z0-9]{14}\.atlasv1\.[a-z0-9\-_=]{60,70}['\" ++ dq ++ "]")
      EmptyString ["atlasv1."];
    rule "hubspot-api-token" "LOW" "HubSpot API token"
      ("(?i)(?P<key>hubspot[a-z0-9_ .\-,]{0,25})(=|>|:=|\|\|:|<=|=>|:).{0,5}['\" ++ dq ++ "](?P<secret>[a-h0-9]{8}-[a-h0-9]{4}-[a-h0-9]{4}-[a-h0-9]{4}-[a-h0-9]{12})['\" ++ dq ++ "]")
      "secret" ["hubspot"];
    rule "intercom-api-token" "LOW" "Intercom API token"
      ("(?i)(?P<key>intercom[a-z0-9_ .\-,]{0,25})(=|>|:=|\|\|:|<=|=>|:).{0,5}['\" ++ dq ++ "](?P<secret>[a-z0-9=_]{60})['\" ++ dq ++ "]")
      "secret" ["intercom"];
    rule "intercom-client-secret" "LOW" "Intercom client secret/ID"
      ("(?i)(?P<key>intercom[a-z0-9_ .\-,]{0,25})(=|>|:=|\|\|:|<=|=>|:).{0,5}['\" ++ dq ++ "](?P<secret>[a-h0-9]{8}-[a-h0-9]{4}-[a-h0-9]{4}-[a-h0-9]{4}-[a-h0-9]{12})['\" ++ dq ++ "]")
      "secret" ["intercom"];
    rule "ionic-api-token" EmptyString "Ionic API token"
      ("(?i)(ionic[a-z0-9_ .\-,]{0,25})(=|>|:=|\|\|:|<=|=>|:).{0,5}['\" ++ dq ++ "](ion_[a-z0-9]{42})['\" ++ dq ++ "]")
      EmptyString ["ionic"];
    rule "jwt-token" "MEDIUM" "JWT token"
      "ey[a-zA-Z0-9]{17,}\.ey[a-zA-Z0-9\/\\_-]{17,}\.(?:[a-zA-Z0-9\/\\_-]{10,}={0,2})?"
      EmptyString ["jwt"];
    rule "linear-api-token" "MEDIUM" "Linear API token"
      "lin_api_(?i)[a-z0-9]{40}"
      EmptyString ["lin_api_"];
    rule "linear-client-secret" "MEDIUM" "Linear client secret/ID"
      ("(?i)(?P<key>linear[a-z0-9_ .\-,]{0,25})(=|>|:=|\|\|:|<=|=>|:).{0,5}['\" ++ dq ++ "](?P<secret>[a-f0-9]{32})['\" ++ dq ++ "]")
      "secret" ["linear"];
    rule "lob-api-key" "LOW" "Lob API Key"
      ("(?i)(?P<key>lob[a-z0-9_ .\-,]{0,25})(=|>|:=|\|\|:|<=|=>|:).{0,5}['\" ++ dq ++ "](?P<secret>(live|test)_[a-f0-9]{35})['\" ++ dq ++ "]")
      "secret" ["lob"];
    rule "lob-pub-api-key" "LOW" "Lob Publishable API Key"
      ("(?i)(?P<key>lob[a-z0-9_ .\-,]{0,25})(=|>|:=|\|\|:|<=|=>|:).{0,5}['\" ++ dq ++ "](?P<secret>(test|live)_pub_[a-f0-9]{31})['\" ++ dq ++ "]")
      "secret" ["lob"];
    rule "mailchimp-api-key" "MEDIUM" "Mailchimp API key"
      ("(?i)(?P<key>mailchimp[a-z0-9_ .\-,]{0,25})(=|>|:=|\|\|:|<=|=>|:).{0,5}['\" ++ dq ++ "](?P<secret>[a-f0-9]{32}-us20)['\" ++ dq ++ "]")
      "secret" ["mailchimp"];
    rule "mailgun-token" "MEDIUM" "Mailgun private API token"
      ("(?i)(?P<key>mailgun[a-z0-9_ .\-,]{0,25})(=|>|:=|\|\|:|<=|=>|:).{0,5}['\" ++ dq ++ "](?P<secret>(pub)?key-[a-f0-9]{32})['\" ++ dq ++ "]")
      "secret" ["mailgun"];
    rule "mailgun-signing-key" "MEDIUM" "Mailgun webhook signing key"
      ("(?i)(?P<key>mailgun[a-z0-9_ .\-,]{0,25})(=|>|:=|\|\|:|<=|=>|:).{0,5}['\" ++ dq ++ "](?P<secret>[a-h0-9]{32}-[a-h0-9]{8}-[a-h0-9]{8})['\" ++ dq ++ "]")
      "secret" ["mailgun"];
    rule "mapbox-api-token" "MEDIUM" "Mapbox API token"
      "(?i)(pk\.[a-z0-9]{60}\.[a-z0-9]{22})"
      EmptyString ["pk."];
    rule "messagebird-api-token" "MEDIUM" "MessageBird API token"
      ("(?i)(?P<key>messagebird[a-z0-9_ .\-,]{0,25})(=|>|:=|\|\|:|<=|=>|:).{0,5}['\" ++ dq ++ "](?P<secret>[a-z0-9]{25})['\" ++ dq ++ "]")
      "secret" ["messagebird"];
    rule "messagebird-client-id" "MEDIUM" "MessageBird API client ID"
      ("(?i)(?P<key>messagebird[a-z0-9_ .\-,]{0,25})(=|>|:=|\|\|:|<=|=>|:).{0,5}['\" ++ dq ++ "](?P<secret>[a-h0-9]{8}-[a-h0-9]{4}-[a-h0-9]{4}-[a-h0-9]{4}-[a-h0-9]{12})['\" ++ dq ++ "]")
      "secret" ["messagebird"];
    rule "new-relic-user-api-key" "MEDIUM" "New Relic user API Key"
      ("['\" ++ dq ++ "](NRAK-[A-Z0-9]{27})['\" ++ dq ++ "]")
      EmptyString ["NRAK-"];
    rule "new-relic-user-api-id" "MEDIUM" "New Relic user API ID"
      ("(?i)(?P<key>newrelic[a-z0-9_ .\-,]{0,25})(=|>|:=|\|\|:|<=|=>|:).{0,5}['\" ++ dq ++ "](?P<secret>[A-Z0-9]{64})['\" ++ dq ++ "]")
      "secret" ["newrelic"];
    rule "new-relic-browser-api-token" "MEDIUM" "New Relic ingest browser API token"
      ("['\" ++ dq ++ "](NRJS-[a-f0-9]{19})['\" ++ dq ++ "]")
      EmptyString ["NRJS-"];
    rule "npm-access-token" "CRITICAL" "npm access token"
      ("['\" ++ dq ++ "](npm_(?i)[a-z0-9]{36})['\" ++ dq ++ "]")
      EmptyString ["npm_"];
    rule "planetscale-password" "MEDIUM" "PlanetScale password"
      "pscale_pw_(?i)[a-z0-9\-_\.]{43}"
      EmptyString ["pscale_pw_"];
    rule "planetscale-api-token" "MEDIUM" "PlanetScale API token"
      "pscale_tkn_(?i)[a-z0-9\-_\.]{43}"
      EmptyString ["pscale_tkn_"];
    rule "postman-api-token" "MEDIUM" "Postman API token"
      "PMAK-(?i)[a-f0-9]{24}\-[a-f0-9]{34}"
      EmptyString ["PMAK-"];
    rule "pulumi-api-token" "HIGH" "Pulumi API token"
      "pul-[a-f0-9]{40}"
      EmptyString ["pul-"];
    rule "rubygems-api-token" "MEDIUM" "Rubygem API token"
      "rubygems_[a-f0-9]{48}"
      EmptyString ["rubygems_"];
    rule "sendgrid-api-token" "MEDIUM" "SendGrid API token"
      "SG\.(?i)[a-z0-9_\-\.]{66}"
      EmptyString ["SG."];
    rule "sendinblue-api-token" "LOW" "Sendinblue API token"
      "xkeysib-[a-f0-9]{64}\-(?i)[a-z0-9]{16}"
      EmptyString ["xkeysib-"];
    rule "shippo-api-token" "LOW" "Shippo API token"
      "shippo_(live|test)_[a-f0-9]{40}"
      EmptyString ["shippo_live_"; "shippo_test_"];
    rule "linkedin-client-secret" "LOW" "LinkedIn Client secret"
      ("(?i)(?P<key>linkedin[a-z0-9_ .\-,]{0,25})(=|>|:=|\|\|:|<=|=>|:).{0,5}['\" ++ dq ++ "](?P<secret>[a-z]{16})['\" ++ dq ++ "]")
      "secret" ["linkedin"];
    rule "linkedin-client-id" "LOW" "LinkedIn Client ID"
      ("(?i)(?P<key>linkedin[a-z0-9_ .\-,]{0,25})(=|>|:=|\|\|:|<=|=>|:).{0,5}['\" ++ dq ++ "](?P<secret>[a-z0-9]{14})['\" ++ dq ++ "]")
      "secret" ["linkedin"];
    rule "twitch-api-token" "LOW" "Twitch API token"
      ("(?i)(?P<key>twitch[a-z0-9_ .\-,]{0,25})(=|>|:=|\|\|:|<=|=>|:).{0,5}['\" ++ dq ++ "](?P<secret>[a-z0-9]{30})['\" ++ dq ++ "]")
      "secret" ["twitch"];
    rule "typeform-api-token" "LOW" "Typeform API token"
      "(?i)(?P<key>typeform[a-z0-9_ .\-,]{0,25})(=|>|:=|\|\|:|<=|=>|:).{0,5}(?P<secret>tfp_[a-z0-9\-_\.=]{59})"
      "secret" ["typeform"];
    rule "dockerconfig-secret" "HIGH" "Dockerconfig secret exposed"
      "(?i)(\.(dockerconfigjson|dockercfg):\s*\|*\s*(?P<secret>(ey|ew)+[A-Za-z0-9\/\+=]+))"
      "secret" ["dockerc"]
  ].

(** [BuiltinRules], once initialised (see [BuiltinRules_compiled]). *)
Definition BuiltinRules : list Rule :=
  match BuiltinRules_init with
  | Ok rules => rules
  | Err _ => []
  end.

(** [for _, rule := range rules { maskedInput = rule.Regex.ReplaceAllString(maskedInput, "******") }] *)
Fixpoint rangeRules (rules : list Rule) (maskedInput : string) : string :=
  match rules with
  | [] => maskedInput
  | rule :: rules' =>
      rangeRules rules' (ReplaceAllString (Regex rule) maskedInput "******")
  end.

(** MaskSecrets takes an input string and masks any secrets found based on
    the provided rules *)
Definition MaskSecretsOnString (input : string) (rules : list Rule) : string :=
  let maskedInput := input in
  rangeRules rules maskedInput.

(** What the reading end of the pipe receives: the successive [pw.Write]
    payloads, and how the writing goroutine ended. *)
Inductive ending : Type :=
| Closed       (* the deferred [pw.Close()] ran: end of stream *)
| Panicked
| RunsOn.      (* the goroutine did not end within the fuel *)

Record PipeReader : Type := mkPipe {
  writes : list string;
  ending_ : ending
}.

Definition write (p : string) (pr : PipeReader) : PipeReader :=
  mkPipe (p :: writes pr) (ending_ pr).

(** [io.Copy(buf, maskedStream)] followed by [buf.String()]. *)
Definition ReadAll (pr : PipeReader) : string := gostr.concatAll (writes pr).

(** The overflow loop: [for { n, err := input.Read(buf) ... }] with
    [len(buf) = n].  The slice [buf] is the one the scanner was given; the
    scanner is not used again, so what the loop overwrites is of no
    consequence. *)
Fixpoint fallback (fuel : nat) (rules : list Rule) (n : nat) (input : bytes.Buffer)
  : PipeReader :=
  match fuel with
  | O => mkPipe [] RunsOn
  | S fuel' =>
      match bytes.Read input n with
      | (_, _, Some _) => mkPipe [] Closed    (* io.EOF: break *)
      | (input', line, None) =>
          let maskedString := MaskSecretsOnString line rules in
          write (maskedString ++ nl) (fallback fuel' rules n input')
      end
  end.

(** [for scanner.Scan() { ... }] and what follows it. *)
Fixpoint scanning (fuel : nat) (rules : list Rule) (n : nat) (scanner : bufio.Scanner)
  : PipeReader :=
  match fuel with
  | O => mkPipe [] RunsOn
  | S fuel' =>
      match bufio.Scan scanner with
      | bufio.ScanRunsOn => mkPipe [] RunsOn
      | bufio.ScanPanics => mkPipe [] Panicked
      | bufio.Scanned true scanner' =>
          let line := bufio.Text scanner' in
          if String.length line =? 0 then
            write nl (scanning fuel' rules n scanner')
          else
            let maskedString := MaskSecretsOnString line rules in
            write (maskedString ++ nl) (scanning fuel' rules n scanner')
      | bufio.Scanned false scanner' =>
          match bufio.Err scanner' with
          | Some err =>
              if io.eqb err io.ErrTooLong then
                (* the loop reads from [input], the buffer the scanner read from *)
                let input := bufio.r scanner' in
                fallback (S (String.length input)) rules n input
              else mkPipe [] Closed
          | None => mkPipe [] Closed
          end
      end
  end.

(** The goroutine of [MaskSecretsStream], for a buffer capacity [maxCapacity]
    and a rule set.  A successful [Scan] consumes at least one byte, which
    bounds the number of lines by the length of the input. *)
Definition producer (maxCapacity : nat) (rules : list Rule) (input : bytes.Buffer)
  : PipeReader :=
  let scanner := bufio.NewScanner input maxCapacity maxCapacity in
  scanning (S (String.length input)) rules maxCapacity scanner.

Definition maxCapacity : nat := 256 * 1024. (* 256KB *)

(** [MaskSecretsStream]: the reading end of the pipe and a nil error. *)
Definition MaskSecretsStream (input : bytes.Buffer) : PipeReader * option io.error :=
  (producer maxCapacity BuiltinRules input, None).

End masking.

(* ================================================================== *)
(** ** Vocabulary of the statements *)

Module spec.
Import regexp.

(** No line terminator occurs in the text. *)
Definition noLF (s : string) : Prop := gostr.indexByte s LF = None.

(** The input made of the given lines, each followed by a terminator. *)
Definition joinLines (lines : list string) : string :=
  gostr.concatAll (map (fun l => l ++ nl) lines).

(** The successive chunks of at most [n] bytes of a text. *)
Fixpoint chunks (fuel n : nat) (s : string) : list string :=
  match fuel with
  | O => []
  | S fuel' =>
      match s with
      | EmptyString => []
      | _ => gostr.take n s :: chunks fuel' n (gostr.drop n s)
      end
  end.

Definition chunksOf (n : nat) (s : string) : list string :=
  chunks (String.length s) n s.

(** [ws] written before what [pr] receives. *)
Definition prepend (ws : list string) (pr : masking.PipeReader) : masking.PipeReader :=
  masking.mkPipe (ws ++ masking.writes pr) (masking.ending_ pr).

(** No rule of the set has a match in the text. *)
Definition unmatched (rules : list masking.Rule) (text : string) : bool :=
  forallb (fun rule => isNone (execute (masking.Regex rule) (start text))) rules.

(** What the stream processor writes for one input line. *)
Definition emitLine (rules : list masking.Rule) (l : string) : string :=
  let line := bufio.dropCR l in
  if String.length line =? 0 then nl
  else masking.MaskSecretsOnString line rules ++ nl.

(** The masking state as the specification words it, without the shortcut
    for empty lines: every line goes through the masking function and is
    emitted with a terminator. *)
Fixpoint scanning_masking_every_line (fuel : nat) (rules : list masking.Rule) (n : nat)
  (scanner : bufio.Scanner) : masking.PipeReader :=
  match fuel with
  | O => masking.mkPipe [] masking.RunsOn
  | S fuel' =>
      match bufio.Scan scanner with
      | bufio.ScanRunsOn => masking.mkPipe [] masking.RunsOn
      | bufio.ScanPanics => masking.mkPipe [] masking.Panicked
      | bufio.Scanned true scanner' =>
          let line := bufio.Text scanner' in
          masking.write (masking.MaskSecretsOnString line rules ++ nl)
            (scanning_masking_every_line fuel' rules n scanner')
      | bufio.Scanned false scanner' =>
          match bufio.Err scanner' with
          | Some err =>
              if io.eqb err io.ErrTooLong then
                let input := bufio.r scanner' in
                masking.fallback (S (String.length input)) rules n input
              else masking.mkPipe [] masking.Closed
          | None => masking.mkPipe [] masking.Closed
          end
      end
  end.

Definition MaskSecretsStream_masking_every_line (input : bytes.Buffer)
  : masking.PipeReader * option io.error :=
  (scanning_masking_every_line (S (String.length input)) masking.BuiltinRules
     masking.maxCapacity
     (bufio.NewScanner input masking.maxCapacity masking.maxCapacity),
   None).

(** The text returned by [maskSecretKeys]. *)
Definition masked (o : yaml_regex.outcome) : string :=
  match o with
  | yaml_regex.Returns text _ => text
  | yaml_regex.Panics => EmptyString
  end.

(** The lines printed by [maskSecretKeys]. *)
Definition printed (o : yaml_regex.outcome) : list yaml_regex.Printed :=
  match o with
  | yaml_regex.Returns _ out => out
  | yaml_regex.Panics => []
  end.

(** A rule with the given pattern and no other information. *)
Definition ruleOf (pattern : string) : masking.Rule :=
  masking.mkRule EmptyString EmptyString EmptyString
    (match Compile pattern with
     | Ok re => re
     | Err _ => mkRegexp pattern OpNoMatch
     end)
    EmptyString [].

(** The rule with its secret group name removed. *)
Definition withoutGroup (rule : masking.Rule) : masking.Rule :=
  masking.mkRule (masking.ID rule) (masking.Severity rule) (masking.Title rule)
    (masking.Regex rule) EmptyString (masking.Keywords rule).

(** Two rules that differ in severity and keywords at most. *)
Definition sameButSeverityKeywords (a b : masking.Rule) : Prop :=
  masking.ID a = masking.ID b /\
  masking.Title a = masking.Title b /\
  masking.Regex a = masking.Regex b /\
  masking.SecretGroupName a = masking.SecretGroupName b.

(** Two loaded patterns that differ in the confidence label at most. *)
Definition sameButConfidence (a b : yaml_regex.Pattern) : Prop :=
  yaml_regex.Name (yaml_regex.Pattern_ a) = yaml_regex.Name (yaml_regex.Pattern_ b) /\
  yaml_regex.Regex (yaml_regex.Pattern_ a) = yaml_regex.Regex (yaml_regex.Pattern_ b).

(** The streaming round trip as the specification states it, for every
    input made of terminated lines. *)
Definition round_trip_for_all_lines : Prop :=
  forall lines : list string,
  Forall noLF lines ->
  exists outs : list string,
    List.length outs = List.length lines /\
    Forall noLF outs /\
    masking.ReadAll (fst (masking.MaskSecretsStream (joinLines lines))) = joinLines outs /\
    forall i l,
      nth_error lines i = Some l ->
      unmatched masking.BuiltinRules l = true ->
      nth_error outs i = Some l.

(** A position of the same text at or after [i]. *)
Definition reach (i i' : Input) : Prop :=
  pos i <= pos i' /\
  pos i + String.length (rest i) = pos i' + String.length (rest i').

(** A success of the matcher is a success of its continuation at a position
    reached from the start. *)
Definition forward (ms : matcher) : Prop :=
  forall i k e, ms i k = Some e -> exists i', reach i i' /\ k i' = Some e.

(** The scanner's invariant for a buffer of [B] bytes that cannot grow. *)
Record inv (B : nat) (s : bufio.Scanner) : Prop := mkInv {
  inv_len : bufio.bufLen s = B;
  inv_max : bufio.maxTokenSize s = B;
  inv_end : bufio.end_ s <= B;
  inv_err : bufio.err s = None \/
            (bufio.err s = Some io.EOF /\ bufio.r s = EmptyString /\ bufio.end_ s < B)
}.

(** The bytes the scanner has not yet delivered as tokens. *)
Definition pending (s : bufio.Scanner) : string := bufio.data s ++ bufio.r s.

(** Two scanners that differ in the token they hold at most. *)
Definition sameWindow (s s' : bufio.Scanner) : Prop :=
  bufio.r s' = bufio.r s /\ bufio.maxTokenSize s' = bufio.maxTokenSize s /\
  bufio.bufLen s' = bufio.bufLen s /\ bufio.start s' = bufio.start s /\
  bufio.data s' = bufio.data s /\ bufio.err s' = bufio.err s.

End spec.

(* ================================================================== *)
(** ** The two programs' entry points *)

Module reader.

(** [reader.ReadString(delim)] of a [bufio.Reader] over a file whose unread
    content is [rd] and whose reads do not fail: the bytes up to and
    including the first delimiter; when there is none, all the bytes left
    together with [io.EOF].  The third component is what is left unread. *)
Definition ReadString (rd : string) (delim : ascii)
  : string * option io.error * string :=
  match gostr.indexByte rd delim with
  | Some i => (gostr.take (i + 1) rd, None, gostr.drop (i + 1) rd)
  | None => (rd, Some io.EOF, EmptyString)
  end.

End reader.

Module yaml_main.
Import yaml_regex.

(** What [main] of yaml_regex.go writes on standard output, call by call.
    The elapsed time printed at the end is not part of the model. *)
Inductive stdout (error : Type) : Type :=
| ErrorReadingPatterns (err : error)   (* fmt.Printf("Error reading patterns: %v\n", err) *)
| FromMask (line : Printed)            (* printed inside maskSecretKeys *)
| MaskedString (maskedString : string) (* fmt.Println("Masked string:", maskedString) *)
| ExecutionTime.                       (* fmt.Printf("\nExecution time: %v\n", duration) *)
Arguments ErrorReadingPatterns {error} err.
Arguments FromMask {error} line.
Arguments MaskedString {error} maskedString.
Arguments ExecutionTime {error}.

(** How [main] ends. *)
Inductive exit (error : Type) : Type :=
| Return                 (* main returns *)
| Fatal (err : error)    (* log.Fatalf("Failed to open log file: %v", err) *)
| Panic                  (* a run-time panic inside maskSecretKeys *)
| RunsOn.                (* the loop did not end within the fuel *)
Arguments Return {error}.
Arguments Fatal {error} err.
Arguments Panic {error}.
Arguments RunsOn {error}.

(** The text [fmt.Println("Masked string:", maskedString)] writes. *)
Definition Println_MaskedString (maskedString : string) : string :=
  "Masked string: " ++ maskedString ++ nl.

Section Main.
(** The file system and the YAML decoder are outside the program. *)
Variable error : Type.
Variable ReadFile : string -> string + error.
Variable Unmarshal : string -> list Pattern + error.
(** [os.Open(name)]: the content of the file, or the error. *)
Variable Open : string -> string + error.

(** [for { line, err := reader.ReadString('\n'); if err != nil { break } ... }]:
    [rd] is what the reader has not delivered yet.  A line is handed to
    [maskSecretKeys] with its terminator. *)
Fixpoint readLoop (fuel : nat) (patterns : list Pattern) (rd : string)
  : list (stdout error) * exit error :=
  match fuel with
  | O => ([], RunsOn)
  | S fuel' =>
      match reader.ReadString rd LF with
      | (_, Some _, _) => ([], Return)     (* break *)
      | (line, None, rd') =>
          match maskSecretKeys line patterns with
          | Panics => ([], Panic)
          | Returns maskedString out =>
              let '(rest, e) := readLoop fuel' patterns rd' in
              ((map FromMask out ++ MaskedString maskedString :: rest)%list, e)
          end
      end
  end.

(** [main]: every turn of the loop consumes a byte at least, so the length
    of the file bounds the number of turns. *)
Definition main : list (stdout error) * exit error :=
  match readPatterns error ReadFile Unmarshal "patterns.yaml" with
  | inr err => ([ErrorReadingPatterns err], Return)
  | inl patterns =>
      match Open "synthetic_log_data.txt" with
      | inr err => ([], Fatal err)
      | inl file =>
          match readLoop (S (String.length file)) patterns file with
          | (out, Return) => ((out ++ [ExecutionTime])%list, Return)
          | (out, e) => (out, e)
          end
      end
  end.

End Main.

End yaml_main.

Module masking_main.
Import masking.

(** What [main] of the catalogue program writes on standard output.  The two
    durations printed at the end are not part of the model. *)
Inductive stdout (error : Type) : Type :=
| CommandExecutionFailed (err : error)  (* fmt.Printf("Command execution failed: %v\n", err) *)
| ErrorMaskingSecrets (err : io.error)  (* fmt.Printf("Error masking secrets: %v\n", err) *)
| Println (text : string)               (* fmt.Println(buf.String()) *)
| TimeTakenToRead                       (* fmt.Println("Time taken to read the file: ", ...) *)
| TimeTakenToMask.                      (* fmt.Println("Time taken to mask the secrets: ", ...) *)
Arguments CommandExecutionFailed {error} err.
Arguments ErrorMaskingSecrets {error} err.
Arguments Println {error} text.
Arguments TimeTakenToRead {error}.
Arguments TimeTakenToMask {error}.

Inductive exit : Type :=
| Return      (* main returns *)
| Exit1       (* os.Exit(1) *)
| Crash       (* the goroutine panicked *)
| Hang.       (* the goroutine did not end within the fuel *)

(** [main], given what [cmd.CombinedOutput()] returned.  A failure of the
    command is reported and the output it produced is masked all the same.
    [io.Copy] reads the pipe until the writing end is closed, which is the
    end of the stream, not an error. *)
Definition main {error : Type} (output : string) (err : option error)
  : list (stdout error) * exit :=
  let failed := match err with
                | Some e => [CommandExecutionFailed e]
                | None => []
                end in
  let outBuf : bytes.Buffer := output in
  match MaskSecretsStream outBuf with
  | (_, Some err) => ((failed ++ [ErrorMaskingSecrets err])%list, Exit1)
  | (maskedStream, None) =>
      match ending_ maskedStream with
      | Closed =>
          ((failed ++
            [Println (ReadAll maskedStream ++ nl); TimeTakenToRead; TimeTakenToMask])%list,
           Return)
      | Panicked => (failed, Crash)
      | masking.RunsOn => (failed, Hang)
      end
  end.

End masking_main.

(* ================================================================== *)
(** ** More vocabulary *)

Module vocab.
Import regexp.

Definition star : ascii := "*"%char.

(** [b] is [a] with some bytes replaced by the mask character. *)
Definition maskedFrom (a b : string) : Prop :=
  forall i, String.get i b = String.get i a \/ String.get i b = Some star.

(** Every byte of [b] is the mask character or a byte of [a]. *)
Definition bytesFrom (a b : string) : Prop :=
  forall c, In c (list_ascii_of_string b) ->
            c = star \/ In c (list_ascii_of_string a).

(** The lines [maskSecretKeys] prints for a pattern list: one for each
    pattern that does not compile, in the order of the patterns. *)
Definition diagnostics (patterns : list yaml_regex.Pattern) : list yaml_regex.Printed :=
  flat_map
    (fun pattern =>
       match Compile (yaml_regex.Regex (yaml_regex.Pattern_ pattern)) with
       | Err err =>
           [yaml_regex.ErrorCompilingRegex
              (yaml_regex.Regex (yaml_regex.Pattern_ pattern)) err]
       | Ok _ => []
       end)
    patterns.

(** No pattern of the list that compiles has a match in the text. *)
Definition unmatchedPatterns (patterns : list yaml_regex.Pattern) (text : string) : bool :=
  forallb
    (fun pattern =>
       match Compile (yaml_regex.Regex (yaml_regex.Pattern_ pattern)) with
       | Err _ => true
       | Ok re => isNone (execute re (start text))
       end)
    patterns.

(** The text ends with a line terminator. *)
Definition terminated (w : string) : Prop := exists o, w = o ++ nl.

(** The names of the capture groups of an expression. *)
Fixpoint groupNames (re : syntax.Regexp) : list string :=
  match re with
  | OpCapture _ name sub => name :: groupNames sub
  | OpStar _ sub | OpPlus _ sub | OpQuest _ sub | OpRepeat _ _ _ sub => groupNames sub
  | OpConcat a b | OpAlternate a b => groupNames a ++ groupNames b
  | _ => []
  end.

(** The rule's secret group, when it names one, is a group of its pattern. *)
Definition secretGroupExists (rule : masking.Rule) : bool :=
  String.eqb (masking.SecretGroupName rule) EmptyString
  || existsb (String.eqb (masking.SecretGroupName rule))
       (groupNames (prog (masking.Regex rule))).

(** What the loop of [main] of yaml_regex.go prints for one line of the log
    file: the lines [maskSecretKeys] prints, then the masked line, which
    includes the terminator. *)
Definition printedForLine {error : Type} (patterns : list yaml_regex.Pattern) (l : string)
  : list (yaml_main.stdout error) :=
  (map yaml_main.FromMask (diagnostics patterns)
   ++ [yaml_main.MaskedString
         (spec.masked (yaml_regex.maskSecretKeys (l ++ nl) patterns))])%list.

Fixpoint distinct (l : list string) : bool :=
  match l with
  | [] => true
  | x :: l' => negb (existsb (String.eqb x) l') && distinct l'
  end.

End vocab.

(* ================================================================== *)
(** * Proofs *)

(** ** Strings *)

Module strfacts.
Import gostr.

Lemma length_append (a b : string) :
  String.length (a ++ b) = String.length a + String.length b.
Proof. induction a as [|c a IH]; simpl; [reflexivity | now rewrite IH]. Qed.

Lemma append_nil_r (a : string) : a ++ EmptyString = a.
Proof. induction a as [|c a IH]; simpl; [reflexivity | now rewrite IH]. Qed.

Lemma append_assoc (a b c : string) : (a ++ b) ++ c = a ++ (b ++ c).
Proof. induction a as [|x a IH]; simpl; [reflexivity | now rewrite IH]. Qed.

Lemma length_take (n : nat) (s : string) :
  String.length (take n s) = Nat.min n (String.length s).
Proof.
  revert s; induction n as [|n IH]; intros [|c s]; simpl; try reflexivity.
  now rewrite IH.
Qed.

Lemma length_drop (n : nat) (s : string) :
  String.length (drop n s) = String.length s - n.
Proof.
  revert s; induction n as [|n IH]; intros [|c s]; simpl; try reflexivity.
  apply IH.
Qed.

Lemma take_drop (n : nat) (s : string) : take n s ++ drop n s = s.
Proof.
  revert s; induction n as [|n IH]; intros [|c s]; simpl; try reflexivity.
  now rewrite IH.
Qed.

Lemma length_repeat (c : ascii) (n : nat) : String.length (repeat c n) = n.
Proof. induction n as [|n IH]; simpl; [reflexivity | now rewrite IH]. Qed.

Lemma take_app (a b : string) : take (String.length a) (a ++ b) = a.
Proof. induction a as [|c a IH]; simpl; [now destruct b | now rewrite IH]. Qed.

Lemma drop_app (a b : string) : drop (String.length a) (a ++ b) = b.
Proof. induction a as [|c a IH]; simpl; [reflexivity | exact IH]. Qed.

Lemma drop_0 (s : string) : drop 0 s = s.
Proof. reflexivity. Qed.

Lemma take_all (n : nat) (s : string) : String.length s <= n -> take n s = s.
Proof.
  revert s; induction n as [|n IH]; intros [|c s] H; simpl in *; try reflexivity.
  - lia.
  - rewrite IH; [reflexivity | lia].
Qed.

Lemma drop_all (n : nat) (s : string) : String.length s <= n -> drop n s = EmptyString.
Proof.
  revert s; induction n as [|n IH]; intros [|c s] H; simpl in *; try reflexivity.
  - lia.
  - apply IH; lia.
Qed.

Lemma length_0 (s : string) : String.length s = 0 -> s = EmptyString.
Proof. destruct s; [reflexivity | discriminate]. Qed.

End strfacts.

(** ** The matcher only moves forward, inside the text *)

Module matchfacts.
Import utf8 regexp spec strfacts.

Lemma decode_width (s : string) :
  s <> EmptyString ->
  1 <= snd (DecodeRuneInString s) <= String.length s.
Proof.
  intros Hs. destruct s as [|c0 t]; [congruence|]. clear Hs.
  unfold DecodeRuneInString.
  destruct (N_of_ascii c0 <? 128)%N; [simpl; lia|].
  repeat match goal with
  | |- context [if ?c then _ else _] => destruct c eqn:?
  end; simpl;
  repeat match goal with
  | |- context [match ?x with _ => _ end] => destruct x eqn:?; simpl
  end; simpl in *; try lia.
Qed.


Lemma reach_refl (i : Input) : reach i i.
Proof. split; reflexivity. Qed.

Lemma reach_trans (a b c : Input) : reach a b -> reach b c -> reach a c.
Proof. unfold reach; intros [? ?] [? ?]; split; lia. Qed.

Lemma step_reach (i i' : Input) (c : rune) :
  step i = Some (c, i') -> pos i < pos i' /\ reach i i'.
Proof.
  unfold step, reach. destruct (rest i) as [|a t] eqn:E; [discriminate|].
  pose proof (decode_width (String a t) ltac:(discriminate)) as W.
  destruct (DecodeRuneInString (String a t)) as [r w]; simpl in W.
  intros H; injection H as _ <-; cbn [pos rest].
  rewrite length_drop. cbn [String.length] in *. lia.
Qed.

Lemma one_forward (ok : rune -> bool) : forward (one ok).
Proof.
  intros i k e; unfold one.
  destruct (step i) as [[c i']|] eqn:S; [|discriminate].
  destruct (ok c); [|discriminate].
  intros H; exists i'; split; [apply (step_reach _ _ _ S) | exact H].
Qed.

Lemma star_forward (ms : matcher) (ng : bool) (k : Input -> option Input) :
  forward ms ->
  forall fuel i e, star ms ng k fuel i = Some e ->
  exists i', reach i i' /\ k i' = Some e.
Proof.
  intros Hms fuel; induction fuel as [|fuel IH]; intros i e H; simpl in H.
  - exists i; split; [apply reach_refl | exact H].
  - assert (Hit : forall e',
              ms i (fun i' => if pos i <? pos i' then star ms ng k fuel i' else None)
              = Some e' -> exists i', reach i i' /\ k i' = Some e').
    { intros e' Hi. apply Hms in Hi as (i1 & R1 & Hi).
      destruct (pos i <? pos i1); [|discriminate].
      apply IH in Hi as (i2 & R2 & Hi).
      exists i2; split; [eapply reach_trans; eassumption | exact Hi]. }
    assert (Hk : forall e', k i = Some e' -> exists i', reach i i' /\ k i' = Some e').
    { intros e' Hi; exists i; split; [apply reach_refl | exact Hi]. }
    destruct ng.
    + destruct (k i) eqn:K; [apply Hk; congruence | apply Hit; exact H].
    + destruct (ms i _) eqn:M in H; [apply Hit; congruence | apply Hk; exact H].
Qed.

Lemma upto_forward (ms : matcher) (ng : bool) (k : Input -> option Input) :
  forward ms ->
  forall n i e, upto ms ng k n i = Some e ->
  exists i', reach i i' /\ k i' = Some e.
Proof.
  intros Hms n; induction n as [|n IH]; intros i e H; simpl in H.
  - exists i; split; [apply reach_refl | exact H].
  - assert (Hit : forall e', ms i (upto ms ng k n) = Some e' ->
                  exists i', reach i i' /\ k i' = Some e').
    { intros e' Hi. apply Hms in Hi as (i1 & R1 & Hi).
      apply IH in Hi as (i2 & R2 & Hi).
      exists i2; split; [eapply reach_trans; eassumption | exact Hi]. }
    assert (Hk : forall e', k i = Some e' -> exists i', reach i i' /\ k i' = Some e').
    { intros e' Hi; exists i; split; [apply reach_refl | exact Hi]. }
    destruct ng.
    + destruct (k i) eqn:K; [apply Hk; congruence | apply Hit; exact H].
    + destruct (ms i _) eqn:M in H; [apply Hit; congruence | apply Hk; exact H].
Qed.

Lemma times_forward (ms : matcher) (k : Input -> option Input) :
  forward ms ->
  forall n i e, times ms k n i = Some e ->
  exists i', reach i i' /\ k i' = Some e.
Proof.
  intros Hms n; induction n as [|n IH]; intros i e H; simpl in H.
  - exists i; split; [apply reach_refl | exact H].
  - apply Hms in H as (i1 & R1 & H). apply IH in H as (i2 & R2 & H).
    exists i2; split; [eapply reach_trans; eassumption | exact H].
Qed.

Ltac here i H := exists i; split; [apply reach_refl | exact H].

Lemma m_forward (re : syntax.Regexp) : forward (m re).
Proof.
  induction re as
    [ | | fold r | cl | | | | | | | | | cap name sub IH | ng sub IH | ng sub IH
    | ng sub IH | ng mn mx sub IH | a IHa b IHb | a IHa b IHb ];
    intros i k e H; cbn [m] in H;
    try discriminate;
    try (apply one_forward in H; exact H);
    try (match type of H with (if ?c then _ else _) = _ => destruct c end;
         try discriminate; here i H).
  - here i H.
  - apply IH; exact H.
  - eapply star_forward; eassumption.
  - apply IH in H as (i1 & R1 & H).
    eapply star_forward in H as (i2 & R2 & H); [|exact IH].
    exists i2; split; [eapply reach_trans; eassumption | exact H].
  - destruct ng.
    + destruct (k i) eqn:K; [exists i; split; [apply reach_refl | congruence] | apply IH; exact H].
    + destruct (m sub i k) eqn:M; [apply IH; congruence | here i H].
  - eapply times_forward in H as (i1 & R1 & H); [|exact IH].
    destruct mx as [mx|].
    + eapply upto_forward in H as (i2 & R2 & H); [|exact IH].
      exists i2; split; [eapply reach_trans; eassumption | exact H].
    + eapply star_forward in H as (i2 & R2 & H); [|exact IH].
      exists i2; split; [eapply reach_trans; eassumption | exact H].
  - apply IHa in H as (i1 & R1 & H). apply IHb in H as (i2 & R2 & H).
    exists i2; split; [eapply reach_trans; eassumption | exact H].
  - destruct (m a i k) eqn:M; [apply IHa; congruence | apply IHb; exact H].
Qed.

Lemma doExecute_reach (re : syntax.Regexp) (fuel : nat) (i a b : Input) :
  doExecute fuel re i = Some (a, b) -> reach i a /\ reach a b.
Proof.
  revert i; induction fuel as [|fuel IH]; intros i H; simpl in H.
  - destruct (m re i Some) eqn:M; [|discriminate].
    injection H as <- <-. apply m_forward in M as (i' & R & E).
    injection E as <-. split; [apply reach_refl | exact R].
  - destruct (m re i Some) eqn:M.
    + injection H as <- <-. apply m_forward in M as (i' & R & E).
      injection E as <-. split; [apply reach_refl | exact R].
    + destruct (step i) as [[c i']|] eqn:S; [|discriminate].
      apply IH in H as [R1 R2]. apply step_reach in S as [_ S].
      split; [eapply reach_trans; eassumption | exact R2].
Qed.

Lemma execute_reach (re : Regexp) (i a b : Input) :
  execute re i = Some (a, b) -> reach i a /\ reach a b.
Proof. apply doExecute_reach. Qed.

(** Every span delivered by [allMatches] lies inside the text. *)
Lemma allMatches_in_range (re : Regexp) (total : nat) :
  forall fuel i cnt n prevMatchEnd,
  pos i + String.length (rest i) = total ->
  Forall (fun '(a0, a1) => a0 <= a1 <= total)
    (allMatches fuel re i cnt n prevMatchEnd).
Proof.
  induction fuel as [|fuel IH]; intros i cnt n pe Hi; simpl; [constructor|].
  destruct (cnt <? n)%Z; [|constructor].
  destruct (execute re i) as [[a b]|] eqn:E; [|constructor].
  apply execute_reach in E as [[Ra1 Ra2] [Rb1 Rb2]].
  assert (Hab : pos a <= pos b <= total) by lia.
  destruct (pos b =? pos i).
  - destruct (step i) as [[c i']|] eqn:S.
    + apply step_reach in S as [_ [S1 S2]].
      apply Forall_app; split.
      * destruct (negb _); repeat constructor; lia.
      * apply IH; lia.
    + destruct (negb _); repeat constructor; lia.
  - constructor; [lia | apply IH; lia].
Qed.

Lemma FindAllStringIndex_in_range (re : Regexp) (s : string) (n : Z) :
  Forall (fun '(a0, a1) => a0 <= a1 <= String.length s)
    (FindAllStringIndex re s n).
Proof. unfold FindAllStringIndex. apply allMatches_in_range. reflexivity. Qed.

(** A text in which the expression has no match is returned as it is. *)
Lemma ReplaceAllString_no_match (re : Regexp) (src repl : string) :
  execute re (start src) = None -> ReplaceAllString re src repl = src.
Proof. unfold ReplaceAllString; simpl; intros ->. reflexivity. Qed.

End matchfacts.

(** ** yaml_regex.go: no panic, same length *)

Module yamlfacts.
Import regexp yaml_regex strfacts matchfacts.

Lemma maskMatch_ok (input : string) (m0 m1 : nat) :
  m0 <= m1 <= String.length input ->
  exists input',
    maskMatch input (m0, m1) = Some input' /\
    String.length input' = String.length input.
Proof.
  intros H. unfold maskMatch.
  destruct (Nat.ltb_spec m1 m0); [lia|].
  destruct (Nat.ltb_spec (String.length input) m0); [lia|].
  destruct (Nat.ltb_spec (String.length input) m1); [lia|].
  eexists; split; [reflexivity|].
  rewrite !length_append, length_take, length_repeat, length_drop. lia.
Qed.

Lemma rangeMatches_ok (matches : list (nat * nat)) :
  forall input,
  Forall (fun '(a0, a1) => a0 <= a1 <= String.length input) matches ->
  exists input',
    rangeMatches matches input = Some input' /\
    String.length input' = String.length input.
Proof.
  induction matches as [|[m0 m1] matches IH]; intros input H; cbn [rangeMatches].
  - exists input; split; reflexivity.
  - inversion H as [|? ? H1 H2]; subst.
    destruct (maskMatch_ok input m0 m1 H1) as (input1 & E1 & L1).
    rewrite E1.
    destruct (IH input1) as (input2 & E2 & L2).
    { rewrite L1; exact H2. }
    exists input2; split; [exact E2 | congruence].
Qed.

Lemma rangePatterns_ok (patterns : list Pattern) :
  forall input stdout,
  exists masked printed,
    rangePatterns patterns input stdout = Returns masked (stdout ++ printed) /\
    String.length masked = String.length input.
Proof.
  induction patterns as [|p patterns IH]; intros input stdout; cbn [rangePatterns app].
  - exists input, []; rewrite app_nil_r; split; reflexivity.
  - destruct (Compile (Regex (Pattern_ p))) as [re|err].
    + destruct (rangeMatches_ok (FindAllStringIndex re input (-1)) input
                  (FindAllStringIndex_in_range re input (-1)))
        as (input1 & E1 & L1).
      rewrite E1.
      destruct (IH input1 stdout) as (masked & printed & E & L).
      exists masked, printed; split; [exact E | congruence].
    + destruct (IH input (stdout ++ [ErrorCompilingRegex (Regex (Pattern_ p)) err])%list)
        as (masked & printed & E & L).
      exists masked, (ErrorCompilingRegex (Regex (Pattern_ p)) err :: printed).
      split; [|exact L].
      rewrite E, <- app_assoc. reflexivity.
Qed.

(** Processing [ps1 ++ ps2] is processing [ps1], then [ps2] on its result. *)
Lemma rangePatterns_app (ps1 ps2 : list Pattern) :
  forall input stdout,
  rangePatterns (ps1 ++ ps2) input stdout =
  match rangePatterns ps1 input stdout with
  | Returns masked printed => rangePatterns ps2 masked printed
  | Panics => Panics
  end.
Proof.
  induction ps1 as [|p ps1 IH]; intros input stdout; cbn [rangePatterns app]; [reflexivity|].
  destruct (Compile (Regex (Pattern_ p))); [|apply IH].
  destruct (rangeMatches _ input); [apply IH | reflexivity].
Qed.

(** What is already printed does not influence the masking. *)
Lemma rangePatterns_stdout (ps : list Pattern) :
  forall input stdout masked printed,
  rangePatterns ps input [] = Returns masked printed ->
  rangePatterns ps input stdout = Returns masked (stdout ++ printed).
Proof.
  induction ps as [|p ps IH]; intros input stdout masked printed; cbn [rangePatterns].
  - intros H; injection H as <- <-. now rewrite app_nil_r.
  - destruct (Compile (Regex (Pattern_ p))) as [re|err].
    + destruct (rangeMatches _ input); [apply IH | discriminate].
    + intros H.
      destruct (rangePatterns_ok ps input []) as (m1 & p1 & E1 & _).
      cbn [app] in E1.
      rewrite (IH _ _ _ _ E1) in H. injection H as <- <-.
      rewrite (IH _ _ _ _ E1). now rewrite <- app_assoc.
Qed.

End yamlfacts.

Module scanfacts.
Import gostr strfacts bufio spec.

Lemma indexByte_app (a b : string) (c : ascii) :
  indexByte (a ++ b) c =
  match indexByte a c with
  | Some j => Some j
  | None => option_map (Nat.add (String.length a)) (indexByte b c)
  end.
Proof.
  induction a as [|x a IH]; simpl.
  - destruct (indexByte b c); reflexivity.
  - destruct (Ascii.eqb x c); [reflexivity|].
    rewrite IH. destruct (indexByte a c); [reflexivity|].
    destruct (indexByte b c); reflexivity.
Qed.

Lemma indexByte_lt (s : string) (c : ascii) (j : nat) :
  indexByte s c = Some j -> j < String.length s.
Proof.
  revert j; induction s as [|x s IH]; intros j; simpl; [discriminate|].
  destruct (Ascii.eqb x c).
  - intros H; injection H as <-; lia.
  - destruct (indexByte s c) as [j'|]; [|discriminate].
    intros H; injection H as <-. specialize (IH j' eq_refl). lia.
Qed.

Lemma indexByte_line (l t : string) :
  noLF l -> indexByte (l ++ nl ++ t) LF = Some (String.length l).
Proof.
  intros H. rewrite indexByte_app, H. simpl.
  f_equal. lia.
Qed.

Lemma noLF_app (a b : string) : noLF (a ++ b) <-> noLF a /\ noLF b.
Proof.
  unfold noLF. rewrite indexByte_app.
  destruct (indexByte a LF); [split; [discriminate | intros [? _]; discriminate]|].
  destruct (indexByte b LF); simpl; split; try discriminate; auto.
  intros [_ ?]; discriminate.
Qed.

Lemma noLF_take (n : nat) (s : string) : noLF s -> noLF (take n s).
Proof.
  intros H. rewrite <- (take_drop n s) in H. apply noLF_app in H. tauto.
Qed.

Lemma noLF_drop (n : nat) (s : string) : noLF s -> noLF (drop n s).
Proof.
  intros H. rewrite <- (take_drop n s) in H. apply noLF_app in H. tauto.
Qed.

Lemma app_inv_length (a b c d : string) :
  a ++ b = c ++ d -> String.length a = String.length c -> a = c /\ b = d.
Proof.
  revert c; induction a as [|x a IH]; intros [|y c]; simpl; try discriminate.
  - auto.
  - intros H L. injection H as -> H. injection L as L.
    destruct (IH _ H L) as [-> ->]. auto.
Qed.

Lemma app_prefix (a b c d : string) :
  a ++ b = c ++ d -> String.length a <= String.length c ->
  exists e, c = a ++ e /\ b = e ++ d.
Proof.
  revert c; induction a as [|x a IH]; intros c; simpl.
  - intros -> _. exists c; auto.
  - destruct c as [|y c]; simpl; [lia|].
    intros H L. injection H as -> H.
    destruct (IH c H ltac:(lia)) as (e & -> & ->). exists e; auto.
Qed.

Lemma length_pos (s : string) : s <> EmptyString -> 0 < String.length s.
Proof. destruct s; [congruence | simpl; lia]. Qed.

(** *** The steps of a turn of the loop of [Scan] *)

Lemma sameWindow_inv (B : nat) (s s' : Scanner) :
  sameWindow s s' -> inv B s -> inv B s'.
Proof.
  intros (R & M & L & S & D & E) [Hl Hm He Herr].
  constructor; unfold end_ in *; rewrite ?L, ?M, ?S, ?D, ?E, ?R; assumption.
Qed.

Lemma trySplit_line (s : Scanner) (j : nat) :
  indexByte (data s) LF = Some j ->
  trySplit s =
  inl (Scanned true
         (mkScanner (r s) (maxTokenSize s) (Some (dropCR (take j (data s))))
            (bufLen s) (start s + (j + 1)) (drop (j + 1) (data s)) (err s) 0)).
Proof.
  intros Hj. pose proof (indexByte_lt _ _ _ Hj) as Hlt.
  unfold trySplit, end_, ScanLines.
  replace (start s <? start s + String.length (data s)) with true
    by (symmetry; apply Nat.ltb_lt; lia).
  replace (String.length (data s) =? 0) with false
    by (symmetry; apply Nat.eqb_neq; lia).
  rewrite andb_false_r, Hj. cbv beta iota zeta.
  replace (String.length (data s) <? j + 1) with false
    by (symmetry; apply Nat.ltb_ge; lia).
  replace (0 <? j + 1) with true by (symmetry; apply Nat.ltb_lt; lia).
  cbn [err r maxTokenSize bufLen start data]. rewrite orb_true_r. reflexivity.
Qed.

Lemma trySplit_final (s : Scanner) :
  err s = Some io.EOF -> noLF (data s) -> data s <> EmptyString ->
  trySplit s =
  inl (Scanned true
         (mkScanner (r s) (maxTokenSize s) (Some (dropCR (data s)))
            (bufLen s) (start s + String.length (data s)) EmptyString (err s) 0)).
Proof.
  intros He Hno Hne. apply length_pos in Hne.
  unfold trySplit, end_, ScanLines. rewrite He. cbn [isSome].
  rewrite orb_true_r.
  replace (String.length (data s) =? 0) with false
    by (symmetry; apply Nat.eqb_neq; lia).
  cbn [andb]. rewrite Hno. cbv beta iota zeta.
  rewrite Nat.ltb_irrefl.
  replace (0 <? String.length (data s)) with true
    by (symmetry; apply Nat.ltb_lt; lia).
  cbn [err r maxTokenSize bufLen start data isSome negb orb].
  rewrite drop_all by lia. reflexivity.
Qed.

Lemma trySplit_done (s : Scanner) :
  err s = Some io.EOF -> data s = EmptyString ->
  exists s', trySplit s = inr s' /\ err s' = Some io.EOF.
Proof.
  intros He Hd. unfold trySplit, end_, ScanLines.
  rewrite He, Hd. cbn [isSome String.length]. rewrite orb_true_r.
  cbn. eexists; split; reflexivity.
Qed.

Lemma trySplit_none (s : Scanner) :
  err s = None -> noLF (data s) ->
  exists s', trySplit s = inr s' /\ sameWindow s s'.
Proof.
  intros He Hno. unfold trySplit, end_, ScanLines.
  rewrite He. cbn [isSome andb]. rewrite orb_false_r, Hno.
  destruct (start s <? start s + String.length (data s)).
  - cbv beta iota zeta.
    replace (String.length (data s) <? 0) with false
      by (symmetry; apply Nat.ltb_ge; lia).
    eexists; split; [reflexivity|].
    unfold sameWindow; cbn [r maxTokenSize bufLen start data err].
    rewrite Nat.add_0_r, He. repeat split; reflexivity.
  - exists s; split; [reflexivity|]. unfold sameWindow; auto 10.
Qed.

Lemma shift_window (s : Scanner) :
  r (shift s) = r s /\ maxTokenSize (shift s) = maxTokenSize s /\
  bufLen (shift s) = bufLen s /\ data (shift s) = data s /\
  err (shift s) = err s /\ start (shift s) <= start s.
Proof.
  unfold shift. destruct (_ && _); cbn; repeat split; auto; lia.
Qed.

(** After the shift a window shorter than the buffer leaves room. *)
Lemma shift_room (B : nat) (s : Scanner) :
  bufLen s = B -> String.length (data s) < B ->
  end_ (shift s) <> B.
Proof.
  intros Hl Hd. unfold shift, end_.
  destruct (Nat.ltb_spec 0 (start s)); cbn [andb].
  - destruct (Nat.eqb_spec (start s + String.length (data s)) (bufLen s)); cbn [orb].
    + cbn [start data]. lia.
    + destruct (_ <? _); cbn [start data]; lia.
  - lia.
Qed.

Lemma shift_at_0 (s : Scanner) : start s = 0 -> shift s = s.
Proof. intros H. unfold shift. rewrite H. reflexivity. Qed.

Lemma makeRoom_room (s : Scanner) :
  end_ s <> bufLen s -> makeRoom s = inr s.
Proof.
  intros H. unfold makeRoom.
  destruct (Nat.eqb_spec (end_ s) (bufLen s)); [contradiction | reflexivity].
Qed.

Lemma makeRoom_full (s : Scanner) :
  end_ s = bufLen s -> maxTokenSize s <= bufLen s ->
  makeRoom s = inl (Scanned false (setErr s io.ErrTooLong)).
Proof.
  intros H M. unfold makeRoom. rewrite H, Nat.eqb_refl.
  replace (maxTokenSize s <=? bufLen s) with true
    by (symmetry; apply Nat.leb_le; exact M).
  reflexivity.
Qed.

Lemma readMore_data (budget : nat) (s : Scanner) :
  r s <> EmptyString -> end_ s < bufLen s ->
  readMore budget s =
  mkScanner (drop (bufLen s - end_ s) (r s)) (maxTokenSize s) (token s) (bufLen s)
    (start s) (data s ++ take (bufLen s - end_ s) (r s)) (err s) 0.
Proof.
  intros Hr Hroom. apply length_pos in Hr.
  destruct budget; unfold readMore, bytes.Read;
    (destruct (r s) as [|c rd] eqn:E; [simpl in Hr; lia|]);
    cbn [r maxTokenSize token bufLen start data err empties];
    (replace (0 <? String.length (take (bufLen s - end_ s) (String c rd))) with true;
     [reflexivity|]);
    symmetry; apply Nat.ltb_lt; rewrite length_take; simpl String.length; lia.
Qed.

Lemma readMore_eof (budget : nat) (s : Scanner) :
  r s = EmptyString -> end_ s < bufLen s -> err s = None ->
  readMore budget s =
  mkScanner EmptyString (maxTokenSize s) (token s) (bufLen s) (start s) (data s)
    (Some io.EOF) (empties s).
Proof.
  intros Hr Hroom He.
  destruct budget; unfold readMore, bytes.Read; rewrite Hr;
    (replace (bufLen s - end_ s =? 0) with false
       by (symmetry; apply Nat.eqb_neq; lia));
    unfold setErr; cbn [r maxTokenSize token bufLen start data err empties];
    rewrite He, append_nil_r; reflexivity.
Qed.

(** *** Whole turns *)

Lemma turn_line (B : nat) (s : Scanner) (j fuel : nat) :
  inv B s -> indexByte (data s) LF = Some j ->
  exists s',
    scanLoop (S fuel) s = Scanned true s' /\ inv B s' /\
    token s' = Some (dropCR (take j (data s))) /\
    data s' = drop (j + 1) (data s) /\ r s' = r s /\ err s' = err s.
Proof.
  intros [Hl Hm He Herr] Hj. pose proof (indexByte_lt _ _ _ Hj) as Hlt.
  cbn [scanLoop]. rewrite (trySplit_line s j Hj).
  eexists; split; [reflexivity|]. cbn [token data r err].
  split; [|auto].
  constructor; cbn [bufLen maxTokenSize err r]; auto;
    unfold end_ in *; cbn [start data]; rewrite length_drop; try lia.
  destruct Herr as [?|(? & ? & ?)]; [auto | right; repeat split; auto; lia].
Qed.

Lemma turn_final (B : nat) (s : Scanner) (fuel : nat) :
  inv B s -> err s = Some io.EOF -> noLF (data s) -> data s <> EmptyString ->
  exists s',
    scanLoop (S fuel) s = Scanned true s' /\ inv B s' /\
    token s' = Some (dropCR (data s)) /\
    data s' = EmptyString /\ r s' = r s /\ err s' = Some io.EOF.
Proof.
  intros [Hl Hm He Herr] Heof Hno Hne.
  cbn [scanLoop]. rewrite (trySplit_final s Heof Hno Hne).
  eexists; split; [reflexivity|]. cbn [token data r err].
  split; [|auto].
  constructor; cbn [bufLen maxTokenSize err r]; auto;
    unfold end_ in *; cbn [start data String.length]; try lia.
  destruct Herr as [?|(? & ? & ?)]; [congruence | right; repeat split; auto; lia].
Qed.

Lemma turn_done (B : nat) (s : Scanner) (fuel : nat) :
  inv B s -> err s = Some io.EOF -> data s = EmptyString ->
  exists s', scanLoop (S fuel) s = Scanned false s' /\ Err s' = None.
Proof.
  intros _ Heof Hd.
  destruct (trySplit_done s Heof Hd) as (s1 & E & E1).
  cbn [scanLoop]. rewrite E, E1. cbn [isSome].
  eexists; split; [reflexivity|]. unfold Err, shutDown; cbn [err]. now rewrite E1.
Qed.

Lemma turn_full (B : nat) (s : Scanner) (fuel : nat) :
  inv B s -> 0 < B -> err s = None -> noLF (data s) ->
  String.length (data s) = B ->
  exists s',
    scanLoop (S fuel) s = Scanned false s' /\
    err s' = Some io.ErrTooLong /\ r s' = r s.
Proof.
  intros Hinv HB Hnone Hno Hfull.
  destruct (trySplit_none s Hnone Hno) as (s1 & E & W).
  pose proof (sameWindow_inv B s s1 W Hinv) as [Hl Hm He Herr].
  destruct W as (R & _ & _ & _ & D & Er).
  cbn [scanLoop]. rewrite E, Er, Hnone. cbn [isSome].
  unfold end_ in He. rewrite D in He.
  rewrite shift_at_0 by lia.
  rewrite makeRoom_full; [|unfold end_; rewrite D; lia | lia].
  eexists; split; [reflexivity|].
  unfold setErr. rewrite Er, Hnone. cbn [err r]. auto.
Qed.

Lemma turn_more (B : nat) (s : Scanner) (fuel : nat) :
  inv B s -> 0 < B -> err s = None -> noLF (data s) ->
  String.length (data s) < B -> r s <> EmptyString ->
  exists s',
    scanLoop (S fuel) s = scanLoop fuel s' /\ inv B s' /\ err s' = None /\
    pending s' = pending s /\ String.length (r s') < String.length (r s).
Proof.
  intros Hinv HB Hnone Hno Hlt Hr.
  destruct (trySplit_none s Hnone Hno) as (s1 & E & W).
  pose proof (sameWindow_inv B s s1 W Hinv) as [Hl Hm He Herr].
  destruct W as (R & _ & _ & _ & D & Er).
  destruct (shift_window s1) as (R2 & M2 & L2 & D2 & E2 & S2).
  assert (Hroom : end_ (shift s1) < bufLen (shift s1)).
  { pose proof (shift_room B s1 Hl ltac:(rewrite D; exact Hlt)) as Hn.
    rewrite L2, Hl. unfold end_ in *. rewrite D2 in *. lia. }
  cbn [scanLoop]. rewrite E, Er, Hnone. cbn [isSome].
  rewrite makeRoom_room by lia.
  rewrite readMore_data; [|rewrite R2, R; exact Hr | exact Hroom].
  apply length_pos in Hr.
  eexists; split; [reflexivity|].
  split; [|split; [|split]].
  - constructor; cbn [bufLen maxTokenSize err]; try congruence.
    + unfold end_ in *; cbn [start data]. rewrite length_append, length_take. lia.
    + left; congruence.
  - cbn [err]. congruence.
  - unfold pending; cbn [data r]. rewrite append_assoc, take_drop. congruence.
  - cbn [r]. rewrite length_drop, R2, R. unfold end_ in *. lia.
Qed.

Lemma turn_eof (B : nat) (s : Scanner) (fuel : nat) :
  inv B s -> 0 < B -> err s = None -> noLF (data s) ->
  String.length (data s) < B -> r s = EmptyString ->
  exists s',
    scanLoop (S fuel) s = scanLoop fuel s' /\ inv B s' /\
    err s' = Some io.EOF /\ data s' = data s /\ r s' = EmptyString.
Proof.
  intros Hinv HB Hnone Hno Hlt Hr.
  destruct (trySplit_none s Hnone Hno) as (s1 & E & W).
  pose proof (sameWindow_inv B s s1 W Hinv) as [Hl Hm He Herr].
  destruct W as (R & _ & _ & _ & D & Er).
  destruct (shift_window s1) as (R2 & M2 & L2 & D2 & E2 & S2).
  assert (Hroom : end_ (shift s1) < bufLen (shift s1)).
  { pose proof (shift_room B s1 Hl ltac:(rewrite D; exact Hlt)) as Hn.
    rewrite L2, Hl. unfold end_ in *. rewrite D2 in *. lia. }
  cbn [scanLoop]. rewrite E, Er, Hnone. cbn [isSome].
  rewrite makeRoom_room by lia.
  rewrite readMore_eof; [|congruence | exact Hroom | congruence].
  eexists; split; [reflexivity|].
  split; [|cbn [err data r]; repeat split; congruence].
  constructor; cbn [bufLen maxTokenSize err r]; try congruence.
  - unfold end_ in *; cbn [start data]. lia.
  - right; repeat split. unfold end_ in *; cbn [start data]. lia.
Qed.

Lemma noLF_nl (t : string) : ~ noLF (nl ++ t).
Proof. unfold noLF; simpl. discriminate. Qed.

(** A pending line that fits the buffer is delivered, without its
    terminator and without a trailing carriage return. *)
Lemma scan_line (B : nat) (l t : string) :
  0 < B -> noLF l -> String.length l < B ->
  forall fuel s,
  inv B s -> pending s = l ++ nl ++ t -> String.length (r s) < fuel ->
  exists s',
    scanLoop fuel s = Scanned true s' /\ inv B s' /\
    token s' = Some (dropCR l) /\ pending s' = t.
Proof.
  intros HB Hl Hlen fuel; induction fuel as [|fuel IH]; intros s Hinv Hp Hf; [lia|].
  unfold pending in Hp.
  destruct (indexByte (data s) LF) as [j|] eqn:Hj.
  - (* the terminator is in the window *)
    assert (j = String.length l) as ->.
    { pose proof (indexByte_line l t Hl) as H1.
      rewrite <- Hp, indexByte_app, Hj in H1. congruence. }
    pose proof (indexByte_lt _ _ _ Hj) as Hlt.
    destruct (app_prefix (l ++ nl) t (data s) (r s)) as (e & Hd & Ht).
    { rewrite append_assoc. symmetry; exact Hp. }
    { rewrite length_append. simpl. lia. }
    destruct (turn_line B s (String.length l) fuel Hinv Hj)
      as (s' & E & I & T & D & R & _).
    exists s'; split; [exact E|]. split; [exact I|]. split.
    + rewrite T, Hd, append_assoc, take_app. reflexivity.
    + unfold pending. rewrite D, R, Hd.
      replace (String.length l + 1) with (String.length (l ++ nl))
        by (rewrite length_append; reflexivity).
      rewrite drop_app. symmetry; exact Ht.
  - (* more data is needed *)
    assert (Hnone : err s = None).
    { destruct (inv_err B s Hinv) as [?|(_ & Hr & _)]; [assumption|].
      rewrite Hr, append_nil_r in Hp. exfalso.
      unfold noLF in Hj. rewrite Hp in Hj.
      change (noLF (l ++ nl ++ t)) in Hj.
      apply noLF_app in Hj as [_ Hj]. exact (noLF_nl _ Hj). }
    assert (Hd : String.length (data s) <= String.length l).
    { destruct (Nat.le_gt_cases (String.length (data s)) (String.length l)) as [?|Hgt];
        [assumption|exfalso].
      destruct (app_prefix (l ++ nl) t (data s) (r s)) as (e & Hd & _).
      { rewrite append_assoc. symmetry; exact Hp. }
      { rewrite length_append. simpl. lia. }
      change (noLF (data s)) in Hj. rewrite Hd, append_assoc in Hj.
      apply noLF_app in Hj as [_ Hj]. apply noLF_app in Hj as [Hj _].
      exact (noLF_nl EmptyString Hj). }
    assert (Hr : r s <> EmptyString).
    { intros Hr. rewrite Hr, append_nil_r in Hp.
      apply (f_equal String.length) in Hp.
      rewrite !length_append in Hp. simpl in Hp. lia. }
    destruct (turn_more B s fuel Hinv HB Hnone Hj ltac:(lia) Hr)
      as (s1 & E & I & _ & P & L).
    rewrite E. apply IH; [exact I | | lia].
    rewrite P. unfold pending. exact Hp.
Qed.

(** A pending last line without terminator is delivered too. *)
Lemma scan_final (B : nat) (l : string) :
  0 < B -> noLF l -> l <> EmptyString -> String.length l < B ->
  forall fuel s,
  inv B s -> pending s = l -> String.length (r s) + 1 < fuel ->
  exists s',
    scanLoop fuel s = Scanned true s' /\ inv B s' /\
    token s' = Some (dropCR l) /\ pending s' = EmptyString.
Proof.
  intros HB Hl Hne Hlen.
  assert (Heof : forall fuel s, inv B s -> pending s = l ->
            err s = Some io.EOF ->
            exists s',
              scanLoop (S fuel) s = Scanned true s' /\ inv B s' /\
              token s' = Some (dropCR l) /\ pending s' = EmptyString).
  { intros fuel s Hinv Hp He.
    assert (Hr : r s = EmptyString).
    { destruct (inv_err B s Hinv) as [?|(_ & Hr & _)]; [congruence | exact Hr]. }
    unfold pending in Hp. rewrite Hr, append_nil_r in Hp.
    destruct (turn_final B s fuel Hinv He) as (s' & E & I & T & D & R & _);
      [rewrite Hp; exact Hl | rewrite Hp; exact Hne |].
    exists s'; split; [exact E|]. split; [exact I|]. split.
    - rewrite T, Hp. reflexivity.
    - unfold pending. rewrite D, R, Hr. reflexivity. }
  intros fuel; induction fuel as [|fuel IH]; intros s Hinv Hp Hf; [lia|].
  destruct (err s) as [e|] eqn:He.
  - destruct (inv_err B s Hinv) as [?|(He' & _)]; [congruence|].
    apply Heof; congruence.
  - assert (Hno : noLF (data s)).
    { rewrite <- Hp in Hl. apply noLF_app in Hl. tauto. }
    assert (Hd : String.length (data s) < B).
    { rewrite <- Hp in Hlen. unfold pending in Hlen.
      rewrite length_append in Hlen. lia. }
    destruct (r s) as [|c rd] eqn:Hr.
    + destruct (turn_eof B s fuel Hinv HB He Hno Hd Hr)
        as (s1 & E & I & E1 & D1 & R1).
      rewrite E. destruct fuel as [|fuel]; [simpl in Hf; lia|].
      apply Heof; [exact I | | exact E1].
      unfold pending in *. rewrite D1, R1. rewrite Hr in Hp. exact Hp.
    + destruct (turn_more B s fuel Hinv HB He Hno Hd)
        as (s1 & E & I & _ & P & L); [rewrite Hr; discriminate|].
      rewrite E. apply IH; [exact I | congruence | rewrite Hr in L; lia].
Qed.

(** With nothing pending, [Scan] reports the end of the input, and
    [Err] is nil. *)
Lemma scan_end (B : nat) :
  0 < B ->
  forall fuel s,
  inv B s -> pending s = EmptyString -> 1 < fuel ->
  exists s', scanLoop fuel s = Scanned false s' /\ Err s' = None.
Proof.
  intros HB fuel s Hinv Hp Hf.
  assert (Hd : data s = EmptyString /\ r s = EmptyString).
  { unfold pending in Hp. destruct (data s); [auto | discriminate]. }
  destruct Hd as [Hd Hr].
  destruct fuel as [|[|fuel]]; try lia.
  destruct (err s) as [e|] eqn:He.
  - destruct (inv_err B s Hinv) as [?|(He' & _)]; [congruence|].
    apply (turn_done B s _ Hinv He' Hd).
  - destruct (turn_eof B s (S fuel) Hinv HB He) as (s1 & E & I & E1 & D1 & R1);
      [rewrite Hd; reflexivity | rewrite Hd; exact HB | exact Hr |].
    rewrite E. apply (turn_done B s1 _ I E1). congruence.
Qed.

(** A pending run of [B] bytes without terminator: the window fills up with
    exactly these bytes, [Scan] gives up with [ErrTooLong], and the reader
    is left just after them. *)
Lemma scan_overflow (B : nat) (x t : string) :
  0 < B -> noLF x -> String.length x = B ->
  forall fuel s,
  inv B s -> pending s = x ++ t -> String.length (r s) < fuel ->
  exists s',
    scanLoop fuel s = Scanned false s' /\
    err s' = Some io.ErrTooLong /\ r s' = t.
Proof.
  intros HB Hx Hlen fuel; induction fuel as [|fuel IH]; intros s Hinv Hp Hf; [lia|].
  unfold pending in Hp.
  pose proof (inv_end B s Hinv) as Hend. unfold end_ in Hend.
  assert (Hnone : err s = None).
  { destruct (inv_err B s Hinv) as [?|(_ & Hr & Hlt)]; [assumption|exfalso].
    rewrite Hr, append_nil_r in Hp. unfold end_ in Hlt.
    apply (f_equal String.length) in Hp. rewrite length_append in Hp. lia. }
  destruct (app_prefix (data s) (r s) x t Hp ltac:(lia)) as (e & Hxe & Hr).
  assert (Hno : noLF (data s)).
  { rewrite Hxe in Hx. apply noLF_app in Hx. tauto. }
  destruct (Nat.eq_dec (String.length (data s)) B) as [Hfull|Hnot].
  - assert (e = EmptyString).
    { apply length_0. apply (f_equal String.length) in Hxe.
      rewrite length_append in Hxe. lia. }
    subst e. simpl in Hr.
    destruct (turn_full B s fuel Hinv HB Hnone Hno Hfull) as (s' & E & E1 & R1).
    exists s'; split; [exact E|]. split; [exact E1 | congruence].
  - assert (Hrne : r s <> EmptyString).
    { intros H0. rewrite H0 in Hr. symmetry in Hr.
      destruct e; [|discriminate]. rewrite append_nil_r in Hxe.
      apply (f_equal String.length) in Hxe. lia. }
    destruct (turn_more B s fuel Hinv HB Hnone Hno ltac:(lia) Hrne)
      as (s1 & E & I & _ & P & L).
    rewrite E. apply IH; [exact I | | lia].
    rewrite P. unfold pending. exact Hp.
Qed.

Lemma inv_NewScanner (B : nat) (input : string) :
  inv B (NewScanner input B B) /\ pending (NewScanner input B B) = input.
Proof.
  split; [constructor; cbn; auto; unfold end_; cbn; lia | reflexivity].
Qed.

End scanfacts.

(** ** The stream processor *)

Module streamfacts.
Import gostr regexp masking spec strfacts matchfacts scanfacts.

Lemma prepend_nil (pr : PipeReader) : prepend [] pr = pr.
Proof. destruct pr; reflexivity. Qed.

Lemma prepend_write (w : string) (ws : list string) (pr : PipeReader) :
  write w (prepend ws pr) = prepend (w :: ws) pr.
Proof. reflexivity. Qed.

Lemma Scan_fuel (s : bufio.Scanner) :
  String.length (bufio.r s) < String.length (bufio.r s) + 2 /\
  String.length (bufio.r s) + 1 < String.length (bufio.r s) + 2 /\
  1 < String.length (bufio.r s) + 2.
Proof. lia. Qed.

Lemma scanning_S (fuel : nat) (rules : list Rule) (n : nat) (scanner : bufio.Scanner) :
  scanning (S fuel) rules n scanner =
  match bufio.Scan scanner with
  | bufio.ScanRunsOn => mkPipe [] RunsOn
  | bufio.ScanPanics => mkPipe [] Panicked
  | bufio.Scanned true scanner' =>
      let line := bufio.Text scanner' in
      if String.length line =? 0 then
        write nl (scanning fuel rules n scanner')
      else
        write (MaskSecretsOnString line rules ++ nl) (scanning fuel rules n scanner')
  | bufio.Scanned false scanner' =>
      match bufio.Err scanner' with
      | Some err =>
          if io.eqb err io.ErrTooLong then
            fallback (S (String.length (bufio.r scanner'))) rules n (bufio.r scanner')
          else mkPipe [] Closed
      | None => mkPipe [] Closed
      end
  end.
Proof. reflexivity. Qed.

Lemma joinLines_cons (l : string) (ls : list string) :
  joinLines (l :: ls) = l ++ nl ++ joinLines ls.
Proof. unfold joinLines; cbn [map gostr.concatAll fold_right]. apply append_assoc. Qed.

Lemma length_joinLines (ls : list string) :
  List.length ls <= String.length (joinLines ls).
Proof.
  induction ls as [|l ls IH]; [apply Nat.le_0_l|].
  rewrite joinLines_cons, !length_append. simpl String.length.
  cbn [List.length]. lia.
Qed.

Section Capacity.
Variable B : nat.
Hypothesis HB : 0 < B.
Variable rules : list Rule.

Lemma scanning_line (l t : string) (s : bufio.Scanner) (fuel : nat) :
  noLF l -> String.length l < B ->
  inv B s -> pending s = l ++ nl ++ t ->
  exists s',
    inv B s' /\ pending s' = t /\
    scanning (S fuel) rules B s = write (emitLine rules l) (scanning fuel rules B s').
Proof.
  intros Hl Hlen Hinv Hp.
  destruct (scan_line B l t HB Hl Hlen _ s Hinv Hp (proj1 (Scan_fuel s)))
    as (s' & E & I & T & P).
  exists s'; split; [exact I|]. split; [exact P|].
  rewrite scanning_S. unfold bufio.Scan. rewrite E.
  unfold bufio.Text, emitLine. rewrite T. cbv zeta.
  destruct (String.length (bufio.dropCR l) =? 0); reflexivity.
Qed.

Lemma scanning_lines (ls : list string) :
  Forall (fun l => noLF l /\ String.length l < B) ls ->
  forall (t : string) (s : bufio.Scanner) (fuel : nat),
  inv B s -> pending s = joinLines ls ++ t ->
  exists s',
    inv B s' /\ pending s' = t /\
    scanning (List.length ls + fuel) rules B s =
    prepend (map (emitLine rules) ls) (scanning fuel rules B s').
Proof.
  induction 1 as [|l ls [Hl Hlen] _ IH]; intros t s fuel Hinv Hp.
  - exists s; split; [exact Hinv|]. split; [exact Hp|].
    cbn [List.length map Nat.add]. now rewrite prepend_nil.
  - rewrite joinLines_cons, !append_assoc in Hp.
    destruct (scanning_line l _ s (List.length ls + fuel) Hl Hlen Hinv Hp)
      as (s1 & I1 & P1 & E1).
    destruct (IH t s1 fuel I1 P1) as (s2 & I2 & P2 & E2).
    exists s2; split; [exact I2|]. split; [exact P2|].
    cbn [List.length Nat.add map]. rewrite E1, E2. reflexivity.
Qed.

Lemma scanning_end (s : bufio.Scanner) (fuel : nat) :
  inv B s -> pending s = EmptyString ->
  scanning (S fuel) rules B s = mkPipe [] Closed.
Proof.
  intros Hinv Hp.
  destruct (scan_end B HB _ s Hinv Hp (proj2 (proj2 (Scan_fuel s)))) as (s' & E & N).
  rewrite scanning_S. unfold bufio.Scan. rewrite E, N. reflexivity.
Qed.

Lemma scanning_final (l : string) (s : bufio.Scanner) (fuel : nat) :
  noLF l -> l <> EmptyString -> String.length l < B ->
  inv B s -> pending s = l ->
  scanning (S (S fuel)) rules B s = mkPipe [emitLine rules l] Closed.
Proof.
  intros Hl Hne Hlen Hinv Hp.
  destruct (scan_final B l HB Hl Hne Hlen _ s Hinv Hp (proj1 (proj2 (Scan_fuel s))))
    as (s' & E & I & T & P).
  rewrite scanning_S. unfold bufio.Scan. rewrite E.
  rewrite (scanning_end s' fuel I P).
  unfold bufio.Text, emitLine. rewrite T. cbv zeta.
  destruct (String.length (bufio.dropCR l) =? 0); reflexivity.
Qed.

Lemma scanning_overflow (x t : string) (s : bufio.Scanner) (fuel : nat) :
  noLF x -> String.length x = B ->
  inv B s -> pending s = x ++ t ->
  scanning (S fuel) rules B s = fallback (S (String.length t)) rules B t.
Proof.
  intros Hx Hlen Hinv Hp.
  destruct (scan_overflow B x t HB Hx Hlen _ s Hinv Hp (proj1 (Scan_fuel s)))
    as (s' & E & E1 & R1).
  rewrite scanning_S. unfold bufio.Scan. rewrite E.
  unfold bufio.Err. rewrite E1, R1. reflexivity.
Qed.

Lemma fallback_nil (fuel : nat) :
  fallback (S fuel) rules B EmptyString = mkPipe [] Closed.
Proof. cbn. destruct B; [lia | reflexivity]. Qed.

Lemma fallback_cons (fuel : nat) (c : ascii) (t : string) :
  fallback (S fuel) rules B (String c t) =
  write (MaskSecretsOnString (take B (String c t)) rules ++ nl)
    (fallback fuel rules B (drop B (String c t))).
Proof. reflexivity. Qed.

Lemma fallback_chunks (fuel : nat) :
  forall t : string,
  String.length t <= fuel ->
  fallback (S fuel) rules B t =
  mkPipe (map (fun chunk => MaskSecretsOnString chunk rules ++ nl) (chunks fuel B t))
    Closed.
Proof.
  induction fuel as [|fuel IH]; intros t Ht.
  - assert (t = EmptyString) by (apply length_0; lia). subst t. apply fallback_nil.
  - destruct t as [|c t]; [apply fallback_nil|].
    rewrite fallback_cons, IH; [reflexivity|].
    rewrite length_drop. simpl String.length in *. lia.
Qed.

Lemma chunks_bounded (fuel : nat) :
  forall t : string,
  Forall (fun chunk => 0 < String.length chunk <= B) (chunks fuel B t).
Proof.
  induction fuel as [|fuel IH]; intros t; cbn [chunks]; [constructor|].
  destruct t as [|c t]; [constructor|].
  constructor; [|apply IH].
  rewrite length_take. simpl String.length. lia.
Qed.

Lemma chunks_concat (fuel : nat) :
  forall t : string,
  String.length t <= fuel -> gostr.concatAll (chunks fuel B t) = t.
Proof.
  induction fuel as [|fuel IH]; intros t Ht.
  - assert (t = EmptyString) by (apply length_0; lia). now subst t.
  - destruct t as [|c t]; [reflexivity|].
    cbn [chunks gostr.concatAll fold_right].
    change (fold_right append EmptyString ?l) with (gostr.concatAll l).
    rewrite IH; [apply take_drop|].
    rewrite length_drop. simpl String.length in *. lia.
Qed.

(** *** The three shapes of an input *)

Lemma producer_lines (ls : list string) :
  Forall (fun l => noLF l /\ String.length l < B) ls ->
  producer B rules (joinLines ls) = mkPipe (map (emitLine rules) ls) Closed.
Proof.
  intros Hls. unfold producer.
  destruct (inv_NewScanner B (joinLines ls)) as [I P].
  pose proof (length_joinLines ls) as L.
  set (f := String.length (joinLines ls) - List.length ls).
  replace (S (String.length (joinLines ls))) with (List.length ls + S f)
    by (subst f; lia).
  destruct (scanning_lines ls Hls EmptyString _ (S f) I) as (s' & I' & P' & E).
  { rewrite P. symmetry; apply append_nil_r. }
  rewrite E, (scanning_end s' _ I' P').
  unfold prepend; cbn. now rewrite app_nil_r.
Qed.

Lemma producer_overflow (ls : list string) (x t : string) :
  Forall (fun l => noLF l /\ String.length l < B) ls ->
  noLF x -> String.length x = B ->
  producer B rules (joinLines ls ++ x ++ t) =
  prepend (map (emitLine rules) ls) (fallback (S (String.length t)) rules B t).
Proof.
  intros Hls Hx Hlen. unfold producer.
  destruct (inv_NewScanner B (joinLines ls ++ x ++ t)) as [I P].
  pose proof (length_joinLines ls) as L.
  set (input := joinLines ls ++ x ++ t) in *.
  assert (Li : List.length ls <= String.length input).
  { subst input. rewrite length_append. lia. }
  set (f := String.length input - List.length ls).
  replace (S (String.length input)) with (List.length ls + S f)
    by (subst f; lia).
  destruct (scanning_lines ls Hls (x ++ t) _ (S f) I P) as (s' & I' & P' & E).
  rewrite E, (scanning_overflow x t s' _ Hx Hlen I' P'). reflexivity.
Qed.

End Capacity.

(** *** The shortcut for empty lines *)

Lemma scanning_shortcut (rules : list Rule) (n : nat) :
  MaskSecretsOnString EmptyString rules = EmptyString ->
  forall fuel s,
  scanning fuel rules n s = scanning_masking_every_line fuel rules n s.
Proof.
  intros Hempty fuel; induction fuel as [|fuel IH]; intros s; [reflexivity|].
  cbn [scanning scanning_masking_every_line].
  destruct (bufio.Scan s) as [[|] s'| |]; try reflexivity.
  rewrite IH.
  destruct (Nat.eqb_spec (String.length (bufio.Text s')) 0) as [E|E]; [|reflexivity].
  apply length_0 in E. rewrite E, Hempty. reflexivity.
Qed.

(** *** Masking keeps a line a line *)

Lemma noLF_nil : noLF EmptyString.
Proof. reflexivity. Qed.

Lemma replaceAll_noLF (re : Regexp) (src repl : string) :
  noLF src -> noLF repl ->
  forall fuel lastMatchEnd i,
  noLF (replaceAll fuel re src repl lastMatchEnd i).
Proof.
  intros Hs Hr fuel; induction fuel as [|fuel IH]; intros lme i; cbn [replaceAll].
  - now apply noLF_drop.
  - destruct (execute re i) as [[a b]|]; [|now apply noLF_drop].
    apply noLF_app; split; [unfold slice; now apply noLF_take, noLF_drop|].
    apply noLF_app; split.
    + destruct (_ || _); [exact Hr | exact noLF_nil].
    + destruct (pos b <? _).
      * destruct (step i) as [[c i']|]; [apply IH | now apply noLF_drop].
      * destruct (pos b <? _); [now apply noLF_drop | apply IH].
Qed.

Lemma rangeRules_noLF (rules : list Rule) :
  forall text, noLF text -> noLF (rangeRules rules text).
Proof.
  induction rules as [|rule rules IH]; intros text H; cbn [rangeRules]; [exact H|].
  apply IH. unfold ReplaceAllString. apply replaceAll_noLF; [exact H | reflexivity].
Qed.

Lemma rangeRules_unmatched (rules : list Rule) (text : string) :
  unmatched rules text = true -> rangeRules rules text = text.
Proof.
  induction rules as [|rule rules IH]; cbn [rangeRules unmatched forallb]; [reflexivity|].
  intros H. apply andb_prop in H as [H1 H2].
  rewrite ReplaceAllString_no_match; [apply IH; exact H2|].
  destruct (execute _ _); [discriminate | reflexivity].
Qed.

Lemma dropCR_noLF (l : string) : noLF l -> noLF (bufio.dropCR l).
Proof.
  intros H. unfold bufio.dropCR.
  destruct (gostr.last l) as [c|]; [|exact H].
  destruct (Ascii.eqb c CR); [now apply noLF_take | exact H].
Qed.

Lemma dropCR_id (l : string) : gostr.last l <> Some CR -> bufio.dropCR l = l.
Proof.
  intros H. unfold bufio.dropCR.
  destruct (gostr.last l) as [c|]; [|reflexivity].
  destruct (Ascii.eqb_spec c CR); [congruence | reflexivity].
Qed.

Lemma noLF_repeat (c : ascii) (n : nat) :
  c <> LF -> noLF (gostr.repeat c n).
Proof.
  intros H. unfold noLF.
  induction n as [|n IH]; cbn [gostr.repeat indexByte]; [reflexivity|].
  destruct (Ascii.eqb_spec c LF); [congruence|]. now rewrite IH.
Qed.

End streamfacts.

(** ** Every input has one of three shapes *)

Module shapefacts.
Import gostr regexp masking spec strfacts matchfacts scanfacts streamfacts.

Lemma indexByte_split (s : string) (c : ascii) (j : nat) :
  indexByte s c = Some j ->
  s = take j s ++ String c (drop (S j) s) /\ indexByte (take j s) c = None.
Proof.
  revert j; induction s as [|a s IH]; intros j; cbn [indexByte]; [discriminate|].
  destruct (Ascii.eqb_spec a c) as [->|Hne].
  - intros H; injection H as <-. split; reflexivity.
  - destruct (indexByte s c) as [j'|]; [|discriminate].
    intros H; injection H as <-.
    destruct (IH j' eq_refl) as [E N].
    cbn [take drop String.append indexByte].
    destruct (Ascii.eqb_spec a c); [contradiction|].
    rewrite N. split; [f_equal; exact E | reflexivity].
Qed.

Section Shapes.
Variable B : nat.
Hypothesis HB : 0 < B.
Variable rules : list Rule.

(** Every input is a run of lines that fit the buffer, followed by nothing,
    by a last line without terminator that fits, or by [B] bytes without
    terminator. *)
Lemma input_shape (n : nat) :
  forall input : string,
  String.length input <= n ->
  exists (ls : list string) (tail : string),
    Forall (fun l => noLF l /\ String.length l < B) ls /\
    input = joinLines ls ++ tail /\
    (tail = EmptyString \/
     (noLF tail /\ tail <> EmptyString /\ String.length tail < B) \/
     (exists x t, tail = x ++ t /\ noLF x /\ String.length x = B)).
Proof.
  induction n as [|n IH]; intros input Hn.
  - exists [], EmptyString. split; [constructor|]. split; [|left; reflexivity].
    apply length_0. lia.
  - destruct (indexByte (take B input) LF) as [j|] eqn:Hj.
    + pose proof (indexByte_lt _ _ _ Hj) as Hlt. rewrite length_take in Hlt.
      destruct (indexByte_split _ _ _ Hj) as [E N].
      set (l := take j (take B input)) in *.
      set (rest := drop (S j) (take B input) ++ drop B input).
      assert (Hin : input = l ++ nl ++ rest).
      { rewrite <- (take_drop B input) at 1. rewrite E at 1.
        subst rest. rewrite append_assoc. reflexivity. }
      assert (Hl : String.length l = j).
      { subst l. rewrite !length_take. lia. }
      destruct (IH rest) as (ls & tail & Hls & Hrest & Htail).
      { apply (f_equal String.length) in Hin.
        rewrite !length_append in Hin. simpl String.length in Hin. lia. }
      exists (l :: ls), tail. split; [|split; [|exact Htail]].
      * constructor; [split; [exact N | lia] | exact Hls].
      * rewrite joinLines_cons, !append_assoc, <- Hrest. exact Hin.
    + destruct (Nat.le_gt_cases B (String.length input)) as [Hge|Hlt].
      * exists [], input. split; [constructor|]. split; [reflexivity|].
        right; right. exists (take B input), (drop B input).
        split; [symmetry; apply take_drop|]. split; [exact Hj|].
        rewrite length_take. lia.
      * rewrite take_all in Hj by lia.
        exists [], input. split; [constructor|]. split; [reflexivity|].
        destruct input as [|c input]; [left; reflexivity|].
        right; left. split; [exact Hj|]. split; [discriminate | exact Hlt].
Qed.

Lemma producer_final (ls : list string) (l : string) :
  Forall (fun l => noLF l /\ String.length l < B) ls ->
  noLF l -> l <> EmptyString -> String.length l < B ->
  producer B rules (joinLines ls ++ l) =
  mkPipe (map (emitLine rules) ls ++ [emitLine rules l]) Closed.
Proof.
  intros Hls Hl Hne Hlen. unfold producer.
  destruct (inv_NewScanner B (joinLines ls ++ l)) as [I P].
  pose proof (length_joinLines ls) as L.
  pose proof (length_pos l Hne) as Lp.
  set (input := joinLines ls ++ l) in *.
  assert (Li : List.length ls + 1 <= String.length input).
  { subst input. rewrite length_append. lia. }
  set (f := String.length input - List.length ls - 1).
  replace (S (String.length input)) with (List.length ls + S (S f))
    by (subst f; lia).
  destruct (scanning_lines B HB rules ls Hls l _ (S (S f)) I P) as (s' & I' & P' & E).
  rewrite E, (scanning_final B HB rules l s' f Hl Hne Hlen I' P'). reflexivity.
Qed.

(** The goroutine ends, and closes the pipe, on every input. *)
Lemma producer_closes (input : string) :
  ending_ (producer B rules input) = Closed.
Proof.
  destruct (input_shape (String.length input) input (le_n _))
    as (ls & tail & Hls & -> & [-> | [(Hno & Hne & Hlen) | (x & t & -> & Hx & Hlx)]]).
  - rewrite append_nil_r, (producer_lines B HB rules ls Hls). reflexivity.
  - rewrite (producer_final ls tail Hls Hno Hne Hlen). reflexivity.
  - rewrite (producer_overflow B HB rules ls x t Hls Hx Hlx).
    rewrite (fallback_chunks B HB rules _ t (le_n _)). reflexivity.
Qed.

End Shapes.

End shapefacts.

(* ================================================================== *)
(** * Main results *)

Import gostr regexp yaml_regex masking spec.
Import strfacts matchfacts yamlfacts scanfacts streamfacts shapefacts.

Local Arguments maxCapacity : simpl never.

(** Lines given explicitly are free of terminators and shorter than the bound. *)
Ltac short_lines :=
  repeat first
    [ apply Forall_nil
    | apply Forall_cons;
      [ split; [reflexivity | apply Nat.ltb_lt; vm_compute; reflexivity] | ] ].

Lemma maxCapacity_pos : 0 < maxCapacity.
Proof. apply Nat.ltb_lt. vm_compute. reflexivity. Qed.

Lemma BuiltinRules_compiled : BuiltinRules_init = Ok BuiltinRules.
Proof.
  unfold BuiltinRules. destruct BuiltinRules_init eqn:E; [reflexivity|].
  vm_compute in E. discriminate.
Qed.

Lemma BuiltinRules_empty : MaskSecretsOnString EmptyString BuiltinRules = EmptyString.
Proof. vm_compute. reflexivity. Qed.

Lemma emitLine_builtin (l : string) :
  emitLine BuiltinRules l = MaskSecretsOnString (bufio.dropCR l) BuiltinRules ++ nl.
Proof.
  unfold emitLine.
  destruct (Nat.eqb_spec (String.length (bufio.dropCR l)) 0) as [E|E]; [|reflexivity].
  apply length_0 in E. rewrite E, BuiltinRules_empty. reflexivity.
Qed.

Lemma rangeRules_fold (rules : list Rule) :
  forall text,
  rangeRules rules text = fold_left (fun text rule => rangeRules [rule] text) rules text.
Proof.
  induction rules as [|rule rules IH]; intros text; [reflexivity|].
  cbn [rangeRules fold_left]. apply IH.
Qed.

Lemma masked_cons (input : string) (p : Pattern) (ps : list Pattern) :
  masked (maskSecretKeys input (p :: ps)) =
  masked (maskSecretKeys (masked (maskSecretKeys input [p])) ps).
Proof.
  unfold maskSecretKeys.
  change (p :: ps) with ([p] ++ ps)%list. rewrite rangePatterns_app.
  destruct (rangePatterns_ok [p] input []) as (m1 & pr1 & E1 & _).
  rewrite E1. cbn [app masked].
  destruct (rangePatterns_ok ps m1 []) as (m2 & pr2 & E2 & _).
  rewrite (rangePatterns_stdout ps m1 pr1 m2 ([] ++ pr2)%list E2), E2.
  reflexivity.
Qed.

(** C1 (as stated, refuted).  The scenario line of the specification is
    returned unchanged by the built-in rule set: its value is not replaced by
    the token.  And for the rule [aws-secret-access-key], whose secret group
    is set, the context [aws_secret_key=] captured by the match is replaced
    together with the value. *)
Lemma secret_group_context_not_preserved :
  MaskSecretsOnString "secret_key=9JHQpcS6HLVI8NyiMNsIRyLCw15lRQ" BuiltinRules
    = "secret_key=9JHQpcS6HLVI8NyiMNsIRyLCw15lRQ"
  /\ MaskSecretsOnString "secret_key=9JHQpcS6HLVI8NyiMNsIRyLCw15lRQ" BuiltinRules
    <> "secret_key=******"
  /\ exists rule,
       nth_error BuiltinRules 1 = Some rule
       /\ ID rule = "aws-secret-access-key"
       /\ SecretGroupName rule = "secret"
       /\ MaskSecretsOnString "aws_secret_key=0123456789abcdefghijABCDEFGHIJ0123456789" [rule]
          = "******".
Proof.
  split; [vm_compute; reflexivity|].
  split; [vm_compute; discriminate|].
  destruct (nth_error BuiltinRules 1) as [rule|] eqn:E; [|vm_compute in E; discriminate].
  exists rule. split; [reflexivity|].
  assert (H : Some rule = nth_error BuiltinRules 1) by (symmetry; exact E).
  clear E. vm_compute in H. injection H as ->.
  repeat split; vm_compute; reflexivity.
Qed.

(** C1 (amended).  [MaskSecretsOnString] never reads the secret group name:
    every rule replaces each whole match of its pattern by the fixed token,
    context included, the token standing where the match starts.  So
    [aws_secret_key=] followed by a 40-character value becomes the bare
    token, and the scenario line of the specification, which no built-in rule
    matches, is returned unchanged. *)
Theorem mask_replaces_whole_match :
  (forall input rules,
     MaskSecretsOnString input rules = MaskSecretsOnString input (map withoutGroup rules))
  /\ (forall input rule,
        MaskSecretsOnString input [rule] = ReplaceAllString (Regex rule) input "******")
  /\ (forall (input : string) (rule : Rule) (a b : Input),
        execute (Regex rule) (start input) = Some (a, b) -> pos a < pos b ->
        exists tail,
          MaskSecretsOnString input [rule] = take (pos a) input ++ "******" ++ tail)
  /\ MaskSecretsOnString "aws_secret_key=0123456789abcdefghijABCDEFGHIJ0123456789"
       BuiltinRules = "******"
  /\ MaskSecretsOnString "secret_key=9JHQpcS6HLVI8NyiMNsIRyLCw15lRQ" BuiltinRules
     = "secret_key=9JHQpcS6HLVI8NyiMNsIRyLCw15lRQ".
Proof.
  split; [|split; [reflexivity | split; [|split; vm_compute; reflexivity]]].
  - intros input rules. unfold MaskSecretsOnString. revert input.
    induction rules as [|rule rules IH]; intros input; [reflexivity|].
    cbn [map rangeRules]. rewrite IH. reflexivity.
  - intros input rule a b E Hab.
    unfold MaskSecretsOnString; cbn [rangeRules].
    unfold ReplaceAllString; cbn [replaceAll]. rewrite E. unfold slice. rewrite Nat.sub_0_r, drop_0.
    replace (0 <? pos b) with true by (symmetry; apply Nat.ltb_lt; lia).
    cbn [orb]. eexists. reflexivity.
Qed.

Lemma mask_replaces_whole_match_witness :
  exists tail,
    MaskSecretsOnString "key=abcd;" [ruleOf "=[a-z]+"]
      = take 3 "key=abcd;" ++ "******" ++ tail.
Proof.
  destruct mask_replaces_whole_match as (_ & _ & H & _).
  apply (H "key=abcd;" (ruleOf "=[a-z]+")
           (mkInput 3 (Some "y"%char) "=abcd;") (mkInput 8 (Some "d"%char) ";")).
  - vm_compute. reflexivity.
  - simpl. lia.
Defined.

(** C2.  Masking is the left fold of single-rule replacement over the rule
    list, for both masking functions: each rule replaces all its matches in
    the text left by the rules before it.  For two rules with overlapping
    matches the first in order decides. *)
Theorem mask_is_left_fold_in_rule_order :
  (forall input rules,
     MaskSecretsOnString input rules =
     fold_left (fun text rule => MaskSecretsOnString text [rule]) rules input)
  /\ (forall input rule,
        MaskSecretsOnString input [rule] = ReplaceAllString (Regex rule) input "******")
  /\ (forall input patterns,
        masked (maskSecretKeys input patterns) =
        fold_left (fun text pattern => masked (maskSecretKeys text [pattern]))
          patterns input)
  /\ (MaskSecretsOnString "abc" [ruleOf "ab"; ruleOf "bc"] = "******c"
      /\ MaskSecretsOnString "abc" [ruleOf "bc"; ruleOf "ab"] = "a******").
Proof.
  split; [|split; [reflexivity | split]].
  - intros input rules. apply rangeRules_fold.
  - intros input patterns; revert input.
    induction patterns as [|p ps IH]; intros input; [reflexivity|].
    rewrite masked_cons, IH. reflexivity.
  - split; vm_compute; reflexivity.
Qed.

Lemma MaskSecretsStream_lines (lines : list string) :
  Forall (fun l => noLF l /\ String.length l < maxCapacity) lines ->
  MaskSecretsStream (joinLines lines) =
  (mkPipe (map (fun l => MaskSecretsOnString (bufio.dropCR l) BuiltinRules ++ nl) lines)
     Closed, None).
Proof.
  intros H. unfold MaskSecretsStream.
  rewrite (producer_lines maxCapacity maxCapacity_pos BuiltinRules lines H).
  rewrite (map_ext _ _ emitLine_builtin). reflexivity.
Qed.

Lemma MaskSecretsStream_overflow (lines : list string) (x rest : string) :
  Forall (fun l => noLF l /\ String.length l < maxCapacity) lines ->
  noLF x -> String.length x = maxCapacity ->
  fst (MaskSecretsStream (joinLines lines ++ x ++ rest)) =
  prepend (map (emitLine BuiltinRules) lines)
    (fallback (S (String.length rest)) BuiltinRules maxCapacity rest).
Proof.
  intros H Hx Hl. unfold MaskSecretsStream; cbn [fst].
  apply (producer_overflow maxCapacity maxCapacity_pos BuiltinRules lines x rest H Hx Hl).
Qed.

Lemma long_line_output :
  ReadAll (fst (MaskSecretsStream (joinLines [gostr.repeat "a" maxCapacity]))) = nl ++ nl.
Proof. vm_compute. reflexivity. Qed.

(** C3 (as stated, refuted).  The input made of the single line of 262144
    letters [a] and its terminator comes out as two empty lines: the round
    trip does not hold for every input made of terminated lines. *)
Lemma stream_round_trip_fails_on_long_line : ~ round_trip_for_all_lines.
Proof.
  intros H.
  destruct (H [gostr.repeat "a" maxCapacity]) as (outs & Hlen & Hno & Hout & _).
  { constructor; [|constructor]. apply noLF_repeat. discriminate. }
  rewrite long_line_output in Hout.
  destruct outs as [|o [|o' outs]]; try discriminate Hlen.
  inversion Hno as [|? ? Ho _]; subst.
  unfold joinLines in Hout; cbn [map gostr.concatAll fold_right] in Hout.
  rewrite append_nil_r in Hout.
  assert (L : String.length (nl ++ nl) = String.length (o ++ nl)) by (now rewrite Hout).
  rewrite length_append in L. simpl in L.
  destruct o as [|c [|c' o]]; simpl in L; try lia.
  - simpl in Hout. injection Hout as Hc. subst c.
    unfold noLF in Ho. simpl in Ho. discriminate.
  - rewrite length_append in L. simpl in L. lia.
Qed.

(** C3 (amended).  For an input made of terminated lines, each shorter than
    the buffer bound, the stream processor writes one terminated line per
    input line, in order: the masked line, without a trailing carriage
    return.  The masked line contains no terminator, and a line that no rule
    matches and that does not end in a carriage return is written as it is. *)
Theorem stream_round_trip_short_lines :
  forall lines : list string,
  Forall (fun l => noLF l /\ String.length l < maxCapacity) lines ->
  MaskSecretsStream (joinLines lines) =
    (mkPipe (map (fun l => MaskSecretsOnString (bufio.dropCR l) BuiltinRules ++ nl) lines)
       Closed, None)
  /\ Forall (fun l => noLF (MaskSecretsOnString (bufio.dropCR l) BuiltinRules)) lines
  /\ (forall l, In l lines -> gostr.last l <> Some CR ->
        unmatched BuiltinRules l = true ->
        MaskSecretsOnString (bufio.dropCR l) BuiltinRules = l).
Proof.
  intros lines H. split; [apply MaskSecretsStream_lines; exact H|]. split.
  - apply Forall_forall. intros l Hl.
    rewrite Forall_forall in H. destruct (H l Hl) as [Hno _].
    apply rangeRules_noLF, dropCR_noLF, Hno.
  - intros l _ Hcr Hun. rewrite dropCR_id by exact Hcr.
    apply rangeRules_unmatched, Hun.
Qed.

Lemma stream_round_trip_short_lines_witness :
  MaskSecretsStream (joinLines ["ab"; EmptyString; "token"]) =
    (mkPipe (map (fun l => MaskSecretsOnString (bufio.dropCR l) BuiltinRules ++ nl)
               ["ab"; EmptyString; "token"]) Closed, None)
  /\ Forall (fun l => noLF (MaskSecretsOnString (bufio.dropCR l) BuiltinRules))
       ["ab"; EmptyString; "token"]
  /\ (forall l, In l ["ab"; EmptyString; "token"] -> gostr.last l <> Some CR ->
        unmatched BuiltinRules l = true ->
        MaskSecretsOnString (bufio.dropCR l) BuiltinRules = l).
Proof.
  apply (stream_round_trip_short_lines ["ab"; EmptyString; "token"]).
  short_lines.
Defined.

(** C4.  The stream processor ends and closes the pipe on every input, with
    a nil error.  When a run of [maxCapacity] bytes without terminator follows
    lines that fit the buffer, it writes the lines, then reads the rest of the
    source in chunks of at most [maxCapacity] bytes until it is exhausted,
    masks each chunk on its own and writes it with a terminator appended.  No
    text longer than the bound is ever handed to the masking function. *)
Theorem overflow_fallback_chunks :
  (forall input : bytes.Buffer,
     ending_ (fst (MaskSecretsStream input)) = Closed
     /\ snd (MaskSecretsStream input) = None)
  /\ (forall (lines : list string) (x rest : string),
        Forall (fun l => noLF l /\ String.length l < maxCapacity) lines ->
        noLF x -> String.length x = maxCapacity ->
        MaskSecretsStream (joinLines lines ++ x ++ rest) =
          (mkPipe
             (map (emitLine BuiltinRules) lines ++
              map (fun chunk => MaskSecretsOnString chunk BuiltinRules ++ nl)
                (chunksOf maxCapacity rest))
             Closed, None)
        /\ Forall (fun chunk => 0 < String.length chunk <= maxCapacity)
             (chunksOf maxCapacity rest)
        /\ gostr.concatAll (chunksOf maxCapacity rest) = rest).
Proof.
  split.
  - intros input. split; [|reflexivity].
    apply (producer_closes maxCapacity maxCapacity_pos).
  - intros lines x rest H Hx Hl. split; [|split].
    + pose proof (MaskSecretsStream_overflow lines x rest H Hx Hl) as E.
      unfold MaskSecretsStream in *; cbn [fst] in E. rewrite E.
      rewrite (fallback_chunks maxCapacity maxCapacity_pos BuiltinRules _ rest (le_n _)).
      reflexivity.
    + apply chunks_bounded. exact maxCapacity_pos.
    + apply chunks_concat; [exact maxCapacity_pos | apply le_n].
Qed.

Lemma overflow_fallback_chunks_witness :
  MaskSecretsStream (joinLines ["ab"] ++ gostr.repeat "x" maxCapacity ++ "tail") =
    (mkPipe
       (map (emitLine BuiltinRules) ["ab"] ++
        map (fun chunk => MaskSecretsOnString chunk BuiltinRules ++ nl)
          (chunksOf maxCapacity "tail"))
       Closed, None)
  /\ Forall (fun chunk => 0 < String.length chunk <= maxCapacity)
       (chunksOf maxCapacity "tail")
  /\ gostr.concatAll (chunksOf maxCapacity "tail") = "tail".
Proof.
  apply (proj2 overflow_fallback_chunks ["ab"] (gostr.repeat "x" maxCapacity) "tail").
  - short_lines.
  - vm_compute. reflexivity.
  - apply length_repeat.
Defined.

(** C5.  [maskSecretKeys] always returns, with a text of the length of its
    input: each matched span is replaced by as many mask characters as it has
    bytes. *)
Theorem length_preserving_mask :
  (forall input patterns,
     exists text out,
       maskSecretKeys input patterns = Returns text out /\
       String.length text = String.length input)
  /\ (forall input m0 m1,
        m0 <= m1 <= String.length input ->
        maskMatch input (m0, m1) =
          Some (take m0 input ++ gostr.repeat "*" (m1 - m0) ++ drop m1 input)
        /\ String.length (take m0 input ++ gostr.repeat "*" (m1 - m0) ++ drop m1 input)
           = String.length input).
Proof.
  split.
  - intros input patterns.
    destruct (rangePatterns_ok patterns input []) as (text & out & E & L).
    exists text, out. split; [exact E | exact L].
  - intros input m0 m1 H.
    destruct (maskMatch_ok input m0 m1 H) as (input' & E & L).
    unfold maskMatch in *.
    destruct (m1 <? m0); [discriminate|].
    destruct (String.length input <? m0); [discriminate|].
    destruct (String.length input <? m1); [discriminate|].
    injection E as <-. split; [reflexivity | exact L].
Qed.

Lemma length_preserving_mask_witness :
  maskMatch "key=abc;" (4, 7) = Some "key=***;"
  /\ String.length "key=***;" = String.length "key=abc;".
Proof.
  apply (proj2 length_preserving_mask "key=abc;" 4 7). simpl. lia.
Defined.

(** C6 (as stated, refuted).  A pattern list with a pattern that does not
    compile is loaded without any error, and the compilation failure happens,
    and is reported, when a line is masked. *)
Lemma yaml_pattern_fails_at_masking_time :
  let bad := mkPattern (mkFields "broken" "(" "high") in
  readPatterns unit (fun _ => inl "some document") (fun _ => inl [bad]) "patterns.yaml"
    = inl [bad]
  /\ maskSecretKeys "some line" [bad]
     = Returns "some line" [ErrorCompilingRegex "(" ErrMissingParen].
Proof. split; vm_compute; reflexivity. Qed.

(** C6 (amended).  The patterns of the built-in catalogue are all compiled
    when the rule set is initialised, and [MaskSecretsOnString] takes compiled
    expressions only.  The patterns of a YAML document are not compiled when
    they are loaded: [readPatterns] returns what the decoder produced, and
    [maskSecretKeys] compiles every pattern on every call, a pattern that
    does not compile being reported on that call. *)
Theorem patterns_compiled_at_construction_in_catalogue_only :
  BuiltinRules_init = Ok BuiltinRules
  /\ List.length BuiltinRules = 86
  /\ (forall (error : Type) (ReadFile : string -> string + error)
        (Unmarshal : string -> list Pattern + error)
        (filename data : string) (patterns : list Pattern),
        ReadFile filename = inl data -> Unmarshal data = inl patterns ->
        readPatterns error ReadFile Unmarshal filename = inl patterns)
  /\ (forall (input : string) (pattern : Pattern) (err : ErrorCode),
        Compile (yaml_regex.Regex (Pattern_ pattern)) = Err err ->
        maskSecretKeys input [pattern]
          = Returns input [ErrorCompilingRegex (yaml_regex.Regex (Pattern_ pattern)) err]).
Proof.
  split; [exact BuiltinRules_compiled|].
  split; [vm_compute; reflexivity|].
  split.
  - intros error ReadFile Unmarshal filename data patterns H1 H2.
    unfold readPatterns. rewrite H1, H2. reflexivity.
  - intros input pattern err H.
    unfold maskSecretKeys. cbn [rangePatterns]. rewrite H. reflexivity.
Qed.

Lemma patterns_compiled_at_construction_in_catalogue_only_witness :
  readPatterns unit (fun _ => inl "some document")
    (fun _ => inl [mkPattern (mkFields "broken" "[a-" "low")]) "patterns.yaml"
    = inl [mkPattern (mkFields "broken" "[a-" "low")]
  /\ maskSecretKeys "a line" [mkPattern (mkFields "broken" "[a-" "low")]
     = Returns "a line" [ErrorCompilingRegex "[a-" ErrMissingBracket].
Proof.
  destruct patterns_compiled_at_construction_in_catalogue_only as (_ & _ & H1 & H2).
  split.
  - apply (H1 unit _ _ "patterns.yaml" "some document"); reflexivity.
  - apply (H2 "a line" (mkPattern (mkFields "broken" "[a-" "low")) ErrMissingBracket).
    vm_compute. reflexivity.
Defined.

(** C7.  [maskSecretKeys] never panics.  A pattern that does not compile is
    reported on standard output and skipped: the text returned is the one
    returned without that pattern, so the patterns before and after it are
    applied all the same. *)
Theorem maskSecretKeys_skips_pattern_that_fails_to_compile :
  (forall input patterns,
     exists text out, maskSecretKeys input patterns = Returns text out)
  /\ (forall (input : string) (before after : list Pattern) (bad : Pattern)
        (err : ErrorCode),
        Compile (yaml_regex.Regex (Pattern_ bad)) = Err err ->
        masked (maskSecretKeys input (before ++ bad :: after))
          = masked (maskSecretKeys input (before ++ after))
        /\ In (ErrorCompilingRegex (yaml_regex.Regex (Pattern_ bad)) err)
             (printed (maskSecretKeys input (before ++ bad :: after)))).
Proof.
  split.
  - intros input patterns.
    destruct (rangePatterns_ok patterns input []) as (text & out & E & _).
    exists text, out. exact E.
  - intros input before after bad err H.
    unfold maskSecretKeys. rewrite !rangePatterns_app.
    destruct (rangePatterns_ok before input []) as (m1 & pr1 & E1 & _).
    rewrite E1. cbn [app rangePatterns]. rewrite H.
    destruct (rangePatterns_ok after m1 []) as (m2 & pr2 & E2 & _).
    cbn [app] in E2.
    rewrite (rangePatterns_stdout after m1 _ m2 pr2 E2).
    rewrite (rangePatterns_stdout after m1 pr1 m2 pr2 E2).
    cbn [masked printed]. split; [reflexivity|].
    apply in_or_app; left. apply in_or_app; right. left; reflexivity.
Qed.

Lemma maskSecretKeys_skips_pattern_that_fails_to_compile_witness :
  let p := fun regex => mkPattern (mkFields "p" regex "high") in
  masked (maskSecretKeys "id=12 pin=3456" ([p "[0-9]{4}"] ++ p "(" :: [p "id"]))
    = masked (maskSecretKeys "id=12 pin=3456" ([p "[0-9]{4}"] ++ [p "id"]))
  /\ In (ErrorCompilingRegex "(" ErrMissingParen)
       (printed (maskSecretKeys "id=12 pin=3456" ([p "[0-9]{4}"] ++ p "(" :: [p "id"]))).
Proof.
  intros p.
  apply (proj2 maskSecretKeys_skips_pattern_that_fails_to_compile
           "id=12 pin=3456" [p "[0-9]{4}"] [p "id"] (p "(") ErrMissingParen).
  vm_compute. reflexivity.
Defined.

(** C8.  Masking the empty string with the built-in rule set gives the empty
    string, so the stream processor, which writes a bare terminator for an
    empty line, writes what it would write if it masked every line. *)
Theorem empty_line_fast_path_is_invisible :
  MaskSecretsOnString EmptyString BuiltinRules = EmptyString
  /\ forall input : bytes.Buffer,
       MaskSecretsStream input = MaskSecretsStream_masking_every_line input.
Proof.
  split; [exact BuiltinRules_empty|].
  intros input. unfold MaskSecretsStream, MaskSecretsStream_masking_every_line, producer.
  f_equal. apply scanning_shortcut. exact BuiltinRules_empty.
Qed.

(** C9.  The masked text does not depend on the severity and the keywords of
    the rules, nor, for loaded patterns, on their confidence label. *)
Theorem mask_ignores_severity_and_keywords :
  (forall (input : string) (rules1 rules2 : list Rule),
     Forall2 sameButSeverityKeywords rules1 rules2 ->
     MaskSecretsOnString input rules1 = MaskSecretsOnString input rules2)
  /\ (forall (input : string) (patterns1 patterns2 : list Pattern),
        Forall2 sameButConfidence patterns1 patterns2 ->
        maskSecretKeys input patterns1 = maskSecretKeys input patterns2).
Proof.
  split.
  - intros input rules1 rules2 H. unfold MaskSecretsOnString. revert input.
    induction H as [|a b l1 l2 (_ & _ & HR & _) _ IH]; intros input; [reflexivity|].
    cbn [rangeRules]. rewrite HR. apply IH.
  - intros input patterns1 patterns2 H. unfold maskSecretKeys.
    generalize (@nil Printed) as out. revert input.
    induction H as [|a b l1 l2 (_ & HR) _ IH]; intros input out; [reflexivity|].
    cbn [rangePatterns]. rewrite HR.
    destruct (Compile _); [|apply IH].
    destruct (rangeMatches _ _); [apply IH | reflexivity].
Qed.

Lemma mask_ignores_severity_and_keywords_witness :
  let re := Regex (ruleOf "ghp_[0-9a-zA-Z]{4}") in
  MaskSecretsOnString "token ghp_ab12"
    [mkRule "github-pat" "CRITICAL" "GitHub" re EmptyString ["ghp_"]]
  = MaskSecretsOnString "token ghp_ab12"
      [mkRule "github-pat" "LOW" "GitHub" re EmptyString ["unrelated"; "words"]].
Proof.
  intros re.
  apply (proj1 mask_ignores_severity_and_keywords).
  constructor; [|constructor]. unfold sameButSeverityKeywords. cbn. auto.
Defined.

(** C10.  In the overflow fallback the [maxCapacity] bytes the scanner has
    buffered are never written, masked or not: the output is the same
    whatever these bytes are, the chunked reading starting at the byte after
    them.  An input made of such a run alone produces no output at all. *)
Theorem overflow_drops_buffered_bytes :
  forall (lines : list string) (x y rest : string),
  Forall (fun l => noLF l /\ String.length l < maxCapacity) lines ->
  noLF x -> String.length x = maxCapacity ->
  noLF y -> String.length y = maxCapacity ->
  MaskSecretsStream (joinLines lines ++ x ++ rest) =
    MaskSecretsStream (joinLines lines ++ y ++ rest)
  /\ fst (MaskSecretsStream (joinLines lines ++ x ++ rest)) =
       prepend (map (emitLine BuiltinRules) lines)
         (fallback (S (String.length rest)) BuiltinRules maxCapacity rest)
  /\ MaskSecretsStream x = (mkPipe [] Closed, None).
Proof.
  intros lines x y rest H Hx Hlx Hy Hly.
  pose proof (MaskSecretsStream_overflow lines x rest H Hx Hlx) as Ex.
  pose proof (MaskSecretsStream_overflow lines y rest H Hy Hly) as Ey.
  split; [|split; [exact Ex|]].
  - unfold MaskSecretsStream in *; cbn [fst] in *. rewrite Ex, Ey. reflexivity.
  - pose proof (MaskSecretsStream_overflow [] x EmptyString (Forall_nil _) Hx Hlx) as E0.
    unfold joinLines in E0; cbn [map gostr.concatAll fold_right String.append] in E0.
    rewrite append_nil_r in E0.
    unfold MaskSecretsStream in *; cbn [fst] in *. rewrite E0.
    rewrite (fallback_nil maxCapacity maxCapacity_pos). reflexivity.
Qed.

Lemma overflow_drops_buffered_bytes_witness :
  MaskSecretsStream (joinLines ["ab"] ++ gostr.repeat "x" maxCapacity ++ "tail") =
    MaskSecretsStream (joinLines ["ab"] ++ gostr.repeat "y" maxCapacity ++ "tail")
  /\ fst (MaskSecretsStream (joinLines ["ab"] ++ gostr.repeat "x" maxCapacity ++ "tail")) =
       prepend (map (emitLine BuiltinRules) ["ab"])
         (fallback (S (String.length "tail")) BuiltinRules maxCapacity "tail")
  /\ MaskSecretsStream (gostr.repeat "x" maxCapacity) = (mkPipe [] Closed, None).
Proof.
  apply (overflow_drops_buffered_bytes ["ab"] (gostr.repeat "x" maxCapacity)
           (gostr.repeat "y" maxCapacity) "tail").
  - short_lines.
  - vm_compute. reflexivity.
  - apply length_repeat.
  - vm_compute. reflexivity.
  - apply length_repeat.
Defined.

(* ================================================================== *)
(** * Further properties of the programs *)

(** ** Bytes of a masked text *)

Module bytefacts.
Import gostr regexp yaml_regex spec vocab strfacts matchfacts yamlfacts.

Lemma get_append (a b : string) (i : nat) :
  String.get i (a ++ b) =
  if i <? String.length a then String.get i a else String.get (i - String.length a) b.
Proof.
  revert i; induction a as [|c a IH]; intros i; cbn [String.append String.length].
  - rewrite Nat.sub_0_r. reflexivity.
  - destruct i as [|i]; [reflexivity|]. cbn [String.get]. rewrite IH. reflexivity.
Qed.

Lemma get_take (n : nat) (s : string) (i : nat) :
  String.get i (take n s) = if i <? n then String.get i s else None.
Proof.
  revert s i; induction n as [|n IH]; intros s i; cbn [take].
  - destruct i; reflexivity.
  - destruct s as [|c s]; [destruct (i <? S n); reflexivity|].
    destruct i as [|i]; [reflexivity|]. cbn [String.get]. rewrite IH. reflexivity.
Qed.

Lemma get_drop (n : nat) (s : string) (i : nat) :
  String.get i (drop n s) = String.get (n + i) s.
Proof.
  revert s; induction n as [|n IH]; intros s; cbn [drop]; [reflexivity|].
  destruct s as [|c s]; [destruct i; reflexivity|]. apply IH.
Qed.

Lemma get_repeat (c : ascii) (n i : nat) :
  String.get i (gostr.repeat c n) = if i <? n then Some c else None.
Proof.
  revert i; induction n as [|n IH]; intros i; cbn [gostr.repeat].
  - destruct i; reflexivity.
  - destruct i as [|i]; [reflexivity|]. cbn [String.get]. rewrite IH. reflexivity.
Qed.

Lemma get_beyond (s : string) (i : nat) :
  String.length s <= i -> String.get i s = None.
Proof.
  revert i; induction s as [|c s IH]; intros i H; [destruct i; reflexivity|].
  destruct i as [|i]; [simpl in H; lia|]. apply IH. simpl in H. lia.
Qed.

(** One replacement: the span becomes mask characters, the rest stays. *)
Lemma maskMatch_get (input out : string) (m0 m1 i : nat) :
  m0 <= m1 <= String.length input ->
  maskMatch input (m0, m1) = Some out ->
  String.get i out =
  if (m0 <=? i) && (i <? m1) then Some star else String.get i input.
Proof.
  intros H E. unfold maskMatch in E.
  destruct (m1 <? m0); [discriminate|].
  destruct (String.length input <? m0); [discriminate|].
  destruct (String.length input <? m1); [discriminate|].
  injection E as <-.
  rewrite get_append, length_take, get_take.
  replace (Nat.min m0 (String.length input)) with m0 by lia.
  destruct (Nat.ltb_spec i m0) as [L|L].
  - replace (m0 <=? i) with false by (symmetry; apply Nat.leb_gt; lia). reflexivity.
  - replace (m0 <=? i) with true by (symmetry; apply Nat.leb_le; lia).
    rewrite get_append, length_repeat, get_repeat, get_drop. cbn [andb].
    destruct (Nat.ltb_spec (i - m0) (m1 - m0)) as [L1|L1].
    + replace (i <? m1) with true by (symmetry; apply Nat.ltb_lt; lia). reflexivity.
    + replace (i <? m1) with false by (symmetry; apply Nat.ltb_ge; lia).
      f_equal. lia.
Qed.

Lemma maskedFrom_refl (a : string) : maskedFrom a a.
Proof. intros i; left; reflexivity. Qed.

Lemma maskedFrom_trans (a b c : string) :
  maskedFrom a b -> maskedFrom b c -> maskedFrom a c.
Proof.
  intros H1 H2 i. destruct (H2 i) as [E|E]; [|right; exact E].
  rewrite E. apply H1.
Qed.

Lemma maskedFrom_star (a b : string) (i : nat) :
  maskedFrom a b -> String.get i a = Some star -> String.get i b = Some star.
Proof. intros H E. destruct (H i) as [E'|E']; congruence. Qed.

Lemma maskMatch_maskedFrom (input out : string) (m0 m1 : nat) :
  m0 <= m1 <= String.length input ->
  maskMatch input (m0, m1) = Some out -> maskedFrom input out.
Proof.
  intros H E i. rewrite (maskMatch_get input out m0 m1 i H E).
  destruct (_ && _); [right | left]; reflexivity.
Qed.

Lemma rangeMatches_get (matches : list (nat * nat)) :
  forall input out,
  Forall (fun '(a0, a1) => a0 <= a1 <= String.length input) matches ->
  rangeMatches matches input = Some out ->
  maskedFrom input out /\
  forall m0 m1 i, In (m0, m1) matches -> m0 <= i < m1 ->
                  String.get i out = Some star.
Proof.
  induction matches as [|[a0 a1] matches IH]; intros input out H E;
    cbn [rangeMatches] in E.
  - injection E as <-. split; [apply maskedFrom_refl | intros ? ? ? []].
  - inversion H as [|? ? H1 H2]; subst.
    destruct (maskMatch_ok input a0 a1 H1) as (input1 & E1 & L1).
    rewrite E1 in E.
    destruct (IH input1 out) as [M S]; [rewrite L1; exact H2 | exact E |].
    pose proof (maskMatch_maskedFrom input input1 a0 a1 H1 E1) as M1.
    split; [eapply maskedFrom_trans; eassumption|].
    intros m0 m1 i [Hin|Hin] Hi.
    + injection Hin as -> ->.
      apply (maskedFrom_star input1 out i M).
      rewrite (maskMatch_get input input1 m0 m1 i H1 E1).
      replace (m0 <=? i) with true by (symmetry; apply Nat.leb_le; lia).
      replace (i <? m1) with true by (symmetry; apply Nat.ltb_lt; lia).
      reflexivity.
    + apply (S m0 m1 i Hin Hi).
Qed.

(** The text returned and the lines printed, for any lines printed before. *)
Lemma rangePatterns_result (patterns : list Pattern) :
  forall input stdout,
  exists text,
    rangePatterns patterns input stdout = Returns text (stdout ++ diagnostics patterns)
    /\ maskedFrom input text.
Proof.
  induction patterns as [|p patterns IH]; intros input stdout;
    cbn [rangePatterns diagnostics flat_map].
  - exists input. rewrite app_nil_r. split; [reflexivity | apply maskedFrom_refl].
  - fold (diagnostics patterns).
    destruct (Compile (Regex (Pattern_ p))) as [re|err].
    + pose proof (FindAllStringIndex_in_range re input (-1)) as R.
      destruct (rangeMatches_ok _ input R) as (input1 & E1 & L1).
      rewrite E1.
      destruct (rangeMatches_get _ input input1 R E1) as [M1 _].
      destruct (IH input1 stdout) as (text & E & M).
      exists text. split; [exact E | eapply maskedFrom_trans; eassumption].
    + destruct (IH input (stdout ++ [ErrorCompilingRegex (Regex (Pattern_ p)) err])%list)
        as (text & E & M).
      exists text. split; [|exact M].
      rewrite E, <- app_assoc. reflexivity.
Qed.

Lemma maskSecretKeys_result (input : string) (patterns : list Pattern) :
  maskSecretKeys input patterns
  = Returns (masked (maskSecretKeys input patterns)) (diagnostics patterns).
Proof.
  unfold maskSecretKeys.
  destruct (rangePatterns_result patterns input []) as (text & E & _).
  rewrite E. reflexivity.
Qed.

Lemma maskSecretKeys_maskedFrom (input : string) (patterns : list Pattern) :
  maskedFrom input (masked (maskSecretKeys input patterns)).
Proof.
  unfold maskSecretKeys.
  destruct (rangePatterns_result patterns input []) as (text & E & M).
  rewrite E. exact M.
Qed.

Lemma diagnostics_app (ps1 ps2 : list Pattern) :
  diagnostics (ps1 ++ ps2) = (diagnostics ps1 ++ diagnostics ps2)%list.
Proof. unfold diagnostics. apply flat_map_app. Qed.

Lemma maskSecretKeys_app (input : string) (ps1 ps2 : list Pattern) :
  masked (maskSecretKeys input (ps1 ++ ps2))
  = masked (maskSecretKeys (masked (maskSecretKeys input ps1)) ps2).
Proof.
  unfold maskSecretKeys. rewrite rangePatterns_app.
  destruct (rangePatterns_result ps1 input []) as (t1 & E1 & _).
  rewrite E1. cbn [app masked].
  destruct (rangePatterns_result ps2 t1 []) as (t2 & E2 & _).
  rewrite (rangePatterns_stdout ps2 t1 (diagnostics ps1) _ _ E2), E2.
  reflexivity.
Qed.

Lemma FindAllStringIndex_no_match (re : Regexp) (s : string) (n : Z) :
  execute re (start s) = None -> FindAllStringIndex re s n = [].
Proof.
  intros H. unfold FindAllStringIndex. cbn [allMatches].
  destruct (_ <? _)%Z; [rewrite H|]; reflexivity.
Qed.

End bytefacts.

Module tokenfacts.
Import gostr regexp masking spec vocab strfacts matchfacts.

Lemma chars_append (a b : string) :
  list_ascii_of_string (a ++ b)
  = (list_ascii_of_string a ++ list_ascii_of_string b)%list.
Proof. induction a as [|c a IH]; cbn; [reflexivity | now rewrite IH]. Qed.

Lemma chars_take (n : nat) (s : string) (c : ascii) :
  In c (list_ascii_of_string (take n s)) -> In c (list_ascii_of_string s).
Proof.
  intros H. rewrite <- (take_drop n s), chars_append. apply in_or_app; left; exact H.
Qed.

Lemma chars_drop (n : nat) (s : string) (c : ascii) :
  In c (list_ascii_of_string (drop n s)) -> In c (list_ascii_of_string s).
Proof.
  intros H. rewrite <- (take_drop n s), chars_append. apply in_or_app; right; exact H.
Qed.

Lemma bytesFrom_refl (a : string) : bytesFrom a a.
Proof. intros c H; right; exact H. Qed.

Lemma bytesFrom_trans (a b c : string) :
  bytesFrom a b -> bytesFrom b c -> bytesFrom a c.
Proof.
  intros H1 H2 x Hx. destruct (H2 x Hx) as [E|E]; [left; exact E | apply H1; exact E].
Qed.

Lemma replaceAll_bytesFrom (re : Regexp) (src : string) :
  forall fuel lastMatchEnd i,
  bytesFrom src (replaceAll fuel re src "******" lastMatchEnd i).
Proof.
  assert (D : forall n, bytesFrom src (drop n src)).
  { intros n c H; right; eapply chars_drop; exact H. }
  induction fuel as [|fuel IH]; intros lme i; cbn [replaceAll]; [apply D|].
  destruct (execute re i) as [[a b]|]; [|apply D].
  intros c H. rewrite !chars_append in H.
  apply in_app_or in H as [H|H].
  { right. unfold slice in H. eapply chars_drop, chars_take; exact H. }
  apply in_app_or in H as [H|H].
  { left. destruct (_ || _); cbn in H; [|contradiction].
    unfold star. intuition congruence. }
  revert c H. change (bytesFrom src
    (if pos b <? pos i + snd (utf8.DecodeRuneInString (rest i))
     then match step i with
          | Some (_, i') => replaceAll fuel re src "******" (pos b) i'
          | None => drop (pos b) src
          end
     else if pos b <? pos i + 1 then drop (pos b) src
          else replaceAll fuel re src "******" (pos b) b)).
  destruct (pos b <? _).
  - destruct (step i) as [[r i']|]; [apply IH | apply D].
  - destruct (pos b <? _); [apply D | apply IH].
Qed.

Lemma rangeRules_bytesFrom (rules : list Rule) :
  forall text, bytesFrom text (rangeRules rules text).
Proof.
  induction rules as [|rule rules IH]; intros text; cbn [rangeRules];
    [apply bytesFrom_refl|].
  eapply bytesFrom_trans; [|apply IH].
  unfold ReplaceAllString. apply replaceAll_bytesFrom.
Qed.

End tokenfacts.

Import vocab bytefacts tokenfacts.

Lemma printed_is_diagnostics
  (input : string) (patterns : list Pattern) :
  printed (maskSecretKeys input patterns) = diagnostics patterns.
Proof. rewrite maskSecretKeys_result. reflexivity. Qed.

(** X1.  [maskSecretKeys] changes a text only by writing mask characters:
    every byte of the result is the byte of the input at that place or an
    asterisk. *)
Theorem maskSecretKeys_only_writes_mask_characters :
  forall (input : string) (patterns : list Pattern) (i : nat),
  String.get i (masked (maskSecretKeys input patterns)) = String.get i input
  \/ String.get i (masked (maskSecretKeys input patterns)) = Some "*"%char.
Proof. intros input patterns. apply maskSecretKeys_maskedFrom. Qed.

(** X2.  Every span a pattern matches in the text left by the patterns before
    it is made of asterisks in the final result, whatever patterns follow. *)
Theorem maskSecretKeys_masks_every_span_found :
  forall (input : string) (before after : list Pattern) (pattern : Pattern)
         (re : Regexp) (m0 m1 i : nat),
  Compile (yaml_regex.Regex (Pattern_ pattern)) = Ok re ->
  In (m0, m1) (FindAllStringIndex re (masked (maskSecretKeys input before)) (-1)) ->
  m0 <= i < m1 ->
  String.get i (masked (maskSecretKeys input (before ++ pattern :: after)))
  = Some "*"%char.
Proof.
  intros input before after pattern re m0 m1 i C Hin Hi.
  change (pattern :: after) with ([pattern] ++ after)%list.
  rewrite maskSecretKeys_app, maskSecretKeys_app.
  set (t0 := masked (maskSecretKeys input before)) in *.
  apply (maskedFrom_star _ _ i (maskSecretKeys_maskedFrom _ after)).
  unfold maskSecretKeys. cbn [rangePatterns]. rewrite C.
  pose proof (FindAllStringIndex_in_range re t0 (-1)) as R.
  destruct (rangeMatches_ok _ t0 R) as (t1 & E1 & _).
  rewrite E1. cbn [masked].
  destruct (rangeMatches_get _ t0 t1 R E1) as [_ S].
  apply (S m0 m1 i Hin Hi).
Qed.

Lemma maskSecretKeys_masks_every_span_found_witness :
  String.get 5 (masked (maskSecretKeys "pin=1234"
                  ([mkPattern (mkFields "key" "pin" "low")]
                   ++ mkPattern (mkFields "digits" "[0-9]+" "high")
                   :: [mkPattern (mkFields "eq" "=" "low")])))
  = Some "*"%char.
Proof.
  apply (maskSecretKeys_masks_every_span_found "pin=1234"
           [mkPattern (mkFields "key" "pin" "low")]
           [mkPattern (mkFields "eq" "=" "low")]
           (mkPattern (mkFields "digits" "[0-9]+" "high"))
           (match Compile "[0-9]+" with Ok re => re | Err _ => mkRegexp EmptyString OpNoMatch end)
           4 8 5).
  - vm_compute. reflexivity.
  - vm_compute. left. reflexivity.
  - lia.
Defined.

(** X3.  What [maskSecretKeys] prints does not depend on the text: it is one
    line for each pattern that does not compile, in the order of the
    patterns. *)
Theorem maskSecretKeys_prints_one_line_per_bad_pattern :
  forall (input : string) (patterns : list Pattern),
  printed (maskSecretKeys input patterns) = diagnostics patterns.
Proof.
  intros input patterns. rewrite maskSecretKeys_result. reflexivity.
Qed.

(** X4.  A text in which no pattern that compiles has a match is returned
    as it is. *)
Theorem maskSecretKeys_unmatched_text_unchanged :
  forall (input : string) (patterns : list Pattern),
  unmatchedPatterns patterns input = true ->
  masked (maskSecretKeys input patterns) = input.
Proof.
  intros input patterns. unfold maskSecretKeys.
  generalize (@nil Printed) as out.
  induction patterns as [|p ps IH]; intros out H; [reflexivity|].
  cbn [unmatchedPatterns forallb] in H. apply andb_prop in H as [H1 H2].
  cbn [rangePatterns].
  destruct (Compile (yaml_regex.Regex (Pattern_ p))) as [re|err].
  - rewrite FindAllStringIndex_no_match
      by (destruct (execute re (start input)); [discriminate | reflexivity]).
    cbn [rangeMatches]. apply IH. exact H2.
  - apply IH. exact H2.
Qed.

Lemma maskSecretKeys_unmatched_text_unchanged_witness :
  masked (maskSecretKeys "nothing here"
            [mkPattern (mkFields "digits" "[0-9]+" "high");
             mkPattern (mkFields "broken" "(" "low")])
  = "nothing here".
Proof.
  apply maskSecretKeys_unmatched_text_unchanged. vm_compute. reflexivity.
Defined.

(** X5.  Masking with the patterns [ps1 ++ ps2] is masking with [ps1] and
    then masking the result with [ps2]; the lines printed are those of [ps1]
    followed by those of [ps2]. *)
Theorem maskSecretKeys_composes :
  forall (input : string) (ps1 ps2 : list Pattern),
  maskSecretKeys input (ps1 ++ ps2)
  = Returns (masked (maskSecretKeys (masked (maskSecretKeys input ps1)) ps2))
      (printed (maskSecretKeys input ps1)
       ++ printed (maskSecretKeys (masked (maskSecretKeys input ps1)) ps2)).
Proof.
  intros input ps1 ps2.
  rewrite (maskSecretKeys_result input (ps1 ++ ps2)).
  rewrite maskSecretKeys_app, diagnostics_app.
  rewrite !printed_is_diagnostics. reflexivity.
Qed.

(** X6.  [MaskSecretsOnString] invents no byte: every byte of the result is
    an asterisk or a byte that occurs in the input. *)
Theorem MaskSecretsOnString_bytes_from_input_or_token :
  forall (input : string) (rules : list Rule) (c : ascii),
  In c (list_ascii_of_string (MaskSecretsOnString input rules)) ->
  c = "*"%char \/ In c (list_ascii_of_string input).
Proof. intros input rules. apply (rangeRules_bytesFrom rules input). Qed.

Lemma MaskSecretsOnString_bytes_from_input_or_token_witness :
  "k"%char = "*"%char \/ In "k"%char (list_ascii_of_string "key=12").
Proof.
  apply (MaskSecretsOnString_bytes_from_input_or_token "key=12" [ruleOf "[0-9]+"]).
  vm_compute. left. reflexivity.
Defined.

(** X7.  A text in which no rule has a match is returned as it is by
    [MaskSecretsOnString]; a text without line terminator is masked into a
    text without line terminator. *)
Theorem MaskSecretsOnString_unmatched_text_unchanged :
  forall (input : string) (rules : list Rule),
  (unmatched rules input = true -> MaskSecretsOnString input rules = input)
  /\ (noLF input -> noLF (MaskSecretsOnString input rules)).
Proof.
  intros input rules. split.
  - apply rangeRules_unmatched.
  - apply rangeRules_noLF.
Qed.

Lemma MaskSecretsOnString_unmatched_text_unchanged_witness :
  MaskSecretsOnString "nothing here" BuiltinRules = "nothing here"
  /\ noLF (MaskSecretsOnString "token ghp_ab12" [ruleOf "ghp_[0-9a-zA-Z]{4}"]).
Proof.
  split.
  - apply (proj1 (MaskSecretsOnString_unmatched_text_unchanged "nothing here" BuiltinRules)).
    vm_compute. reflexivity.
  - apply (proj2 (MaskSecretsOnString_unmatched_text_unchanged "token ghp_ab12"
                    [ruleOf "ghp_[0-9a-zA-Z]{4}"])).
    vm_compute. reflexivity.
Defined.

Module linefacts.

Lemma joinLines_app (l1 l2 : list string) :
  joinLines (l1 ++ l2) = joinLines l1 ++ joinLines l2.
Proof.
  induction l1 as [|l l1 IH]; [reflexivity|].
  cbn [app]. rewrite !joinLines_cons, IH, !append_assoc. reflexivity.
Qed.

Lemma concatAll_app (l1 l2 : list string) :
  gostr.concatAll (l1 ++ l2) = gostr.concatAll l1 ++ gostr.concatAll l2.
Proof.
  induction l1 as [|l l1 IH]; [reflexivity|].
  cbn [app gostr.concatAll fold_right].
  change (fold_right append EmptyString ?l) with (gostr.concatAll l).
  rewrite IH, append_assoc. reflexivity.
Qed.

Lemma last_snoc (l : string) (c : ascii) :
  gostr.last (l ++ String c EmptyString) = Some c.
Proof.
  induction l as [|a l IH]; [reflexivity|].
  cbn [String.append gostr.last]. rewrite IH.
  destruct (l ++ String c EmptyString) eqn:E; [|reflexivity].
  destruct l; discriminate.
Qed.

Lemma dropCR_snoc (l : string) :
  bufio.dropCR (l ++ String CR EmptyString) = l.
Proof.
  unfold bufio.dropCR. rewrite last_snoc, Ascii.eqb_refl.
  rewrite length_append. cbn [String.length].
  replace (String.length l + 1 - 1) with (String.length l) by lia.
  apply take_app.
Qed.

Lemma noLF_snoc_CR (l : string) : noLF l -> noLF (l ++ String CR EmptyString).
Proof. intros H. apply noLF_app. split; [exact H | reflexivity]. Qed.

Lemma emitLine_terminated (rules : list Rule) (l : string) :
  terminated (emitLine rules l).
Proof.
  unfold emitLine, terminated.
  destruct (_ =? 0); [exists EmptyString | eexists]; reflexivity.
Qed.

Lemma chunks_count (B : nat) :
  0 < B ->
  forall fuel t,
  String.length t <= fuel ->
  String.length t <= List.length (chunks fuel B t) * B
  /\ List.length (chunks fuel B t) * B < String.length t + B.
Proof.
  intros HB fuel; induction fuel as [|fuel IH]; intros t Ht.
  - assert (t = EmptyString) by (apply length_0; lia). subst t. cbn. lia.
  - destruct t as [|c t]; [cbn; lia|].
    cbn [chunks List.length Nat.mul].
    destruct (IH (drop B (String c t))) as [L U].
    { rewrite length_drop. cbn [String.length] in *. lia. }
    rewrite length_drop in L, U.
    destruct (Nat.le_gt_cases B (String.length (String c t))) as [G|G].
    + lia.
    + rewrite (drop_all B (String c t)) in * by lia.
      destruct fuel; cbn [chunks List.length Nat.mul] in *;
        cbn [String.length] in *; lia.
Qed.

End linefacts.
Import linefacts.

(** X8.  A last line without terminator, shorter than the buffer bound, is
    masked and written like the others, with a terminator added. *)
Theorem stream_terminates_last_line :
  forall (lines : list string) (l : string),
  Forall (fun l => noLF l /\ String.length l < maxCapacity) lines ->
  noLF l -> l <> EmptyString -> String.length l < maxCapacity ->
  MaskSecretsStream (joinLines lines ++ l)
  = (mkPipe
       (map (fun l => MaskSecretsOnString (bufio.dropCR l) BuiltinRules ++ nl)
          (lines ++ [l]))
       Closed, None).
Proof.
  intros lines l H Hl Hne Hlen. unfold MaskSecretsStream.
  rewrite (producer_final maxCapacity maxCapacity_pos BuiltinRules lines l H Hl Hne Hlen).
  rewrite map_app. cbn [map].
  rewrite (map_ext _ _ emitLine_builtin), emitLine_builtin. reflexivity.
Qed.

Lemma stream_terminates_last_line_witness :
  MaskSecretsStream (joinLines ["ab"; "cd"] ++ "last")
  = (mkPipe
       (map (fun l => MaskSecretsOnString (bufio.dropCR l) BuiltinRules ++ nl)
          (["ab"; "cd"] ++ ["last"]))
       Closed, None).
Proof.
  apply (stream_terminates_last_line ["ab"; "cd"] "last").
  - short_lines.
  - reflexivity.
  - discriminate.
  - apply Nat.ltb_lt. vm_compute. reflexivity.
Defined.

(** X9.  Lines ended by a carriage return and a line feed give the output
    that the same lines ended by a line feed give: the carriage return is
    dropped and the output lines end with a line feed alone. *)
Theorem stream_drops_carriage_returns :
  forall lines : list string,
  Forall (fun l => noLF l /\ S (String.length l) < maxCapacity
                   /\ gostr.last l <> Some CR) lines ->
  MaskSecretsStream (joinLines (map (fun l => l ++ String CR EmptyString) lines))
  = MaskSecretsStream (joinLines lines)
  /\ writes (fst (MaskSecretsStream (joinLines lines)))
     = map (fun l => MaskSecretsOnString l BuiltinRules ++ nl) lines.
Proof.
  intros lines H.
  assert (H1 : Forall (fun l => noLF l /\ String.length l < maxCapacity)
                 (map (fun l => l ++ String CR EmptyString) lines)).
  { apply Forall_forall. intros l' Hin. apply in_map_iff in Hin as (l & <- & Hin).
    rewrite Forall_forall in H. destruct (H l Hin) as (Hno & Hlen & _).
    split; [apply noLF_snoc_CR; exact Hno|].
    rewrite length_append. cbn [String.length]. lia. }
  assert (H2 : Forall (fun l => noLF l /\ String.length l < maxCapacity) lines).
  { apply Forall_forall. intros l Hin.
    rewrite Forall_forall in H. destruct (H l Hin) as (Hno & Hlen & _).
    split; [exact Hno | lia]. }
  assert (E : map (fun l => MaskSecretsOnString (bufio.dropCR l) BuiltinRules ++ nl) lines
              = map (fun l => MaskSecretsOnString l BuiltinRules ++ nl) lines).
  { apply map_ext_in. intros l Hin.
    rewrite Forall_forall in H. destruct (H l Hin) as (_ & _ & Hcr).
    rewrite dropCR_id by exact Hcr. reflexivity. }
  split.
  - unfold MaskSecretsStream.
    rewrite (producer_lines maxCapacity maxCapacity_pos BuiltinRules _ H1).
    rewrite (producer_lines maxCapacity maxCapacity_pos BuiltinRules _ H2).
    rewrite map_map. do 2 f_equal.
    apply map_ext_in. intros l Hin. unfold emitLine. rewrite dropCR_snoc.
    rewrite Forall_forall in H. destruct (H l Hin) as (_ & _ & Hcr).
    rewrite dropCR_id by exact Hcr. reflexivity.
  - assert (W := f_equal (fun p => writes (fst p)) (MaskSecretsStream_lines lines H2)).
    cbn [fst writes] in W. rewrite W. exact E.
Qed.

Lemma stream_drops_carriage_returns_witness :
  MaskSecretsStream
    (joinLines (map (fun l => l ++ String CR EmptyString) ["ab"; EmptyString; "token"]))
  = MaskSecretsStream (joinLines ["ab"; EmptyString; "token"])
  /\ writes (fst (MaskSecretsStream (joinLines ["ab"; EmptyString; "token"])))
     = map (fun l => MaskSecretsOnString l BuiltinRules ++ nl) ["ab"; EmptyString; "token"].
Proof.
  apply (stream_drops_carriage_returns ["ab"; EmptyString; "token"]).
  repeat first
    [ apply Forall_nil
    | apply Forall_cons;
      [ split; [reflexivity
               | split; [apply Nat.ltb_lt; vm_compute; reflexivity | discriminate]] | ] ].
Defined.

(** X10.  On every input each write of the stream processor ends with a line
    terminator, and there are at most as many writes as input bytes. *)
Theorem stream_writes_are_terminated :
  forall input : bytes.Buffer,
  Forall terminated (writes (fst (MaskSecretsStream input)))
  /\ List.length (writes (fst (MaskSecretsStream input))) <= String.length input.
Proof.
  intros input. unfold MaskSecretsStream; cbn [fst].
  assert (T : forall ls, Forall terminated (map (emitLine BuiltinRules) ls)).
  { intros ls. apply Forall_forall. intros w Hin.
    apply in_map_iff in Hin as (l & <- & _). apply emitLine_terminated. }
  destruct (input_shape maxCapacity maxCapacity_pos (String.length input) input (le_n _))
    as (ls & tail & Hls & -> & [-> | [(Hno & Hne & Hlen) | (x & t & -> & Hx & Hlx)]]).
  - rewrite append_nil_r, (producer_lines maxCapacity maxCapacity_pos BuiltinRules ls Hls).
    cbn [writes]. split; [apply T|].
    rewrite length_map. apply length_joinLines.
  - rewrite (producer_final maxCapacity maxCapacity_pos BuiltinRules ls tail Hls Hno Hne Hlen).
    cbn [writes]. split.
    + apply Forall_app. split; [apply T|].
      constructor; [apply emitLine_terminated | constructor].
    + rewrite length_app, length_map, length_append. cbn [List.length].
      pose proof (length_joinLines ls). pose proof (length_pos tail Hne). lia.
  - rewrite (producer_overflow maxCapacity maxCapacity_pos BuiltinRules ls x t Hls Hx Hlx).
    rewrite (fallback_chunks maxCapacity maxCapacity_pos BuiltinRules _ t (le_n _)).
    unfold prepend; cbn [writes]. split.
    + apply Forall_app. split; [apply T|].
      apply Forall_forall. intros w Hin.
      apply in_map_iff in Hin as (c & <- & _). eexists; reflexivity.
    + rewrite length_app, !length_map, !length_append.
      pose proof (length_joinLines ls).
      destruct (chunks_count maxCapacity maxCapacity_pos (String.length t) t (le_n _))
        as [_ U].
      pose proof maxCapacity_pos.
      assert (List.length (chunks (String.length t) maxCapacity t) <= String.length t).
      { destruct (List.length (chunks (String.length t) maxCapacity t)) as [|k]; [lia|].
        cbn [Nat.mul] in U. nia. }
      lia.
Qed.

(** X11.  For inputs made of lines that fit the buffer the stream processor
    works line by line: the output for two inputs put one after the other is
    the output for the first followed by the output for the second. *)
Theorem stream_output_of_concatenation :
  forall lines1 lines2 : list string,
  Forall (fun l => noLF l /\ String.length l < maxCapacity) lines1 ->
  Forall (fun l => noLF l /\ String.length l < maxCapacity) lines2 ->
  ReadAll (fst (MaskSecretsStream (joinLines lines1 ++ joinLines lines2)))
  = ReadAll (fst (MaskSecretsStream (joinLines lines1)))
    ++ ReadAll (fst (MaskSecretsStream (joinLines lines2))).
Proof.
  intros lines1 lines2 H1 H2.
  rewrite <- joinLines_app.
  rewrite (MaskSecretsStream_lines (lines1 ++ lines2)) by (apply Forall_app; auto).
  rewrite (MaskSecretsStream_lines lines1 H1), (MaskSecretsStream_lines lines2 H2).
  unfold ReadAll; cbn [fst writes]. rewrite map_app. apply concatAll_app.
Qed.

Lemma stream_output_of_concatenation_witness :
  ReadAll (fst (MaskSecretsStream (joinLines ["ab"; EmptyString] ++ joinLines ["token"])))
  = ReadAll (fst (MaskSecretsStream (joinLines ["ab"; EmptyString])))
    ++ ReadAll (fst (MaskSecretsStream (joinLines ["token"]))).
Proof.
  apply (stream_output_of_concatenation ["ab"; EmptyString] ["token"]); short_lines.
Defined.

(** X12.  In the overflow fallback line terminators no longer count: after
    the lines that fit, there is one write for each chunk of [maxCapacity]
    bytes of what follows the buffered run, the last chunk being the
    remainder. *)
Theorem overflow_writes_one_chunk_per_bound :
  forall (lines : list string) (x rest : string),
  Forall (fun l => noLF l /\ String.length l < maxCapacity) lines ->
  noLF x -> String.length x = maxCapacity ->
  exists k : nat,
    List.length (writes (fst (MaskSecretsStream (joinLines lines ++ x ++ rest))))
    = List.length lines + k
    /\ String.length rest <= k * maxCapacity
    /\ k * maxCapacity < String.length rest + maxCapacity.
Proof.
  intros lines x rest H Hx Hl.
  exists (List.length (chunks (String.length rest) maxCapacity rest)).
  rewrite (MaskSecretsStream_overflow lines x rest H Hx Hl).
  rewrite (fallback_chunks maxCapacity maxCapacity_pos BuiltinRules _ rest (le_n _)).
  unfold prepend; cbn [writes]. rewrite length_app, !length_map.
  split; [reflexivity|].
  apply (chunks_count maxCapacity maxCapacity_pos _ rest (le_n _)).
Qed.

Lemma overflow_writes_one_chunk_per_bound_witness :
  exists k : nat,
    List.length (writes (fst (MaskSecretsStream
       (joinLines ["ab"] ++ gostr.repeat "x" maxCapacity ++ "tail"))))
    = List.length ["ab"] + k
    /\ String.length "tail" <= k * maxCapacity
    /\ k * maxCapacity < String.length "tail" + maxCapacity.
Proof.
  apply (overflow_writes_one_chunk_per_bound ["ab"] (gostr.repeat "x" maxCapacity) "tail").
  - short_lines.
  - vm_compute. reflexivity.
  - apply length_repeat.
Defined.

(** ** The entry points *)

Module mainfacts.

Lemma ReadString_line (l t : string) :
  noLF l ->
  reader.ReadString (l ++ nl ++ t) LF = (l ++ nl, None, t).
Proof.
  intros H. unfold reader.ReadString. rewrite (indexByte_line l t H).
  replace (String.length l + 1) with (String.length (l ++ nl))
    by (rewrite length_append; reflexivity).
  rewrite <- append_assoc, take_app, drop_app. reflexivity.
Qed.

Lemma ReadString_tail (t : string) :
  noLF t -> reader.ReadString t LF = (t, Some io.EOF, EmptyString).
Proof. intros H. unfold reader.ReadString. rewrite H. reflexivity. Qed.

Section Loop.
Variable error : Type.

Lemma readLoop_lines (patterns : list Pattern) (ls : list string) (tail : string) :
  Forall noLF ls -> noLF tail ->
  forall fuel, List.length ls < fuel ->
  yaml_main.readLoop error fuel patterns (joinLines ls ++ tail)
  = (flat_map (printedForLine (error := error) patterns) ls, yaml_main.Return).
Proof.
  intros Hls Ht. induction Hls as [|l ls Hl _ IH]; intros fuel Hf.
  - destruct fuel as [|fuel]; [cbn in Hf; lia|].
    cbn [joinLines map gostr.concatAll fold_right String.append yaml_main.readLoop].
    rewrite (ReadString_tail tail Ht). reflexivity.
  - destruct fuel as [|fuel]; [cbn in Hf; lia|].
    rewrite joinLines_cons, !append_assoc.
    cbn [yaml_main.readLoop]. rewrite (ReadString_line l _ Hl).
    rewrite (maskSecretKeys_result (l ++ nl) patterns).
    rewrite IH by (cbn [List.length] in Hf; lia).
    cbn [flat_map]. unfold printedForLine at 2.
    rewrite <- app_assoc. reflexivity.
Qed.

End Loop.

End mainfacts.

Import mainfacts.

(** X13.  [main] of yaml_regex.go masks every terminated line of the log
    file, terminator included, and prints it after the lines
    [maskSecretKeys] prints for that line; the masked line has the length of
    the line with its terminator.  What follows the last terminator is never
    masked nor printed. *)
Theorem yaml_main_masks_terminated_lines :
  forall (error : Type) (ReadFile : string -> string + error)
         (Unmarshal : string -> list Pattern + error)
         (Open : string -> string + error)
         (data : string) (patterns : list Pattern) (ls : list string) (tail : string),
  ReadFile "patterns.yaml" = inl data -> Unmarshal data = inl patterns ->
  Open "synthetic_log_data.txt" = inl (joinLines ls ++ tail) ->
  Forall noLF ls -> noLF tail ->
  yaml_main.main error ReadFile Unmarshal Open
  = ((flat_map (printedForLine patterns) ls ++ [yaml_main.ExecutionTime])%list,
     yaml_main.Return)
  /\ Forall (fun l => String.length (masked (maskSecretKeys (l ++ nl) patterns))
                       = S (String.length l)) ls.
Proof.
  intros error ReadFile Unmarshal Open data patterns ls tail H1 H2 H3 Hls Ht. split.
  - unfold yaml_main.main, readPatterns. rewrite H1, H2, H3.
    rewrite (readLoop_lines error patterns ls tail Hls Ht); [reflexivity|].
    pose proof (length_joinLines ls). rewrite length_append. lia.
  - apply Forall_forall. intros l _.
    destruct (rangePatterns_ok patterns (l ++ nl) []) as (text & out & E & L).
    unfold maskSecretKeys. rewrite E. cbn [masked]. rewrite L, length_append.
    change (String.length nl) with 1. lia.
Qed.

Lemma yaml_main_masks_terminated_lines_witness :
  let patterns := [mkPattern (mkFields "digits" "[0-9]+" "high");
                   mkPattern (mkFields "broken" "(" "low")] in
  yaml_main.main unit (fun _ => inl "doc") (fun _ => inl patterns)
    (fun _ => inl (joinLines ["pin=12"; "none"] ++ "cut=34"))
  = ((flat_map (printedForLine patterns) ["pin=12"; "none"]
      ++ [yaml_main.ExecutionTime])%list, yaml_main.Return)
  /\ Forall (fun l => String.length (masked (maskSecretKeys (l ++ nl) patterns))
                       = S (String.length l)) ["pin=12"; "none"].
Proof.
  intros patterns.
  apply (yaml_main_masks_terminated_lines unit (fun _ => inl "doc")
           (fun _ => inl patterns)
           (fun _ => inl (joinLines ["pin=12"; "none"] ++ "cut=34"))
           "doc" patterns ["pin=12"; "none"] "cut=34");
    try reflexivity.
  repeat constructor.
Defined.



(** X15.  [main] of the catalogue program always prints the masked output of
    the command and returns: a failure of the command is reported first and
    its output is masked all the same, and neither of the two error exits
    after [MaskSecretsStream] is ever taken. *)
Theorem catalogue_main_always_prints_masked_output :
  forall (error : Type) (output : string) (err : option error),
  masking_main.main output err
  = ((match err with
      | Some e => [masking_main.CommandExecutionFailed e]
      | None => []
      end
      ++ [masking_main.Println (ReadAll (fst (MaskSecretsStream output)) ++ nl);
          masking_main.TimeTakenToRead; masking_main.TimeTakenToMask])%list,
     masking_main.Return).
Proof.
  intros error output err. unfold masking_main.main, MaskSecretsStream. cbn [fst].
  rewrite (producer_closes maxCapacity maxCapacity_pos BuiltinRules output).
  reflexivity.
Qed.

Lemma reflect_distinct (l : list string) : distinct l = true -> NoDup l.
Proof.
  induction l as [|x l IH]; cbn [distinct]; intros H; [constructor|].
  apply andb_prop in H as [H1 H2]. constructor; [|apply IH; exact H2].
  intros Hin. apply negb_true_iff in H1.
  assert (E : existsb (String.eqb x) l = true).
  { apply existsb_exists. exists x. split; [exact Hin | apply String.eqb_refl]. }
  congruence.
Qed.

(** X16.  The built-in catalogue is well formed: the rule identifiers are
    pairwise distinct, every rule has a keyword, and the secret group a rule
    names is a named group of its pattern. *)
Theorem BuiltinRules_well_formed :
  NoDup (map ID BuiltinRules)
  /\ (forall rule, In rule BuiltinRules ->
        Keywords rule <> []
        /\ (SecretGroupName rule <> EmptyString ->
            In (SecretGroupName rule) (groupNames (prog (masking.Regex rule))))).
Proof.
  split; [apply reflect_distinct; vm_compute; reflexivity|].
  assert (H : forallb (fun rule => negb (List.length (Keywords rule) =? 0)
                                   && secretGroupExists rule) BuiltinRules = true)
    by (vm_compute; reflexivity).
  rewrite forallb_forall in H. intros rule Hin.
  specialize (H rule Hin). apply andb_prop in H as [H1 H2]. split.
  - intros E. rewrite E in H1. discriminate H1.
  - intros Hne. unfold secretGroupExists in H2.
    apply orb_prop in H2 as [H2|H2].
    + apply String.eqb_eq in H2. elim (Hne H2).
    + apply existsb_exists in H2 as (n & Hn & E).
      apply String.eqb_eq in E. subst n. exact Hn.
Qed.

Lemma BuiltinRules_well_formed_witness :
  exists rule,
    In rule BuiltinRules /\ ID rule = "aws-access-key-id" /\ Keywords rule <> []
    /\ In "secret" (groupNames (prog (masking.Regex rule))).
Proof.
  destruct BuiltinRules_well_formed as [_ H].
  assert (E : exists rule rest,
             BuiltinRules = rule :: rest /\ ID rule = "aws-access-key-id"
             /\ SecretGroupName rule = "secret").
  { vm_compute. eexists. eexists. split; [reflexivity|]. split; reflexivity. }
  destruct E as (rule & rest & E & I & G).
  assert (Hin : In rule BuiltinRules) by (rewrite E; left; reflexivity).
  destruct (H rule Hin) as [K S].
  exists rule. split; [exact Hin|]. split; [exact I|]. split; [exact K|].
  rewrite <- G. apply S. rewrite G. intros D. discriminate D.
Defined.
